(** * Telegram -> Claude web bridge: a shallow embedding of the extension

    The development follows the two scripts of the browser extension:

    - [Relay]    : the background service worker (extension/background.js),
                   its socket state and the reconnect back-off;
    - [Content]  : the content script (content.js): the DOM locators, text
                   injection, file attachment, the message queue with its
                   single-flight worker, and the attachment accumulator;
    - [TTS]      : the speech engine of the content script: the transcript
                   cursor and the language detection behind voice choice.

    JavaScript strings are sequences of UTF-16 code units; they are modelled
    as lists of code units so that [length], [slice] and the regular
    expressions of the source (none of which carries the [u] flag) keep
    their per-code-unit meaning. *)

From Stdlib Require Import ZArith String Ascii Bool Arith Lia List Sorted DecimalString.
Import ListNotations.

Set Implicit Arguments.

(* ================================================================== *)
(** * JavaScript values used by the scripts *)
(* ================================================================== *)

Module JS.

(** A string value: its UTF-16 code units. *)
Definition jsstring := list N.

(** A source literal (ASCII only). *)
Definition lit (s : string) : jsstring :=
  map N_of_ascii (list_ascii_of_string s).

Definition jsstring_eqb (a b : jsstring) : bool :=
  if list_eq_dec N.eq_dec a b then true else false.

(** A property that may be missing from a message object: [None] is
    [undefined]. *)
Definition jsval := option jsstring.

(** Truthiness of a string-or-undefined value: [undefined] and the empty
    string are falsy. *)
Definition truthy (v : jsval) : bool :=
  match v with
  | Some (_ :: _) => true
  | _ => false
  end.

(** Interpolation inside a template literal. *)
Definition to_str (v : jsval) : jsstring :=
  match v with
  | Some s => s
  | None => lit "undefined"
  end.

(** [s.slice(0, n)]. *)
Definition slice0 (n : nat) (s : jsstring) : jsstring := firstn n s.

(** [s.slice(n)]. *)
Definition slice_from (n : nat) (s : jsstring) : jsstring := skipn n s.

(** [s.startsWith(p)]. *)
Fixpoint startsWith (s p : jsstring) : bool :=
  match p, s with
  | [], _ => true
  | _ :: _, [] => false
  | c :: p', d :: s' => N.eqb c d && startsWith s' p'
  end.

(** [s.includes(p)]. *)
Fixpoint includes (s p : jsstring) : bool :=
  startsWith s p ||
  match s with
  | [] => false
  | _ :: s' => includes s' p
  end.

(** [s.toLowerCase()] on the ASCII range.  The only use in the source is
    [name.toLowerCase().includes('google')]; no code unit outside ASCII
    lower-cases to one of the letters of that word, so the ASCII mapping
    decides the test exactly. *)
Definition lower_unit (c : N) : N :=
  if (65 <=? c)%N && (c <=? 90)%N then (c + 32)%N else c.

Definition toLowerCase (s : jsstring) : jsstring := map lower_unit s.

(** Conversion to a [USVString], which is what a Web API taking one does
    to its argument: a surrogate that is not part of a pair becomes
    U+FFFD. *)
Definition is_high (c : N) : bool := (0xD800 <=? c)%N && (c <=? 0xDBFF)%N.
Definition is_low (c : N) : bool := (0xDC00 <=? c)%N && (c <=? 0xDFFF)%N.

Fixpoint to_usv (s : jsstring) : jsstring :=
  match s with
  | [] => []
  | c :: s' =>
      if is_high c then
        match s' with
        | d :: s'' =>
            if is_low d then c :: d :: to_usv s''
            else 0xFFFD%N :: to_usv s'
        | [] => [0xFFFD%N]
        end
      else if is_low c then 0xFFFD%N :: to_usv s'
      else c :: to_usv s'
  end.

(** [a.join(sep)]. *)
Fixpoint join (sep : jsstring) (parts : list jsstring) : jsstring :=
  match parts with
  | [] => []
  | [p] => p
  | p :: rest => p ++ sep ++ join sep rest
  end.

End JS.

Import JS.

(* ================================================================== *)
(** * The background relay (extension/background.js) *)
(* ================================================================== *)

Module Relay.

Record Config := {
  reconnectDelay : Z;
  maxReconnectDelay : Z
}.

(** [CONFIG] of the service worker (the server URL plays no part in the
    back-off and is left out). *)
Definition CONFIG : Config :=
  {| reconnectDelay := 3000; maxReconnectDelay := 30000 |}.

(** [WebSocket.readyState]. *)
Inductive ReadyState := CONNECTING | OPEN | CLOSING | CLOSED.

Inductive Badge :=
  BadgeConnected | BadgeConnecting | BadgeDisconnected | BadgeError.

(** Frames the relay writes to the socket. *)
Inductive Frame :=
| StatusReady
| Pong (ts : Z).

(** The globals of the script, with the timers it has armed
    ([setTimeout(connect, delay)], oldest first) and the frames it has
    sent. *)
Record State := {
  ws : option ReadyState;
  reconnectAttempts : Z;
  badge : Badge;
  timers : list Z;
  sent : list Frame
}.

Definition initial : State :=
  {| ws := None; reconnectAttempts := 0; badge := BadgeDisconnected;
     timers := []; sent := [] |}.

Definition updateBadge (b : Badge) (s : State) : State :=
  {| ws := ws s; reconnectAttempts := reconnectAttempts s; badge := b;
     timers := timers s; sent := sent s |}.

(** The delay [scheduleReconnect] computes in state [s]:
    [Math.min(reconnectDelay * Math.pow(2, reconnectAttempts),
              maxReconnectDelay)].
    The product is exact in double precision until it overflows to
    [Infinity], where [Math.min] returns the ceiling, as [Z.min] does. *)
Definition reconnect_delay (cfg : Config) (s : State) : Z :=
  Z.min (reconnectDelay cfg * 2 ^ reconnectAttempts s)
        (maxReconnectDelay cfg).

Definition scheduleReconnect (cfg : Config) (s : State) : State :=
  let delay := reconnect_delay cfg s in
  {| ws := ws s; reconnectAttempts := reconnectAttempts s + 1;
     badge := badge s; timers := timers s ++ [delay]; sent := sent s |}.

Definition live (s : State) : bool :=
  match ws s with
  | Some CONNECTING | Some OPEN => true
  | _ => false
  end.

(** [connect()].  [ctor_ok] tells whether [new WebSocket(url)] returns
    (it throws on a malformed URL). *)
Definition connect (cfg : Config) (ctor_ok : bool) (s : State) : State :=
  if live s then s
  else
    let s1 := updateBadge BadgeConnecting s in
    if ctor_ok then
      {| ws := Some CONNECTING; reconnectAttempts := reconnectAttempts s1;
         badge := badge s1; timers := timers s1; sent := sent s1 |}
    else scheduleReconnect cfg s1.

(** [ws.onopen]. *)
Definition onopen (s : State) : State :=
  {| ws := Some OPEN; reconnectAttempts := 0; badge := BadgeConnected;
     timers := timers s; sent := sent s ++ [StatusReady] |}.

(** [ws.onerror]. *)
Definition onerror (s : State) : State := updateBadge BadgeError s.

(** [ws.onclose]. *)
Definition onclose (cfg : Config) (s : State) : State :=
  scheduleReconnect cfg
    (updateBadge BadgeDisconnected
       {| ws := None; reconnectAttempts := reconnectAttempts s;
          badge := badge s; timers := timers s; sent := sent s |}).

(** [reconnect()]: drop the socket without running its handlers, reset
    the counter, connect again. *)
Definition reconnect (cfg : Config) (ctor_ok : bool) (s : State) : State :=
  connect cfg ctor_ok
    {| ws := None; reconnectAttempts := 0; badge := badge s;
       timers := timers s; sent := sent s |}.

(** One connection failure: the socket closes (after or without an
    [error] event), or the constructor throws inside [connect]. *)
Inductive failure (cfg : Config) : State -> State -> Prop :=
| fail_close s : failure cfg s (onclose cfg s)
| fail_error_close s : failure cfg s (onclose cfg (onerror s))
| fail_ctor s : live s = false -> failure cfg s (connect cfg false s).

(** [n] failures in a row, no successful open in between. *)
Inductive failures (cfg : Config) : nat -> State -> State -> Prop :=
| failures_O s : failures cfg 0 s s
| failures_S n s s1 s2 :
    failures cfg n s s1 -> failure cfg s1 s2 -> failures cfg (S n) s s2.

(** The delays of the first [n] steps of the back-off. *)
Definition backoff (cfg : Config) (n : nat) : list Z :=
  map (fun i => Z.min (reconnectDelay cfg * 2 ^ Z.of_nat i)
                      (maxReconnectDelay cfg))
      (seq 0 n).

(** The delay of the reconnect that is armed in state [s]: the timer set
    last. *)
Definition scheduled_delay (s : State) : option Z :=
  last (map Some (timers s)) None.

End Relay.

(* ================================================================== *)
(** * The content script (content.js) *)
(* ================================================================== *)

Module Content.

(** ** Configuration *)

Record Config := {
  attributionPrefix : bool;
  autoSend : bool;
  messageDelay : Z;
  attachmentDelay : Z;
  showNotifications : bool;
  debug : bool
}.

Definition CONFIG : Config :=
  {| attributionPrefix := true; autoSend := true; messageDelay := 500;
     attachmentDelay := 2000; showNotifications := true; debug := true |}.

(** ** The message envelope

    Every property may be absent from the JSON object. *)

Record Message := {
  type : jsval;
  sender : jsval;
  content_type : jsval;
  text : jsval;
  caption : jsval;
  file_data : jsval;
  file_name : jsval;
  mime_type : jsval
}.

(** [v === 'literal']. *)
Definition is_lit (v : jsval) (s : string) : bool :=
  match v with
  | Some x => jsstring_eqb x (lit s)
  | None => false
  end.

(** ** The page

    The selector engine belongs to the browser: the page answers the
    queries.  Selectors are kept as syntax trees of the CSS literals of
    the source. *)

Definition Elem := nat.

Inductive Simple :=
| Tag (name : string)
| Class (name : string)
| Attr (name : string)                     (* [name]            *)
| AttrIs (name value : string)             (* [name="value"]    *)
| AttrHas (name value : string)            (* [name*="value"]   *)
| AttrHasCI (name value : string)          (* [name*="value" i] *)
| Has (tag name value : string).           (* :has(tag[name="value"]) *)

Inductive Selector :=
| Compound (parts : list Simple)
| Descendant (ancestor : list Simple) (target : list Simple).

Definition simple_uses_has (s : Simple) : bool :=
  match s with
  | Has _ _ _ => true
  | _ => false
  end.

Definition uses_has (s : Selector) : bool :=
  match s with
  | Compound ps => existsb simple_uses_has ps
  | Descendant a t => existsb simple_uses_has a || existsb simple_uses_has t
  end.

Record Page := {
  matches : Selector -> list Elem;   (* matching elements, document order *)
  supports_has : bool;               (* does the engine parse [:has()]?   *)
  body : Elem;                       (* [document.body]                   *)
  disabled : Elem -> bool;
  textContent : Elem -> jsstring
}.

(** [document.querySelectorAll(sel)]; [None] is a thrown [SyntaxError]. *)
Definition querySelectorAll (p : Page) (sel : Selector) : option (list Elem) :=
  if uses_has sel && negb (supports_has p) then None
  else Some (matches p sel).

Inductive QResult :=
| QFound (e : Elem)
| QNull
| QThrows.

(** [document.querySelector(sel)]. *)
Definition querySelector (p : Page) (sel : Selector) : QResult :=
  match querySelectorAll p sel with
  | None => QThrows
  | Some [] => QNull
  | Some (e :: _) => QFound e
  end.

(** [el.textContent = s]. *)
Definition set_textContent (e : Elem) (s : jsstring) (p : Page) : Page :=
  {| matches := matches p; supports_has := supports_has p; body := body p;
     disabled := disabled p;
     textContent := fun x => if Nat.eqb x e then s else textContent p x |}.

(** ** Operations the script performs on the page *)

Record File := {
  fileName : jsstring;
  fileType : jsstring;
  fileBytes : list N
}.

(** The [type] of a [File] made with [{ type }]: a missing type is the
    empty string; a type with a code unit outside U+0020..U+007E becomes
    the empty string; any other type is put in lower case. *)
Definition file_type (t : jsval) : jsstring :=
  match t with
  | None => []
  | Some s =>
      if forallb (fun c => (32 <=? c)%N && (c <=? 126)%N) s
      then toLowerCase s
      else []
  end.

(** [new File([bytes], filename, { type: mimeType })]: the name is taken
    as a [USVString]. *)
Definition new_File (bytes : list N) (filename mimeType : jsval) : File :=
  {| fileName := to_usv (to_str filename); fileType := file_type mimeType;
     fileBytes := bytes |}.

Inductive DomEvent :=
| InputEvent_insertText (data : jsstring)
| Event_input
| Event_change
| KeyboardEvent_keydown (key : string)
| KeyboardEvent_keyup (key : string)
| DragEvent_dragenter (f : File)
| DragEvent_dragover (f : File)
| DragEvent_drop (f : File).

Inductive ToastKind := info | success | error.

Inductive Fn :=
| attachFile_fn
| injectText_fn
| clickSend_fn
| accumulateAttachment_fn
| flushAttachments_fn.

Inductive Target := InputTarget | SendTarget | DropTarget | FileTarget.

(** What a run leaves behind.  [Enter f] marks the entry into function
    [f]: it is bookkeeping, every other operation is an effect of the
    script.  Of the console output only the diagnostics of the failure
    paths are kept; the progress lines are left out. *)
Inductive Op :=
| Enter (f : Fn)
| Focus (e : Elem)
| SetTextContent (e : Elem) (s : jsstring)
| CaretToEnd (e : Elem)
| DispatchEvent (e : Elem) (ev : DomEvent)
| SetFiles (e : Elem) (f : File)
| Click (e : Elem)
| Toast (msg : jsstring) (kind : ToastKind)
| Sleep (ms : Z)
| Scan (t : Target) (found : list (Selector * list Elem))
| ConsoleDebug (line : string).

(** ** Script state *)

Record Pending := {
  base64Data : jsstring;
  filename : jsval;
  mimeType : jsval;
  pending_sender : jsval
}.

(** The globals of the script next to the page.  A queued message
    carries the number of its arrival, which the script does not see. *)
Record World := {
  page : Page;
  messageQueue : list (nat * Message);
  isProcessing : bool;
  pendingAttachments : list Pending
}.

Definition with_page (p : Page) (w : World) : World :=
  {| page := p; messageQueue := messageQueue w;
     isProcessing := isProcessing w;
     pendingAttachments := pendingAttachments w |}.

Definition with_queue (q : list (nat * Message)) (w : World) : World :=
  {| page := page w; messageQueue := q; isProcessing := isProcessing w;
     pendingAttachments := pendingAttachments w |}.

Definition with_processing (b : bool) (w : World) : World :=
  {| page := page w; messageQueue := messageQueue w; isProcessing := b;
     pendingAttachments := pendingAttachments w |}.

Definition with_pending (l : list Pending) (w : World) : World :=
  {| page := page w; messageQueue := messageQueue w;
     isProcessing := isProcessing w; pendingAttachments := l |}.

(** ** Asynchronous computations

    An [async] function runs until it returns, throws, or reaches a
    timer ([await sleep(ms)]); at a timer it hands back the rest of its
    body, to be resumed on whatever the world has become.  Awaiting an
    [async] function that has already finished yields to microtasks
    only, so the timers are the only points where other tasks run. *)

Inductive Async (A : Type) :=
| Done (w : World) (ops : list Op) (a : A)
| Thrown (w : World) (ops : list Op) (e : jsstring)
| Asleep (w : World) (ops : list Op) (ms : Z) (k : World -> Async A).

Arguments Thrown {A} w ops e.

Definition M (A : Type) := World -> Async A.

Definition ret {A} (a : A) : M A := fun w => Done w [] a.

Definition throw {A} (e : jsstring) : M A := fun w => Thrown w [] e.

Definition emit (op : Op) : M unit := fun w => Done w [op] tt.

Definition prepend {A} (o : list Op) (r : Async A) : Async A :=
  match r with
  | Done w o' a => Done w (o ++ o') a
  | Thrown w o' e => Thrown w (o ++ o') e
  | Asleep w o' ms k => Asleep w (o ++ o') ms k
  end.

Fixpoint bindA {A B} (r : Async A) (f : A -> M B) : Async B :=
  match r with
  | Done w o a => prepend o (f a w)
  | Thrown w o e => Thrown w o e
  | Asleep w o ms k => Asleep w o ms (fun w' => bindA (k w') f)
  end.

Definition bind {A B} (m : M A) (f : A -> M B) : M B :=
  fun w => bindA (m w) f.

(** [try { body } catch (e) { handler(e) }]. *)
Fixpoint catchA {A} (r : Async A) (h : jsstring -> M A) : Async A :=
  match r with
  | Done w o a => Done w o a
  | Thrown w o e => prepend o (h e w)
  | Asleep w o ms k => Asleep w o ms (fun w' => catchA (k w') h)
  end.

Definition try_catch {A} (m : M A) (h : jsstring -> M A) : M A :=
  fun w => catchA (m w) h.

(** [await sleep(ms)]. *)
Definition sleep (ms : Z) : M unit :=
  fun w => Asleep w [Sleep ms] ms (fun w' => Done w' [] tt).

Definition get_page : M Page := fun w => Done w [] (page w).

Definition modify_page (f : Page -> Page) : M unit :=
  fun w => Done (with_page (f (page w)) w) [] tt.

Declare Scope async_scope.
Delimit Scope async_scope with async.
Notation "x <- c ;; k" := (bind c (fun x => k))
  (at level 61, c at next level, right associativity) : async_scope.
Notation "c ;; k" := (bind c (fun _ => k))
  (at level 61, right associativity) : async_scope.
Local Open Scope async_scope.

(** ** [atob]: the forgiving base64 decoder of the platform *)

Definition is_ascii_whitespace (c : N) : bool :=
  (c =? 9)%N || (c =? 10)%N || (c =? 12)%N || (c =? 13)%N || (c =? 32)%N.

Definition b64_value (c : N) : option N :=
  if (65 <=? c)%N && (c <=? 90)%N then Some (c - 65)%N
  else if (97 <=? c)%N && (c <=? 122)%N then Some (c - 71)%N
  else if (48 <=? c)%N && (c <=? 57)%N then Some (c + 4)%N
  else if (c =? 43)%N then Some 62%N
  else if (c =? 47)%N then Some 63%N
  else None.

Definition strip_padding (s : jsstring) : jsstring :=
  if Nat.eqb (Nat.modulo (List.length s) 4) 0 then
    match rev s with
    | 61%N :: 61%N :: r => rev r
    | 61%N :: r => rev r
    | _ => s
    end
  else s.

Fixpoint b64_values (s : jsstring) : option (list N) :=
  match s with
  | [] => Some []
  | c :: s' =>
      match b64_value c, b64_values s' with
      | Some v, Some vs => Some (v :: vs)
      | _, _ => None
      end
  end.

Fixpoint b64_bytes (v : list N) : list N :=
  match v with
  | a :: b :: c :: d :: rest =>
      let n := (a * 262144 + b * 4096 + c * 64 + d)%N in
      (n / 65536)%N :: ((n / 256) mod 256)%N :: (n mod 256)%N
        :: b64_bytes rest
  | [a; b; c] =>
      let n := ((a * 4096 + b * 64 + c) / 4)%N in
      [(n / 256)%N; (n mod 256)%N]
  | [a; b] => [((a * 64 + b) / 16)%N]
  | _ => []
  end.

(** [atob(data)]; [None] is a thrown [InvalidCharacterError]. *)
Definition atob (data : jsstring) : option (list N) :=
  let d := strip_padding (filter (fun c => negb (is_ascii_whitespace c)) data) in
  if Nat.eqb (Nat.modulo (List.length d) 4) 1 then None
  else option_map b64_bytes (b64_values d).

(** ** Notifications *)

Section WithConfig.

Variable cfg : Config.

(** [showToast(message, type)]: the toast element, its animation and its
    removal timer are chrome; what matters is whether one is shown. *)
Definition toast_ops (msg : jsstring) (kind : ToastKind) : list Op :=
  if showNotifications cfg then [Toast msg kind] else [].

Definition showToast (msg : jsstring) (kind : ToastKind) : M unit :=
  fun w => Done w (toast_ops msg kind) tt.

(** [debug(line)]. *)
Definition debug_ops (line : string) : list Op :=
  if debug cfg then [ConsoleDebug line] else [].

Definition debug_line (line : string) : M unit :=
  fun w => Done w (debug_ops line) tt.

(** ** Diagnostic scans ([dumpInputCandidates], [dumpButtonCandidates])

    Each scan lists, for every selector of its debug set that matches
    something, the matching elements. *)

Definition input_debug_selectors : list Selector :=
  [ Compound [AttrIs "contenteditable" "true"];
    Compound [Attr "data-placeholder"];
    Compound [Class "ProseMirror"];
    Compound [Tag "textarea"];
    Compound [AttrIs "role" "textbox"];
    Compound [AttrHas "data-testid" "input"];
    Compound [AttrHas "data-testid" "composer"] ].

Definition button_debug_selectors : list Selector :=
  [ Compound [Tag "button"; AttrIs "type" "submit"];
    Compound [Tag "button"; AttrHasCI "aria-label" "send"];
    Compound [Tag "button"; AttrHasCI "aria-label" "Send"];
    Compound [Tag "button"; AttrHas "data-testid" "send"];
    Compound [AttrIs "role" "button"] ].

Fixpoint scan (p : Page) (sels : list Selector)
  : option (list (Selector * list Elem)) :=
  match sels with
  | [] => Some []
  | sel :: rest =>
      match querySelectorAll p sel with
      | None => None
      | Some found =>
          match scan p rest with
          | None => None
          | Some l =>
              Some (match found with
                    | [] => l
                    | _ :: _ => (sel, found) :: l
                    end)
          end
      end
  end.

Definition dump (t : Target) (sels : list Selector) : M unit :=
  p <- get_page ;;
  match scan p sels with
  | None => throw (lit "SyntaxError")
  | Some found => emit (Scan t found)
  end.

Definition dumpInputCandidates : M unit := dump InputTarget input_debug_selectors.

Definition dumpButtonCandidates : M unit := dump SendTarget button_debug_selectors.

(** ** The locators *)

Definition input_selectors : list Selector :=
  [ Compound [AttrIs "contenteditable" "true"; Attr "data-placeholder"];
    Compound [Tag "div"; AttrIs "contenteditable" "true"; Class "ProseMirror"];
    Compound [Tag "div"; Class "ProseMirror"; AttrIs "contenteditable" "true"];
    Compound [AttrIs "data-testid" "composer-input"];
    Compound [AttrIs "contenteditable" "true"] ].

Definition send_selectors : list Selector :=
  [ Compound [Tag "button"; AttrIs "aria-label" "Send message"];
    Compound [Tag "button"; AttrIs "aria-label" "Send Message"];
    Compound [Tag "button"; AttrIs "data-testid" "send-button"];
    Compound [Tag "button"; Has "svg" "data-icon" "arrow-up"];
    Descendant [Tag "form"] [Tag "button"; AttrIs "type" "submit"];
    Compound [Tag "button"; AttrIs "type" "submit"] ].

Definition drop_selectors : list Selector :=
  [ Compound [AttrIs "data-drop-target" "true"];
    Compound [AttrIs "data-testid" "drop-zone"];
    Compound [Class "drop-zone"];
    Compound [Tag "form"];
    Compound [Tag "main"] ].

Definition file_input_selector : Selector :=
  Compound [Tag "input"; AttrIs "type" "file"].

(** The [for] loop of [getInputField]; no [try] guards the query. *)
Fixpoint getInputField_from (sels : list Selector) : M (option Elem) :=
  match sels with
  | [] =>
      debug_line "ERROR: Could not find input field with any selector" ;;
      dumpInputCandidates ;;
      ret None
  | sel :: rest =>
      p <- get_page ;;
      match querySelector p sel with
      | QFound el => ret (Some el)
      | QNull => getInputField_from rest
      | QThrows => throw (lit "SyntaxError")
      end
  end.

Definition getInputField : M (option Elem) :=
  getInputField_from input_selectors.

(** The [for] loop of [getSendButton]: a query that throws is skipped,
    and so is a match that is disabled. *)
Fixpoint getSendButton_from (sels : list Selector) : M (option Elem) :=
  match sels with
  | [] =>
      debug_line "WARNING: Send button not found or disabled" ;;
      dumpButtonCandidates ;;
      ret None
  | sel :: rest =>
      p <- get_page ;;
      match querySelector p sel with
      | QFound el =>
          if negb (disabled p el) then ret (Some el)
          else getSendButton_from rest
      | QNull => getSendButton_from rest
      | QThrows => debug_line "Selector failed" ;; getSendButton_from rest
      end
  end.

Definition getSendButton : M (option Elem) :=
  getSendButton_from send_selectors.

(** The [for] loop of [getDropZone]: the fallback is [document.body]. *)
Fixpoint getDropZone_from (sels : list Selector) : M Elem :=
  match sels with
  | [] =>
      debug_line "WARNING: No specific drop zone found, using document.body" ;;
      p <- get_page ;;
      ret (body p)
  | sel :: rest =>
      p <- get_page ;;
      match querySelector p sel with
      | QFound el => ret el
      | QNull => getDropZone_from rest
      | QThrows => throw (lit "SyntaxError")
      end
  end.

Definition getDropZone : M Elem := getDropZone_from drop_selectors.

(** [getFileInput]: the first file input that is not disabled, else
    [inputs[0] || null]. *)
Definition getFileInput : M (option Elem) :=
  p <- get_page ;;
  match querySelectorAll p file_input_selector with
  | None => throw (lit "SyntaxError")
  | Some inputs =>
      match find (fun input => negb (disabled p input)) inputs with
      | Some input => ret (Some input)
      | None => ret (hd_error inputs)
      end
  end.


(** ** What a locator is meant to do

    The reading of the locator contract, next to which the four locators
    are set: go through the selectors in order, skip a query that throws
    or finds nothing or finds an element that is not [usable], and give
    the first usable element. *)
Fixpoint locate (p : Page) (usable : Elem -> bool) (sels : list Selector)
  : option Elem :=
  match sels with
  | [] => None
  | sel :: rest =>
      match querySelector p sel with
      | QFound el => if usable el then Some el else locate p usable rest
      | _ => locate p usable rest
      end
  end.

(** The diagnostic enumeration over a debug selector set. *)
Definition enumerate (p : Page) (sels : list Selector)
  : list (Selector * list Elem) :=
  filter (fun e => negb (Nat.eqb (List.length (snd e)) 0))
         (map (fun sel => (sel, matches p sel)) sels).

Definition is_scan (op : Op) : bool :=
  match op with
  | Scan _ _ => true
  | _ => false
  end.

Definition plain (sels : list Selector) : bool :=
  forallb (fun sel => negb (uses_has sel)) sels.

(** ** Text injection *)

Definition newline : jsstring := [10%N].

(** The content the contract asks for: the text on a new line after what
    is there, or the text alone in an empty field. *)
Definition injected (existing t : jsstring) : jsstring :=
  match existing with
  | [] => t
  | _ :: _ => existing ++ newline ++ t
  end.

Definition injectText (text : jsval) : M unit :=
  emit (Enter injectText_fn) ;;
  match text with
  | None => throw (lit "TypeError")      (* [text.slice] on [undefined] *)
  | Some t =>
      input <- getInputField ;;
      match input with
      | None => throw (lit "Input field not found")
      | Some el =>
          emit (Focus el) ;;
          p <- get_page ;;
          let existingText := textContent p el in
          let newText :=
            match existingText with
            | [] => t
            | _ :: _ => existingText ++ newline ++ t
            end in
          modify_page (set_textContent el newText) ;;
          emit (SetTextContent el newText) ;;
          emit (CaretToEnd el) ;;
          emit (DispatchEvent el (InputEvent_insertText t)) ;;
          emit (DispatchEvent el Event_input) ;;
          emit (DispatchEvent el Event_change) ;;
          emit (DispatchEvent el (KeyboardEvent_keydown "a")) ;;
          emit (DispatchEvent el (KeyboardEvent_keyup "a"))
      end
  end.

(** ** File attachment *)

Definition attachFile (base64Data : jsstring) (filename mimeType : jsval)
  : M unit :=
  emit (Enter attachFile_fn) ;;
  match atob base64Data with
  | None => throw (lit "InvalidCharacterError")
  | Some bytes =>
      let file := new_File bytes filename mimeType in
      (* Method 1: drag-and-drop *)
      try_catch
        (dropZone <- getDropZone ;;
         emit (DispatchEvent dropZone (DragEvent_dragenter file)) ;;
         sleep 50 ;;
         emit (DispatchEvent dropZone (DragEvent_dragover file)) ;;
         sleep 50 ;;
         emit (DispatchEvent dropZone (DragEvent_drop file)))
        (fun _ => ret tt) ;;
      (* Method 2: hidden file input *)
      try_catch
        (fileInput <- getFileInput ;;
         match fileInput with
         | Some fi =>
             emit (SetFiles fi file) ;;
             emit (DispatchEvent fi Event_change) ;;
             emit (DispatchEvent fi Event_input)
         | None => ret tt
         end)
        (fun _ => ret tt) ;;
      sleep 200
  end.

Definition clickSend : M bool :=
  emit (Enter clickSend_fn) ;;
  button <- getSendButton ;;
  match button with
  | Some b => emit (Click b) ;; ret true
  | None => ret false
  end.

(** ** Attachment accumulation *)

Definition paperclip : jsstring := [55357%N; 56526%N].   (* U+1F4CE *)
Definition balloon : jsstring := [55357%N; 56492%N].     (* U+1F4AC *)

Definition number_to_str (n : nat) : jsstring :=
  lit (NilZero.string_of_uint (Nat.to_uint n)).

Definition accumulateAttachment
    (data : jsstring) (name mime sender_ : jsval) : M unit :=
  emit (Enter accumulateAttachment_fn) ;;
  (fun w =>
     Done (with_pending
             (pendingAttachments w ++
                [{| base64Data := data; filename := name; mimeType := mime;
                    pending_sender := sender_ |}]) w) [] tt) ;;
  (fun w =>
     showToast (paperclip ++ lit " Queued: " ++ to_str name ++ lit " from "
                  ++ to_str sender_ ++ lit " ("
                  ++ number_to_str (List.length (pendingAttachments w))
                  ++ lit " pending)") info w).

(** The [for] loop of [flushAttachments].  It reads the collection again
    on every turn, so its length is no bound on the number of turns; the
    loop is cut after [fuel] turns. *)
Fixpoint flush_from (fuel i : nat) : M unit :=
  match fuel with
  | O => ret tt
  | S fuel' =>
      fun w =>
        match nth_error (pendingAttachments w) i with
        | None => Done w [] tt
        | Some att =>
            (attachFile (base64Data att) (filename att) (mimeType att) ;;
             sleep 200 ;;
             flush_from fuel' (S i)) w
        end
  end.

Definition flushAttachments (fuel : nat) : M nat :=
  emit (Enter flushAttachments_fn) ;;
  (fun w =>
     match pendingAttachments w with
     | [] => Done w [] 0
     | _ :: _ =>
         (flush_from fuel 0 ;;
          (fun w' =>
             Done (with_pending [] w') []
                  (List.length (pendingAttachments w')))) w
     end).

(** ** Processing one message *)

Definition is_file_type (ct : jsval) : bool :=
  is_lit ct "file" || is_lit ct "image" || is_lit ct "voice_audio".

Definition is_text_type (ct : jsval) : bool :=
  is_lit ct "text" || is_lit ct "voice_transcribed".

(** [CONFIG.attributionPrefix ? `[${sender}]: ${body}` : body]. *)
Definition attributed (sender_ body_ : jsval) : jsval :=
  if attributionPrefix cfg
  then Some (lit "[" ++ to_str sender_ ++ lit "]: " ++ to_str body_)
  else body_.

(** [showToast(`<balloon> ${sender}: ${body.slice(0, 50)}...`)]; the slice
    throws when [body] is [undefined]. *)
Definition toast_preview (sender_ body_ : jsval) : M unit :=
  match body_ with
  | None => throw (lit "TypeError")
  | Some b =>
      showToast (balloon ++ lit " " ++ to_str sender_ ++ lit ": "
                   ++ slice0 50 b ++ lit "...") info
  end.

Definition processMessage (message : Message) : M unit :=
  if truthy (file_data message) && is_file_type (content_type message) then
    attachFile (to_str (file_data message)) (file_name message)
               (mime_type message) ;;
    showToast (paperclip ++ lit " " ++ to_str (sender message)
                 ++ lit " attached: " ++ to_str (file_name message)) info ;;
    if truthy (caption message) then
      injectText (attributed (sender message) (caption message)) ;;
      toast_preview (sender message) (caption message) ;;
      if autoSend cfg then
        sleep (attachmentDelay cfg) ;;
        _ <- clickSend ;;
        ret tt
      else ret tt
    else ret tt
  else if is_text_type (content_type message) then
    injectText (attributed (sender message) (text message)) ;;
    toast_preview (sender message) (text message) ;;
    if autoSend cfg then
      sleep (messageDelay cfg) ;;
      _ <- clickSend ;;
      ret tt
    else ret tt
  else ret tt.


(** ** The queue and its worker

    [processQueue] is an [async] function whose loop may run for as long
    as messages keep arriving, so it is kept as a task that the event
    loop resumes: a task is suspended either inside
    [await processMessage(message)] or inside [await sleep(300)]. *)

Inductive WState :=
| InTry (k : World -> Async unit)     (* inside [await processMessage] *)
| InPause.                            (* inside [await sleep(300)]     *)

(** A running invocation of [processQueue], with the arrival number of
    the message it has taken from the queue. *)
Record Worker := {
  current : nat;
  wstate : WState
}.

(** What the event loop records. *)
Inductive Event :=
| Ignored (m : Message)              (* [handleMessage] returned early *)
| Enqueued (id : nat) (m : Message)  (* [messageQueue.push]            *)
| Dequeued (id : nat) (m : Message)  (* [messageQueue.shift]           *)
| Did (id : nat) (op : Op)           (* done on behalf of message [id] *)
| Logged (op : Op).                  (* done outside any worker        *)

(** Run the [try] block up to its next timer; when it ends, by return or
    by exception, go on to [await sleep(300)]. *)
Definition settle (r : Async unit) : World * list Op * WState :=
  match r with
  | Asleep w o _ k => (w, o, InTry k)
  | Done w o _ => (w, o ++ [Sleep 300], InPause)
  | Thrown w o e =>
      (w, o ++ toast_ops (lit "Error: " ++ e) error ++ [Sleep 300], InPause)
  end.

(** The head of the [while] loop. *)
Definition loop_head (w : World) : World * list Event * option Worker :=
  match messageQueue w with
  | [] => (with_processing false w, [], None)
  | (id, message) :: q =>
      let '(w', o, st) := settle (processMessage message (with_queue q w)) in
      (w', Dequeued id message :: map (Did id) o,
       Some {| current := id; wstate := st |})
  end.

(** A timer of the worker fires. *)
Definition resume (wk : Worker) (w : World)
  : World * list Event * option Worker :=
  match wstate wk with
  | InTry k =>
      let '(w', o, st) := settle (k w) in
      (w', map (Did (current wk)) o,
       Some {| current := current wk; wstate := st |})
  | InPause => loop_head w
  end.

(** The content script as the event loop sees it: the script state, the
    suspended invocations of [processQueue], what has happened so far and
    the number of messages accepted. *)
Record Sys := {
  world : World;
  workers : list Worker;
  history : list Event;
  arrivals : nat
}.

Definition option_list {A} (o : option A) : list A :=
  match o with
  | Some a => [a]
  | None => []
  end.

Definition processQueue (s : Sys) : Sys :=
  if isProcessing (world s) ||
     Nat.eqb (List.length (messageQueue (world s))) 0
  then s
  else
    let '(w', ev, o) := loop_head (with_processing true (world s)) in
    {| world := w'; workers := workers s ++ option_list o;
       history := history s ++ ev; arrivals := arrivals s |}.

Definition handleMessage (message : Message) (s : Sys) : Sys :=
  if negb (is_lit (type message) "message") then
    {| world := world s; workers := workers s;
       history := history s
                  ++ map Logged (debug_ops "Ignoring non-message")
                  ++ [Ignored message];
       arrivals := arrivals s |}
  else
    let id := arrivals s in
    processQueue
      {| world := with_queue (messageQueue (world s) ++ [(id, message)])
                             (world s);
         workers := workers s;
         history := history s ++ [Enqueued id message];
         arrivals := S id |}.

(** What can happen between two turns of the event loop: a message
    arrives, a timer of some suspended worker fires, or the host page
    changes its own document.  Timers may fire at any moment and in any
    order: the model allows every interleaving the clock allows, and
    more. *)
Inductive Input :=
| Arrive (m : Message)
| Timer (i : nat)
| PageChange (f : Page -> Page).

Definition fire (i : nat) (s : Sys) : Sys :=
  match nth_error (workers s) i with
  | None => s
  | Some wk =>
      let '(w', ev, o) := resume wk (world s) in
      {| world := w';
         workers := firstn i (workers s) ++ option_list o
                    ++ skipn (S i) (workers s);
         history := history s ++ ev; arrivals := arrivals s |}
  end.

Definition step (s : Sys) (i : Input) : Sys :=
  match i with
  | Arrive m => handleMessage m s
  | Timer n => fire n s
  | PageChange f =>
      {| world := with_page (f (page (world s))) (world s);
         workers := workers s; history := history s;
         arrivals := arrivals s |}
  end.

Definition run (s : Sys) (inputs : list Input) : Sys :=
  fold_left step inputs s.

(** The script right after it has loaded on page [p]. *)
Definition boot (p : Page) : Sys :=
  {| world := {| page := p; messageQueue := []; isProcessing := false;
                 pendingAttachments := [] |};
     workers := []; history := []; arrivals := 0 |}.

(** ** Reading a history *)

Definition ops_of (h : list Event) : list Op :=
  flat_map (fun e => match e with Did _ op => [op] | _ => [] end) h.

Definition owners (h : list Event) : list nat :=
  flat_map (fun e => match e with Did id _ => [id] | _ => [] end) h.

Definition dequeued (h : list Event) : list (nat * Message) :=
  flat_map (fun e => match e with Dequeued id m => [(id, m)] | _ => [] end) h.

Definition enqueued (h : list Event) : list (nat * Message) :=
  flat_map (fun e => match e with Enqueued id m => [(id, m)] | _ => [] end) h.

(** The operations done on behalf of message [id]. *)
Definition ops_for (id : nat) (h : list Event) : list Op :=
  flat_map (fun e => match e with
                     | Did i op => if Nat.eqb i id then [op] else []
                     | _ => []
                     end) h.

(** Entries into the named functions of the script. *)
Definition calls (ops : list Op) : list Fn :=
  flat_map (fun op => match op with Enter f => [f] | _ => [] end) ops.

(** The messages the ingestion guard lets through. *)
Definition admitted_by (i : Input) : list Message :=
  match i with
  | Arrive m => if is_lit (type m) "message" then [m] else []
  | _ => []
  end.

Definition accepted (inputs : list Input) : list Message :=
  flat_map admitted_by inputs.

(** Every operation in the history belongs to the message dequeued last
    before it. *)
Fixpoint serial (cur : option nat) (h : list Event) : bool :=
  match h with
  | [] => true
  | Dequeued id _ :: h' => serial (Some id) h'
  | Did id _ :: h' =>
      match cur with
      | Some c => Nat.eqb c id && serial cur h'
      | None => false
      end
  | _ :: h' => serial cur h'
  end.

End WithConfig.

(** ** Running one computation to its end

    [finish] resumes every timer on the world as the computation left
    it: nothing else touches the page meanwhile. *)
Inductive Result (A : Type) :=
| Returned (a : A)
| Raised (e : jsstring).

Arguments Raised {A} e.

Fixpoint finish {A} (r : Async A) : World * list Op * Result A :=
  match r with
  | Done w o a => (w, o, Returned a)
  | Thrown w o e => (w, o, Raised e)
  | Asleep w o _ k =>
      let '(w', o', res) := finish (k w) in (w', o ++ o', res)
  end.

(** [runs r d res]: some run of [r], each timer resumed on an arbitrary
    world, performs [d] and ends with [res]. *)
Inductive runs {A} : Async A -> list Op -> World * Result A -> Prop :=
| runs_done w o a : runs (Done w o a) o (w, Returned a)
| runs_thrown w o e : runs (Thrown w o e) o (w, Raised e)
| runs_asleep w o ms k w' d res :
    runs (k w') d res -> runs (Asleep w o ms k) (o ++ d) res.

(** ** Footprints

    Which operations a part of the script can perform, and which globals
    it leaves alone. *)

Definition locator_op (op : Op) : bool :=
  match op with
  | ConsoleDebug _ | Scan _ _ => true
  | _ => false
  end.

Definition toast_op (op : Op) : bool :=
  match op with
  | Toast _ _ => true
  | _ => false
  end.

Definition inject_op (op : Op) : bool :=
  match op with
  | Enter injectText_fn | Focus _ | SetTextContent _ _ | CaretToEnd _
  | DispatchEvent _ _ => true
  | _ => locator_op op
  end.

Definition attach_op (op : Op) : bool :=
  match op with
  | Enter attachFile_fn | DispatchEvent _ _ | SetFiles _ _ | Sleep _ => true
  | _ => locator_op op
  end.

Definition send_op (op : Op) : bool :=
  match op with
  | Enter clickSend_fn | Click _ => true
  | _ => false
  end.

Definition click_op (op : Op) : bool := send_op op || locator_op op.

Definition no_send (op : Op) : bool := negb (send_op op).

Definition no_enter (op : Op) : bool :=
  match op with
  | Enter _ => false
  | _ => true
  end.

(** The reading of "the pending attachments are flushed before the
    send": an entry into [flushAttachments] comes before the entry into
    [clickSend]. *)
Definition flushes_before_send (ops : list Op) : Prop :=
  exists pre mid post,
    ops = pre ++ [Enter flushAttachments_fn] ++ mid
              ++ [Enter clickSend_fn] ++ post.

Definition accumulator_op (op : Op) : bool :=
  match op with
  | Enter accumulateAttachment_fn | Enter flushAttachments_fn => true
  | _ => false
  end.

(** Everything but the accumulator. *)
Definition pipeline_op (op : Op) : bool := negb (accumulator_op op).

Definition quiet_op (op : Op) : bool := attach_op op || toast_op op.

Definition same_globals (w0 w : World) : Prop :=
  messageQueue w = messageQueue w0 /\
  isProcessing w = isProcessing w0 /\
  pendingAttachments w = pendingAttachments w0.

(** [Safe P w0 r]: started on [w0], the computation performs operations
    of [P] only and leaves the queue, the processing flag and the pending
    attachments as it finds them, at its start and at every timer,
    whatever the world it is resumed on. *)
Inductive Safe (P : Op -> bool) {A} : World -> Async A -> Prop :=
| Safe_done w0 w o a :
    same_globals w0 w -> forallb P o = true -> Safe P w0 (Done w o a)
| Safe_thrown w0 w o e :
    same_globals w0 w -> forallb P o = true -> Safe P w0 (Thrown w o e)
| Safe_asleep w0 w o ms k :
    same_globals w0 w -> forallb P o = true ->
    (forall w', Safe P w' (k w')) -> Safe P w0 (Asleep w o ms k).

Definition MSafe (P : Op -> bool) {A} (m : M A) : Prop :=
  forall w, Safe P w (m w).

(** ** Invariant of the event loop *)

(** The message dequeued last. *)
Fixpoint cur_after (cur : option nat) (h : list Event) : option nat :=
  match h with
  | [] => cur
  | Dequeued id _ :: h' => cur_after (Some id) h'
  | _ :: h' => cur_after cur h'
  end.

Definition worker_ok (wk : Worker) : Prop :=
  match wstate wk with
  | InTry k => forall w, Safe pipeline_op w (k w)
  | InPause => True
  end.

Record Inv (s : Sys) : Prop := {
  inv_flight :
    match workers s with
    | [] => isProcessing (world s) = false /\ messageQueue (world s) = []
    | [wk] =>
        isProcessing (world s) = true /\ worker_ok wk /\
        cur_after None (history s) = Some (current wk)
    | _ => False
    end;
  inv_pending : pendingAttachments (world s) = [];
  inv_fifo :
    dequeued (history s) ++ messageQueue (world s) = enqueued (history s);
  inv_serial : serial None (history s) = true;
  inv_ops : forallb pipeline_op (ops_of (history s)) = true
}.

End Content.

(* ================================================================== *)
(** * The speech engine of the content script ([TTS]) *)
(* ================================================================== *)

Module TTS.

Import Content.

(** ** Language table *)

Record Lang := {
  name : string;
  pattern : N -> bool;       (* the character class of the regex *)
  langPrefix : string;
  isDefault : bool
}.

Definition between (lo hi c : N) : bool := (lo <=? c)%N && (c <=? hi)%N.

Definition one_of (l : list N) (c : N) : bool := existsb (N.eqb c) l.

Definition TTS_LANGUAGES : list Lang :=
  [ {| name := "German";
       pattern := one_of [0xe4; 0xf6; 0xfc; 0xdf; 0xc4; 0xd6; 0xdc; 0x1e9e]%N;
       langPrefix := "de"; isDefault := false |};
    {| name := "French";
       pattern := one_of [0xe0; 0xe2; 0xe6; 0xe7; 0xe9; 0xe8; 0xea; 0xeb;
                          0xee; 0xef; 0xf4; 0xf9; 0xfb; 0xfc; 0x153;
                          0xc0; 0xc2; 0xc6; 0xc7; 0xc9; 0xc8; 0xca; 0xcb;
                          0xce; 0xcf; 0xd4; 0xd9; 0xdb; 0xdc; 0x152;
                          0xab; 0xbb]%N;
       langPrefix := "fr"; isDefault := false |};
    {| name := "Chinese"; pattern := between 0x4E00 0x9FFF;
       langPrefix := "zh"; isDefault := false |};
    {| name := "Japanese";
       pattern := fun c => between 0x3040 0x309F c || between 0x30A0 0x30FF c;
       langPrefix := "ja"; isDefault := false |};
    {| name := "Korean"; pattern := between 0xAC00 0xD7AF;
       langPrefix := "ko"; isDefault := false |};
    {| name := "Arabic"; pattern := between 0x0600 0x06FF;
       langPrefix := "ar"; isDefault := false |};
    {| name := "Russian"; pattern := between 0x0400 0x04FF;
       langPrefix := "ru"; isDefault := false |};
    {| name := "English";
       pattern := fun c => between 97 122 c || between 65 90 c;
       langPrefix := "en"; isDefault := true |} ].

(** An entry of [counts]: the language with [count] added. *)
Record Counted := {
  lang : Lang;
  count : nat
}.

(** [(text.match(lang.pattern) || []).length]: every match of a global
    character-class regex is one code unit. *)
Definition count_matches (l : Lang) (text : jsstring) : nat :=
  List.length (filter (pattern l) text).

Definition counts_of (langs : list Lang) (text : jsstring) : list Counted :=
  map (fun l => {| lang := l; count := count_matches l text |}) langs.

Definition non_default (l : Counted) : bool := negb (isDefault (lang l)).

(** [(a, b) => a.count > b.count ? a : b]. *)
Definition pick_larger (a b : Counted) : Counted :=
  if count b <? count a then a else b.

(** The language [pickVoiceForText] settles on ([detected]); [None] is
    the [undefined] that an empty table would give. *)
Definition detect (langs : list Lang) (text : jsstring) : option Counted :=
  let counts := counts_of langs text in
  let nonDefault :=
    filter (fun l => negb (isDefault (lang l)) && (0 <? count l)) counts in
  let defaultLang := find (fun l => isDefault (lang l)) counts in
  match nonDefault with
  | a :: rest =>
      let topNonDefault := fold_left pick_larger rest a in
      match defaultLang with
      | None => Some topNonDefault
      | Some d =>
          if count d <? count topNonDefault then Some topNonDefault
          else Some d
      end
  | [] =>
      match defaultLang with
      | Some d => Some d
      | None => hd_error counts
      end
  end.

Record Voice := {
  voice_name : jsstring;
  voice_lang : jsstring
}.

(** [voiceList.find(v => v.name.toLowerCase().includes('google'))
     || voiceList[0]]. *)
Definition preferGoogle (voiceList : list Voice) : option Voice :=
  match find (fun v => includes (toLowerCase (voice_name v)) (lit "google"))
             voiceList with
  | Some v => Some v
  | None => hd_error voiceList
  end.

Definition voices_for (voices : list Voice) (prefix : string) : list Voice :=
  filter (fun v => startsWith (voice_lang v) (lit prefix)) voices.

(** [pickVoiceForText(text)]; the outer [None] is a [TypeError] (reading
    a property of [undefined]), the inner one is [null]. *)
Definition pickVoiceForText
    (langs : list Lang) (voices : list Voice) (text : jsstring)
  : option (option Voice) :=
  match voices with
  | [] => Some None
  | _ :: _ =>
      match detect langs text with
      | None => None
      | Some detected =>
          match voices_for voices (langPrefix (lang detected)) with
          | (_ :: _) as matchingVoices => Some (preferGoogle matchingVoices)
          | [] =>
              match voices_for voices "en" with
              | (_ :: _) as enVoices => Some (preferGoogle enVoices)
              | [] => Some (hd_error voices)
              end
          end
      end
  end.

(** ** What the engine reads from the page *)

Record Style := {
  height : string;
  opacity : string
}.

(** A [.font-claude-response-body] element under the element being read,
    with the inline styles of its ancestors below that element. *)
Record BodyEl := {
  body_innerText : jsstring;
  body_textContent : jsstring;
  ancestors : list Style
}.

Record ResponseEl := {
  innerText : jsstring;
  markdownBlocks : list BodyEl;  (* :scope > div > .standard-markdown ... *)
  allBodies : list BodyEl        (* .font-claude-response-body            *)
}.

Record StreamingEl := {
  container : Elem;                  (* identity of the streaming element *)
  progressive : option ResponseEl    (* its [.progressive-markdown]       *)
}.

Record Doc := {
  streaming : option StreamingEl;   (* [data-is-streaming="true"]          *)
  completed : list ResponseEl;      (* finished [.font-claude-response]s   *)
  responses : list ResponseEl       (* every [.font-claude-response]       *)
}.

(** ** Whitespace *)

(** The class [\s], which is also what [trim] removes. *)
Definition is_space (c : N) : bool :=
  between 9 13 c || (c =? 32)%N || (c =? 0xa0)%N || (c =? 0x1680)%N
  || between 0x2000 0x200a c || (c =? 0x2028)%N || (c =? 0x2029)%N
  || (c =? 0x202f)%N || (c =? 0x205f)%N || (c =? 0x3000)%N
  || (c =? 0xfeff)%N.

(** [s.replace(/\s+/g, ' ')]. *)
Fixpoint collapse (in_run : bool) (s : jsstring) : jsstring :=
  match s with
  | [] => []
  | c :: s' =>
      if is_space c
      then if in_run then collapse true s' else 32%N :: collapse true s'
      else c :: collapse false s'
  end.

Fixpoint trim_start (s : jsstring) : jsstring :=
  match s with
  | c :: s' => if is_space c then trim_start s' else s
  | [] => []
  end.

Definition trim (s : jsstring) : jsstring :=
  rev (trim_start (rev (trim_start s))).

(** [el.innerText || el.textContent]. *)
Definition body_text (b : BodyEl) : jsstring :=
  match body_innerText b with
  | [] => body_textContent b
  | t => t
  end.

(** The ancestor walk of the fallback branch. *)
Definition visible (b : BodyEl) : bool :=
  forallb (fun st => negb (String.eqb (height st) "0px"
                           || String.eqb (opacity st) "0"))
          (ancestors b).

(** The text [processResponseElement] extracts from [element]. *)
Definition response_text (element : ResponseEl) : jsstring :=
  let text :=
    match markdownBlocks element with
    | (_ :: _) as blocks => join (lit " ") (map body_text blocks)
    | [] => join (lit " ") (map body_text (filter visible (allBodies element)))
    end in
  trim (collapse false text).

(** ** Engine state *)

Record State := {
  enabled : bool;
  speaking : bool;
  lastSpokenLength : nat;
  pendingText : jsstring;
  speakTimeout : bool;                   (* is the debounce timer armed? *)
  lastStreamingElement : option Elem;
  unlocked : bool;
  utterances : list jsstring             (* handed to [speechSynthesis]  *)
}.

(** The object literal, after [startObserving]. *)
Definition initial : State :=
  {| enabled := false; speaking := false; lastSpokenLength := 0;
     pendingText := []; speakTimeout := false;
     lastStreamingElement := None; unlocked := false; utterances := [] |}.

Definition processResponseElement (element : ResponseEl) (s : State) : State :=
  let text := response_text element in
  if lastSpokenLength s <? List.length text then
    let newText := slice_from (lastSpokenLength s) text in
    {| enabled := enabled s; speaking := speaking s;
       lastSpokenLength := List.length text;
       pendingText := pendingText s ++ newText;
       speakTimeout := true;
       lastStreamingElement := lastStreamingElement s;
       unlocked := unlocked s; utterances := utterances s |}
  else s.

(** The reset on a streaming element that is not the tracked one. *)
Definition new_stream (e : Elem) (s : State) : State :=
  {| enabled := enabled s; speaking := speaking s;
     lastSpokenLength := 0; pendingText := []; speakTimeout := false;
     lastStreamingElement := Some e;
     unlocked := unlocked s; utterances := utterances s |}.

Definition same_elem (tracked : option Elem) (e : Elem) : bool :=
  match tracked with
  | Some t => Nat.eqb t e
  | None => false
  end.

Definition clear_stream (s : State) : State :=
  {| enabled := enabled s; speaking := speaking s;
     lastSpokenLength := lastSpokenLength s; pendingText := pendingText s;
     speakTimeout := speakTimeout s; lastStreamingElement := None;
     unlocked := unlocked s; utterances := utterances s |}.

(** The callback of the mutation observer. *)
Definition observe (doc : Doc) (s : State) : State :=
  if negb (enabled s) then s
  else
    match streaming doc with
    | Some st =>
        let s1 := if same_elem (lastStreamingElement s) (container st)
                  then s else new_stream (container st) s in
        match progressive st with
        | Some p => processResponseElement p s1
        | None => s1
        end
    | None =>
        let s1 := clear_stream s in
        match last (map Some (completed doc)) None with
        | Some latest =>
            if lastSpokenLength s1 <? List.length (innerText latest)
            then processResponseElement latest s1
            else s1
        | None => s1
        end
    end.

(** [speak(text)]; the voice does not enter the claims and is left to
    [pickVoiceForText]. *)
Definition speak (text : jsstring) (s : State) : State :=
  match trim text with
  | [] => s
  | _ :: _ =>
      if unlocked s then
        {| enabled := enabled s; speaking := speaking s;
           lastSpokenLength := lastSpokenLength s;
           pendingText := pendingText s; speakTimeout := speakTimeout s;
           lastStreamingElement := lastStreamingElement s;
           unlocked := unlocked s; utterances := utterances s ++ [text] |}
      else s
  end.

(** The debounce timer fires. *)
Definition debounce_fired (s : State) : State :=
  match trim (pendingText s) with
  | [] => s
  | _ :: _ =>
      let s1 := speak (pendingText s) s in
      {| enabled := enabled s1; speaking := speaking s1;
         lastSpokenLength := lastSpokenLength s1; pendingText := [];
         speakTimeout := speakTimeout s1;
         lastStreamingElement := lastStreamingElement s1;
         unlocked := unlocked s1; utterances := utterances s1 |}
  end.

(** [toggle()]. *)
Definition toggle (doc : Doc) (s : State) : State :=
  let on := negb (enabled s) in
  if negb on then
    {| enabled := false; speaking := false;
       lastSpokenLength := lastSpokenLength s; pendingText := [];
       speakTimeout := speakTimeout s;
       lastStreamingElement := lastStreamingElement s;
       unlocked := true; utterances := utterances s |}
  else
    let '(len, tracked) :=
      match streaming doc with
      | Some st =>
          match progressive st with
          | Some p => (List.length (innerText p), Some (container st))
          | None => (lastSpokenLength s, lastStreamingElement s)
          end
      | None =>
          match last (map Some (responses doc)) None with
          | Some latest =>
              (List.length (innerText latest), lastStreamingElement s)
          | None => (lastSpokenLength s, lastStreamingElement s)
          end
      end in
    {| enabled := true; speaking := speaking s;
       lastSpokenLength := len; pendingText := [];
       speakTimeout := speakTimeout s; lastStreamingElement := tracked;
       unlocked := true;
       utterances := utterances s ++ [lit "Voice enabled"] |}.

(** [stop()] and [reset()], the latter run on [popstate]. *)
Definition stop (s : State) : State :=
  {| enabled := enabled s; speaking := false; lastSpokenLength := 0;
     pendingText := pendingText s; speakTimeout := speakTimeout s;
     lastStreamingElement := lastStreamingElement s;
     unlocked := unlocked s; utterances := utterances s |}.

Definition reset (s : State) : State :=
  let s1 := stop s in
  {| enabled := enabled s1; speaking := speaking s1; lastSpokenLength := 0;
     pendingText := pendingText s1; speakTimeout := speakTimeout s1;
     lastStreamingElement := lastStreamingElement s1;
     unlocked := unlocked s1; utterances := utterances s1 |}.

(** The [voice] console command with an argument:
    [TTS.enabled = !!args[0]]. *)
Definition set_enabled (b : bool) (s : State) : State :=
  {| enabled := b; speaking := speaking s;
     lastSpokenLength := lastSpokenLength s; pendingText := pendingText s;
     speakTimeout := speakTimeout s;
     lastStreamingElement := lastStreamingElement s;
     unlocked := unlocked s; utterances := utterances s |}.

(** ** Vocabulary for the statements about the cursor *)

(** The observer callback run on [doc] meets a streaming element that is
    not the tracked one. *)
Definition detects_new_stream (doc : Doc) (s : State) : bool :=
  enabled s &&
  match streaming doc with
  | Some st => negb (same_elem (lastStreamingElement s) (container st))
  | None => false
  end.

(** The length of the text that is on screen when speech is switched on:
    the streaming block if there is one, else the latest response; the
    cursor itself when the page shows neither. *)
Definition marked_length (doc : Doc) (s : State) : nat :=
  match streaming doc with
  | Some st =>
      match progressive st with
      | Some p => List.length (innerText p)
      | None => lastSpokenLength s
      end
  | None =>
      match last (map Some (responses doc)) None with
      | Some latest => List.length (innerText latest)
      | None => lastSpokenLength s
      end
  end.

(** The length of the response text of a streaming element. *)
Definition stream_length (doc : Doc) : nat :=
  match streaming doc with
  | Some st =>
      match progressive st with
      | Some p => List.length (response_text p)
      | None => 0
      end
  | None => 0
  end.

(** A run of observer callbacks. *)
Definition observe_all (docs : list Doc) (s : State) : State :=
  fold_left (fun st doc => observe doc st) docs s.

(** Every document of the run shows the streaming element [e]. *)
Definition streams (e : Elem) (doc : Doc) : Prop :=
  exists st, streaming doc = Some st /\ container st = e.

End TTS.

(* ================================================================== *)
(** * Pages and messages used as concrete inputs *)
(* ================================================================== *)

Module Examples.

Import Content.

(** A page with nothing the locators look for (a login page, say). *)
Definition blank_page : Page :=
  {| matches := fun _ => []; supports_has := true; body := 0;
     disabled := fun _ => false; textContent := fun _ => [] |}.

(** A chat page: a composer (1), a submit button (2), a [main] region
    (3) and a hidden file input (4). *)
Definition chat_page : Page :=
  {| matches := fun sel =>
       match sel with
       | Compound [AttrIs "contenteditable" "true"] => [1]
       | Compound [Tag "button"; AttrIs "type" "submit"] => [2]
       | Compound [Tag "main"] => [3]
       | Compound [Tag "input"; AttrIs "type" "file"] => [4]
       | _ => []
       end;
     supports_has := true; body := 0; disabled := fun _ => false;
     textContent := fun _ => [] |}.

(** The chat page with a draft already in the composer. *)
Definition draft_page : Page := set_textContent 1 (lit "draft") chat_page.

Definition message_of (ct : string) (tx cap data : jsval) : Message :=
  {| type := Some (lit "message"); sender := Some (lit "Ana");
     content_type := Some (lit ct); text := tx; caption := cap;
     file_data := data; file_name := Some (lit "a.png");
     mime_type := Some (lit "image/png") |}.

(** A captionless image, a captioned image, a text, and a message of a
    content type the script does not know. *)
Definition image_message : Message :=
  message_of "image" None None (Some (lit "aGk=")).


Definition text_message : Message :=
  message_of "text" (Some (lit "hello")) None None.

Definition sticker_message : Message :=
  message_of "sticker" (Some (lit "hello")) None (Some (lit "aGk=")).

Definition world_of (p : Page) : World := world (boot p).

End Examples.

(* ================================================================== *)
(** * The relay as a bridge (extension/background.js, second half) *)
(* ================================================================== *)

Module Bridge.

(** A message object: its [type], its [ts] and the rest of it, which the
    relay never looks at. *)
Record Packet := {
  ptype : jsval;
  pts : option Z;
  pbody : jsstring
}.

(** [event.data]: text that [JSON.parse] rejects, or a message. *)
Inductive Incoming :=
| Unparsable
| Parsed (m : Packet).

(** What the handlers below write to the socket. *)
Inductive Out :=
| OutPong (ts : option Z)            (* [{type: 'pong', ts: message.ts}] *)
| OutJson (m : Packet).              (* [JSON.stringify(message)]        *)

(** What is posted on a port to the content script. *)
Inductive PortPost :=
| PostMessage (m : Packet)
| PostStatus (connected : bool).

(** The socket state of [Relay], the global [contentScriptPort], and what
    has gone out: the [postMessage] calls that returned, the
    [chrome.tabs.sendMessage] calls, and the frames written to the
    socket. *)
Record State := {
  relay : Relay.State;
  contentScriptPort : option nat;
  posted : list (nat * PortPost);
  tab_sent : list (nat * Packet);
  wire : list Out
}.

Definition initial : State :=
  {| relay := Relay.initial; contentScriptPort := None; posted := [];
     tab_sent := []; wire := [] |}.

(** [ws && ws.readyState === WebSocket.OPEN]. *)
Definition is_open (s : State) : bool :=
  match Relay.ws (relay s) with
  | Some Relay.OPEN => true
  | _ => false
  end.

(** [handleServerMessage(message)].  [port_ok] tells whether
    [postMessage] returns (it throws on a port that has gone away);
    [tabs] is what [chrome.tabs.query] finds for the host page. *)
Definition handleServerMessage
    (port_ok : bool) (tabs : list nat) (m : Packet) (s : State) : State :=
  match contentScriptPort s with
  | Some port =>
      if port_ok then
        {| relay := relay s; contentScriptPort := contentScriptPort s;
           posted := posted s ++ [(port, PostMessage m)];
           tab_sent := tab_sent s; wire := wire s |}
      else
        {| relay := relay s; contentScriptPort := None; posted := posted s;
           tab_sent := tab_sent s; wire := wire s |}
  | None =>
      match tabs with
      | tab :: _ =>
          {| relay := relay s; contentScriptPort := None; posted := posted s;
             tab_sent := tab_sent s ++ [(tab, m)]; wire := wire s |}
      | [] => s
      end
  end.

(** [ws.onmessage].  The whole body sits in one [try]: a frame that does
    not parse is dropped, and so is a [ping] that arrives while the global
    socket cannot send ([null] or still connecting: [ws.send] throws;
    closing or closed: the data is discarded). *)
Definition onmessage
    (port_ok : bool) (tabs : list nat) (i : Incoming) (s : State) : State :=
  match i with
  | Unparsable => s
  | Parsed m =>
      if Content.is_lit (ptype m) "ping" then
        if is_open s then
          {| relay := relay s; contentScriptPort := contentScriptPort s;
             posted := posted s; tab_sent := tab_sent s;
             wire := wire s ++ [OutPong (pts m)] |}
        else s
      else handleServerMessage port_ok tabs m s
  end.

(** [chrome.runtime.onConnect]. *)
Definition onConnect (name : jsstring) (port : nat) (s : State) : State :=
  if jsstring_eqb name (lit "claude-bridge") then
    {| relay := relay s; contentScriptPort := Some port;
       posted := posted s ++ [(port, PostStatus (is_open s))];
       tab_sent := tab_sent s; wire := wire s |}
  else s.

(** [port.onMessage] of a bridge port. *)
Definition port_onMessage (m : Packet) (s : State) : State :=
  if is_open s then
    {| relay := relay s; contentScriptPort := contentScriptPort s;
       posted := posted s; tab_sent := tab_sent s;
       wire := wire s ++ [OutJson m] |}
  else s.

(** [port.onDisconnect] of a bridge port: the global is cleared, whichever
    port it holds. *)
Definition port_onDisconnect (s : State) : State :=
  {| relay := relay s; contentScriptPort := None; posted := posted s;
     tab_sent := tab_sent s; wire := wire s |}.

(** What happens to the socket: the handlers and entry points of
    [Relay]. *)
Inductive SocketEvent :=
| Connect (ctor_ok : bool)      (* [connect()], from a timer or the alarm *)
| Opened                        (* [ws.onopen]                            *)
| Errored                       (* [ws.onerror]                           *)
| Closed                        (* [ws.onclose]                           *)
| Reconnect (ctor_ok : bool).   (* [reconnect()]                          *)

Definition socket_step (cfg : Relay.Config) (s : Relay.State)
    (e : SocketEvent) : Relay.State :=
  match e with
  | Connect ok => Relay.connect cfg ok s
  | Opened => Relay.onopen s
  | Errored => Relay.onerror s
  | Closed => Relay.onclose cfg s
  | Reconnect ok => Relay.reconnect cfg ok s
  end.

Definition socket_run (cfg : Relay.Config) (s : Relay.State)
    (es : list SocketEvent) : Relay.State :=
  fold_left (socket_step cfg) es s.

(** A delay between [min(base, max)] and the ceiling. *)
Definition within_ceiling (cfg : Relay.Config) (d : Z) : Prop :=
  (Z.min (Relay.reconnectDelay cfg) (Relay.maxReconnectDelay cfg) <= d
   <= Relay.maxReconnectDelay cfg)%Z.

Definition backoff_ok (cfg : Relay.Config) (s : Relay.State) : Prop :=
  (0 <= Relay.reconnectAttempts s)%Z /\
  Forall (within_ceiling cfg) (Relay.timers s).

(** Everything the service worker reacts to. *)
Inductive Event :=
| Frame (port_ok : bool) (tabs : list nat) (i : Incoming)
| PortConnect (name : jsstring) (port : nat)
| PortMessage (m : Packet)
| PortDisconnect
| Socket (e : SocketEvent).

Definition step (cfg : Relay.Config) (s : State) (e : Event) : State :=
  match e with
  | Frame ok tabs i => onmessage ok tabs i s
  | PortConnect name port => onConnect name port s
  | PortMessage m => port_onMessage m s
  | PortDisconnect => port_onDisconnect s
  | Socket e' =>
      {| relay := socket_step cfg (relay s) e';
         contentScriptPort := contentScriptPort s; posted := posted s;
         tab_sent := tab_sent s; wire := wire s |}
  end.

Definition run (cfg : Relay.Config) (s : State) (es : list Event) : State :=
  fold_left (step cfg) es s.

Definition is_ping (m : Packet) : bool := Content.is_lit (ptype m) "ping".





End Bridge.

(* ================================================================== *)
(** * Vocabulary for further properties *)
(* ================================================================== *)

Module More.

Import Content.

(** [n] timer firings in a row, nothing else happening. *)
Definition ticks (n : nat) : list Input := repeat (Timer 0) n.

(** What the [catch] of the worker does: it reports, on the console and
    by a toast. *)
Definition report_op (op : Op) : bool :=
  match op with
  | Toast _ _ | ConsoleDebug _ => true
  | _ => false
  end.

(** [processed cfg m d]: [d] is one whole turn of the worker's loop for
    [m]: a run of [processMessage] to its end, by return or by exception,
    then the report of the error if it threw, then the pause of 300 ms. *)
Definition processed (cfg : Config) (m : Message) (d : list Op) : Prop :=
  exists w0 d0 w' (res : Result unit) t,
    runs (processMessage cfg m w0) d0 (w', res) /\
    d = d0 ++ t ++ [Sleep 300] /\
    forallb report_op t = true /\
    (forall a, res = Returned a -> t = []).

(** The operations the history records for a dequeued message are such a
    turn. *)
Definition processed_in (cfg : Config) (h : list Event) (im : nat * Message)
  : Prop :=
  processed cfg (snd im) (ops_for (fst im) h).

(** [in_progress cfg m d k]: the worker is inside [processMessage] for
    [m], has done [d] and waits at a timer with [k] left to run. *)
Definition in_progress (cfg : Config) (m : Message) (d : list Op)
    (k : World -> Async unit) : Prop :=
  exists w0, forall w d' res,
      runs (k w) d' res -> runs (processMessage cfg m w0) (d ++ d') res.

(** What the history says about the messages taken from the queue: all
    but the one in flight have had their whole turn, and the one in
    flight is where its worker is. *)
Record Completion (cfg : Config) (s : Sys) : Prop := {
  comp_ids : map fst (enqueued (history s)) = seq 0 (arrivals s);
  comp_work :
    match workers s with
    | [] => Forall (processed_in cfg (history s)) (dequeued (history s))
    | [wk] =>
        exists pre m,
          dequeued (history s) = pre ++ [(current wk, m)] /\
          Forall (processed_in cfg (history s)) pre /\
          match wstate wk with
          | InTry k =>
              in_progress cfg m (ops_for (current wk) (history s)) k
          | InPause => processed cfg m (ops_for (current wk) (history s))
          end
    | _ => False
    end
}.

(** The files dropped on the page, in order. *)
Definition dropped (ops : list Op) : list File :=
  flat_map (fun op => match op with
                      | DispatchEvent _ (DragEvent_drop f) => [f]
                      | _ => []
                      end) ops.

Definition clicked (ops : list Op) : list Elem :=
  flat_map (fun op => match op with Click e => [e] | _ => [] end) ops.

(** The element [getDropZone] settles on: the first match along
    [drop_selectors], else [document.body]. *)
Definition drop_target (p : Page) : Elem :=
  match locate p (fun _ => true) drop_selectors with
  | Some el => el
  | None => body p
  end.

(** The file object [attachFile] builds from a pending attachment. *)
Definition file_of (a : Pending) : option File :=
  match atob (base64Data a) with
  | Some bytes => Some (new_File bytes (filename a) (mimeType a))
  | None => None
  end.

Definition decodable (a : Pending) : bool :=
  match file_of a with Some _ => true | None => false end.

(** The files of the attachments before the first one whose payload is
    not base64. *)
Fixpoint files_until_failure (l : list Pending) : list File :=
  match l with
  | [] => []
  | a :: rest =>
      match file_of a with
      | Some f => f :: files_until_failure rest
      | None => []
      end
  end.

(** The events of the speech engine. *)
Inductive SpeechEvent :=
| Mutation (doc : TTS.Doc)            (* the observer callback          *)
| DebounceFired                       (* the 800 ms timer               *)
| Toggle (doc : TTS.Doc)              (* Ctrl+Shift+V, or [voice()]     *)
| Voice (on : bool)                   (* [voice(true)], [voice(false)]  *)
| Popstate.                           (* navigation                     *)

Definition speech_step (s : TTS.State) (e : SpeechEvent) : TTS.State :=
  match e with
  | Mutation doc => TTS.observe doc s
  | DebounceFired => TTS.debounce_fired s
  | Toggle doc => TTS.toggle doc s
  | Voice on => TTS.set_enabled on s
  | Popstate => TTS.reset s
  end.

Definition speech_run (s : TTS.State) (es : list SpeechEvent) : TTS.State :=
  fold_left speech_step es s.

Definition is_toggle (e : SpeechEvent) : bool :=
  match e with
  | Toggle _ => true
  | _ => false
  end.

(** No two whitespace units in a row. *)
Fixpoint single_spaced (s : jsstring) : bool :=
  match s with
  | a :: ((b :: _) as rest) =>
      negb (TTS.is_space a && TTS.is_space b) && single_spaced rest
  | _ => true
  end.

Definition starts_with_space (s : jsstring) : bool :=
  match s with
  | c :: _ => TTS.is_space c
  | [] => false
  end.

(** The text the engine reads from [doc] while the element [e] is
    streaming and has its [.progressive-markdown] block. *)
Definition streamed (e : Elem) (doc : TTS.Doc) : option jsstring :=
  match TTS.streaming doc with
  | Some st =>
      if Nat.eqb (TTS.container st) e then
        match TTS.progressive st with
        | Some p => Some (TTS.response_text p)
        | None => None
        end
      else None
  | None => None
  end.

(** One streaming turn of the element [e]: timer firings, and mutations
    in which the text of the block only grows at its end.  The result is
    the text after the last event; [None] when the events are not such a
    turn. *)
Fixpoint turn_text (e : Elem) (t : jsstring) (es : list SpeechEvent)
  : option jsstring :=
  match es with
  | [] => Some t
  | DebounceFired :: es' => turn_text e t es'
  | Mutation doc :: es' =>
      match streamed e doc with
      | Some t' => if startsWith t' t then turn_text e t' es' else None
      | None => None
      end
  | _ => None
  end.

(** [v.lang.startsWith(prefix)]. *)
Definition speaks (prefix : string) (v : TTS.Voice) : bool :=
  startsWith (TTS.voice_lang v) (lit prefix).

(** [v.name.toLowerCase().includes('google')]. *)
Definition google (v : TTS.Voice) : bool :=
  includes (toLowerCase (TTS.voice_name v)) (lit "google").

End More.

(* ================================================================== *)
(** * Properties of the relay *)
(* ================================================================== *)

Section RelayProperties.

Import Relay.

Variable cfg : Config.

Lemma failure_effect s s' :
  failure cfg s s' ->
  reconnectAttempts s' = (reconnectAttempts s + 1)%Z /\
  timers s' = timers s ++ [reconnect_delay cfg s].
Proof.
  intros H. destruct H as [s | s | s Hlive].
  - split; reflexivity.
  - split; reflexivity.
  - unfold connect. rewrite Hlive. split; reflexivity.
Qed.

Lemma backoff_S n :
  backoff cfg (S n) =
  backoff cfg n ++ [Z.min (reconnectDelay cfg * 2 ^ Z.of_nat n)
                          (maxReconnectDelay cfg)].
Proof.
  unfold backoff. rewrite seq_S, map_app. reflexivity.
Qed.

Lemma backoff_nth n k :
  (k < n)%nat ->
  nth_error (backoff cfg n) k =
  Some (Z.min (reconnectDelay cfg * 2 ^ Z.of_nat k) (maxReconnectDelay cfg)).
Proof.
  intros Hk. unfold backoff.
  rewrite nth_error_map, nth_error_nth' with (d := 0%nat)
    by (rewrite length_seq; lia).
  rewrite seq_nth by lia. reflexivity.
Qed.

Lemma failures_effect n s s' :
  failures cfg n s s' ->
  reconnectAttempts s' = (reconnectAttempts s + Z.of_nat n)%Z /\
  timers s' =
    timers s ++
    map (fun i => Z.min (reconnectDelay cfg
                         * 2 ^ (reconnectAttempts s + Z.of_nat i))
                        (maxReconnectDelay cfg)) (seq 0 n).
Proof.
  induction 1 as [s | n s s1 s2 Hn [IHa IHt] Hf].
  - split; [lia | simpl; now rewrite app_nil_r].
  - destruct (failure_effect Hf) as [Ha Ht]. split; [lia |].
    rewrite Ht, IHt, seq_S, map_app, <- app_assoc. simpl.
    unfold reconnect_delay. now rewrite IHa.
Qed.

(** C6, as amended.  Starting from a counter at zero (as a successful
    open leaves it), [n] failures in a row bring the counter to [n] and
    arm the timers [min(base * 2^k, max)] for [k = 0 .. n-1], one per
    failure: the failure number [k+1] waits [min(base * 2^k, max)].  The
    delay that one more failure would arm is [min(base * 2^n, max)], and
    a successful open puts the counter back to zero. *)
Theorem reconnect_backoff n s s' :
  reconnectAttempts s = 0%Z ->
  failures cfg n s s' ->
  reconnectAttempts s' = Z.of_nat n /\
  timers s' = timers s ++ backoff cfg n /\
  (forall k, (k < n)%nat ->
     nth_error (backoff cfg n) k =
     Some (Z.min (reconnectDelay cfg * 2 ^ Z.of_nat k)
                 (maxReconnectDelay cfg))) /\
  reconnect_delay cfg s' =
    Z.min (reconnectDelay cfg * 2 ^ Z.of_nat n) (maxReconnectDelay cfg) /\
  reconnectAttempts (onopen s') = 0%Z.
Proof.
  intros H0 Hf. destruct (failures_effect Hf) as [Ha Ht].
  rewrite H0 in Ha, Ht. simpl in Ha.
  repeat split.
  - exact Ha.
  - exact Ht.
  - intros k Hk. now apply backoff_nth.
  - unfold reconnect_delay. now rewrite Ha.
Qed.

End RelayProperties.

Lemma reconnect_backoff_witness :
  let s := Relay.onopen Relay.initial in
  let s' := Relay.onclose Relay.CONFIG (Relay.onclose Relay.CONFIG s) in
  Relay.reconnectAttempts s' = 2%Z /\
  Relay.timers s' = [3000; 6000]%Z /\
  Relay.reconnect_delay Relay.CONFIG s' = 12000%Z.
Proof.
  intros s s'.
  destruct (@reconnect_backoff Relay.CONFIG 2 s s') as (Ha & Ht & _ & Hd & _).
  - reflexivity.
  - eapply Relay.failures_S; [eapply Relay.failures_S; [apply Relay.failures_O |] |];
      apply Relay.fail_close.
  - split; [exact Ha | split; [exact Ht | exact Hd]].
Defined.

(** C6 as stated fails at [N = 1]: after one failure that follows a
    successful open, the reconnect that is scheduled waits the base delay
    (3000 ms), not [min(base * 2^1, max)] (6000 ms). *)
Lemma backoff_first_failure_waits_base :
  let s1 := Relay.onclose Relay.CONFIG (Relay.onopen Relay.initial) in
  Relay.failures Relay.CONFIG 1 (Relay.onopen Relay.initial) s1 /\
  Relay.scheduled_delay s1 = Some 3000%Z /\
  Relay.scheduled_delay s1 <>
    Some (Z.min (Relay.reconnectDelay Relay.CONFIG * 2 ^ 1)
                (Relay.maxReconnectDelay Relay.CONFIG)).
Proof.
  split; [| split].
  - eapply Relay.failures_S; [apply Relay.failures_O | apply Relay.fail_close].
  - reflexivity.
  - vm_compute. discriminate.
Qed.

(* ================================================================== *)
(** * Properties of the speech engine *)
(* ================================================================== *)

Section Detection.

Import TTS.

Variable langs : list Lang.
Variable text : jsstring.

Let cs := counts_of langs text.

Lemma fold_pick_larger rest a :
  In (fold_left pick_larger rest a) (a :: rest) /\
  forall x, In x (a :: rest) -> count x <= count (fold_left pick_larger rest a).
Proof.
  revert a. induction rest as [| b rest IH]; intros a; simpl.
  - split; [now left |]. intros x [<- | []]. lia.
  - destruct (IH (pick_larger a b)) as [Hin Hmax]. split.
    + destruct Hin as [Heq | Hin]; [| right; right; exact Hin].
      rewrite <- Heq. unfold pick_larger.
      destruct (count b <? count a); [now left | now right; left].
    + intros x Hx.
      assert (Hpl : count a <= count (pick_larger a b) /\
                    count b <= count (pick_larger a b)).
      { unfold pick_larger. destruct (count b <? count a) eqn:E.
        - apply Nat.ltb_lt in E. lia.
        - apply Nat.ltb_ge in E. lia. }
      destruct Hx as [<- | [<- | Hx]].
      * etransitivity; [apply Hpl | apply Hmax; now left].
      * etransitivity; [apply Hpl | apply Hmax; now left].
      * apply Hmax. now right.
Qed.

(** The general form of C5, for any table that has a default entry. *)
Lemma detect_with_default d :
  find (fun l => isDefault (lang l)) cs = Some d ->
  ((forall l, In l cs -> non_default l = true -> count l <= count d) ->
   detect langs text = Some d) /\
  (forall l, In l cs -> non_default l = true -> count d < count l ->
   exists t, detect langs text = Some t /\ In t cs /\
             non_default t = true /\ count d < count t /\
             forall x, In x cs -> non_default x = true ->
                       count x <= count t).
Proof.
  intros Hd. unfold detect. fold cs. rewrite Hd.
  set (P := fun l : Counted => negb (isDefault (lang l)) && (0 <? count l)).
  destruct (filter P cs) as [| a rest] eqn:Hnd.
  - split; [reflexivity |].
    intros l Hl Hn Hlt. exfalso.
    assert (Hin : In l (filter P cs)).
    { apply filter_In. split; [exact Hl |]. unfold P.
      unfold non_default in Hn. rewrite Hn. simpl.
      apply Nat.ltb_lt. lia. }
    rewrite Hnd in Hin. exact Hin.
  - destruct (fold_pick_larger rest a) as [Hin Hmax].
    set (top := fold_left pick_larger rest a) in *.
    rewrite <- Hnd in Hin, Hmax.
    apply filter_In in Hin. destruct Hin as [Htop HP].
    unfold P in HP. apply andb_true_iff in HP. destruct HP as [Hnt Hpos].
    split.
    + intros Hall. specialize (Hall top Htop Hnt).
      destruct (count d <? count top) eqn:E; [| reflexivity].
      apply Nat.ltb_lt in E. lia.
    + intros l Hl Hn Hlt.
      assert (Hl' : In l (filter P cs)).
      { apply filter_In. split; [exact Hl |]. unfold P.
        unfold non_default in Hn. rewrite Hn. simpl.
        apply Nat.ltb_lt. lia. }
      specialize (Hmax l Hl') as Hle.
      assert (E : (count d <? count top) = true) by (apply Nat.ltb_lt; lia).
      rewrite E. exists top. repeat split; try assumption; try lia.
      intros x Hx Hxn.
      destruct (count x) eqn:Ex; [lia |]. rewrite <- Ex.
      apply Hmax, filter_In. split; [exact Hx |]. unfold P.
      unfold non_default in Hxn. rewrite Hxn. simpl.
      apply Nat.ltb_lt. lia.
Qed.

End Detection.

(** C5.  For every text, the language [pickVoiceForText] detects over the
    configured table is the default (English) unless some other language
    counts strictly more matches than the default; then it is a
    non-default language whose count is the largest.  A tie with the
    default goes to the default. *)
Theorem language_detection (text : jsstring) :
  let cs := TTS.counts_of TTS.TTS_LANGUAGES text in
  exists d,
    find (fun l => TTS.isDefault (TTS.lang l)) cs = Some d /\
    TTS.name (TTS.lang d) = "English"%string /\
    ((forall l, In l cs -> TTS.non_default l = true ->
                TTS.count l <= TTS.count d) ->
     TTS.detect TTS.TTS_LANGUAGES text = Some d) /\
    (forall l, In l cs -> TTS.non_default l = true ->
               TTS.count d < TTS.count l ->
     exists t, TTS.detect TTS.TTS_LANGUAGES text = Some t /\ In t cs /\
               TTS.non_default t = true /\ TTS.count d < TTS.count t /\
               forall x, In x cs -> TTS.non_default x = true ->
                         TTS.count x <= TTS.count t).
Proof.
  intros cs.
  assert (Hd : exists d,
             find (fun l => TTS.isDefault (TTS.lang l)) cs = Some d /\
             TTS.name (TTS.lang d) = "English"%string).
  { eexists. split; reflexivity. }
  destruct Hd as (d & Hd & Hname). exists d.
  split; [exact Hd | split; [exact Hname |]].
  exact (detect_with_default TTS.TTS_LANGUAGES text Hd).
Qed.

(** Six Cyrillic letters against two Latin ones: Russian is detected. *)
Lemma language_detection_witness :
  let text := [0x43f; 0x440; 0x438; 0x432; 0x435; 0x442; 32; 104; 105]%N in
  exists t, TTS.detect TTS.TTS_LANGUAGES text = Some t /\
            TTS.non_default t = true /\ 2 < TTS.count t.
Proof.
  intros text.
  destruct (language_detection text) as (d & Hd & _ & _ & Hmore).
  vm_compute in Hd. injection Hd as <-.
  destruct (Hmore {| TTS.lang := nth 6 TTS.TTS_LANGUAGES
                                     (nth 0 TTS.TTS_LANGUAGES
                                          (TTS.Build_Lang "" (fun _ => false) "" false));
                     TTS.count := 6 |})
    as (t & Ht & _ & Hn & Hc & _).
  - vm_compute. do 6 right. left. reflexivity.
  - reflexivity.
  - vm_compute. lia.
  - exists t. split; [exact Ht | split; [exact Hn | exact Hc]].
Defined.

Section Cursor.

Import TTS.

Lemma processResponseElement_cursor el s :
  lastSpokenLength (processResponseElement el s) =
  Nat.max (lastSpokenLength s) (List.length (response_text el)).
Proof.
  unfold processResponseElement.
  destruct (lastSpokenLength s <? List.length (response_text el)) eqn:E.
  - apply Nat.ltb_lt in E. simpl. lia.
  - apply Nat.ltb_ge in E. lia.
Qed.

Lemma processResponseElement_keeps el s :
  enabled (processResponseElement el s) = enabled s /\
  lastStreamingElement (processResponseElement el s) = lastStreamingElement s.
Proof.
  unfold processResponseElement.
  destruct (lastSpokenLength s <? _); split; reflexivity.
Qed.

Lemma observe_same_stream doc s :
  detects_new_stream doc s = false ->
  lastSpokenLength s <= lastSpokenLength (observe doc s).
Proof.
  unfold detects_new_stream, observe. intros H.
  destruct (enabled s); simpl in *; [| lia].
  destruct (streaming doc) as [st |].
  - apply negb_false_iff in H. rewrite H.
    destruct (progressive st) as [p |]; [| lia].
    rewrite processResponseElement_cursor. lia.
  - destruct (last (map Some (completed doc)) None) as [latest |];
      simpl; [| lia].
    destruct (lastSpokenLength s <? _); simpl; [| lia].
    rewrite processResponseElement_cursor. simpl. lia.
Qed.

Lemma observe_new_stream doc s :
  detects_new_stream doc s = true ->
  lastSpokenLength (observe doc s) = stream_length doc.
Proof.
  unfold detects_new_stream, observe, stream_length. intros H.
  apply andb_true_iff in H. destruct H as [He H]. rewrite He. simpl.
  destruct (streaming doc) as [st |]; [| discriminate].
  apply negb_true_iff in H. rewrite H.
  destruct (progressive st) as [p |]; [| reflexivity].
  rewrite processResponseElement_cursor. simpl. reflexivity.
Qed.

Lemma observe_tracks e doc s :
  enabled s = true -> streams e doc ->
  enabled (observe doc s) = true /\
  lastStreamingElement (observe doc s) = Some e.
Proof.
  intros He (st & Hs & Hc). unfold observe. rewrite He, Hs. simpl.
  destruct (same_elem (lastStreamingElement s) (container st)) eqn:E.
  - assert (Ht : lastStreamingElement s = Some e).
    { unfold same_elem in E. destruct (lastStreamingElement s) as [t |];
        [| discriminate]. apply Nat.eqb_eq in E. congruence. }
    destruct (progressive st) as [p |]; [| now split].
    destruct (processResponseElement_keeps p s) as [H1 H2].
    rewrite H1, H2. now split.
  - destruct (progressive st) as [p |]; [| simpl; now rewrite Hc].
    destruct (processResponseElement_keeps p (new_stream (container st) s))
      as [H1 H2].
    rewrite H1, H2. simpl. now rewrite Hc.
Qed.

(** Within one streaming turn -- a run of observer callbacks that all see
    the tracked streaming element -- the cursor never decreases. *)
Lemma cursor_monotone_in_turn e docs s :
  enabled s = true -> lastStreamingElement s = Some e ->
  Forall (streams e) docs ->
  lastSpokenLength s <= lastSpokenLength (observe_all docs s).
Proof.
  intros He Ht Hall. revert s He Ht.
  induction Hall as [| doc docs Hdoc _ IH]; intros s He Ht; simpl; [lia |].
  destruct (observe_tracks s He Hdoc) as [He' Ht'].
  etransitivity; [| apply IH; assumption].
  apply observe_same_stream. unfold detects_new_stream.
  destruct Hdoc as (st & Hs & Hc). rewrite He, Hs, Ht, Hc. simpl.
  now rewrite Nat.eqb_refl.
Qed.

End Cursor.

(** C4, as amended.  An observer callback lowers the cursor only by the
    reset of a newly detected streaming element, after which the cursor
    counts the new stream from zero; every other callback leaves it where
    it was or advances it, so it never decreases within one streaming
    turn.  Switching speech on does not put the cursor at zero: it puts it
    at the length of the text that is on screen.  Switching speech off,
    the debounce timer and the [voice] command leave the cursor alone; the
    reset run on navigation ([popstate]) puts it at zero. *)
Theorem transcript_cursor (doc : TTS.Doc) (s : TTS.State) :
  (if TTS.detects_new_stream doc s
   then TTS.lastSpokenLength (TTS.observe doc s) = TTS.stream_length doc
   else TTS.lastSpokenLength s <= TTS.lastSpokenLength (TTS.observe doc s)) /\
  (forall e docs,
      TTS.enabled s = true -> TTS.lastStreamingElement s = Some e ->
      Forall (TTS.streams e) docs ->
      TTS.lastSpokenLength s <= TTS.lastSpokenLength (TTS.observe_all docs s)) /\
  (if TTS.enabled s
   then TTS.lastSpokenLength (TTS.toggle doc s) = TTS.lastSpokenLength s
   else TTS.lastSpokenLength (TTS.toggle doc s) = TTS.marked_length doc s) /\
  TTS.lastSpokenLength (TTS.debounce_fired s) = TTS.lastSpokenLength s /\
  (forall b, TTS.lastSpokenLength (TTS.set_enabled b s) = TTS.lastSpokenLength s) /\
  TTS.lastSpokenLength (TTS.reset s) = 0.
Proof.
  split; [| split; [| split; [| split; [| split]]]].
  - destruct (TTS.detects_new_stream doc s) eqn:E.
    + now apply observe_new_stream.
    + now apply observe_same_stream.
  - intros e docs. apply cursor_monotone_in_turn.
  - unfold TTS.toggle, TTS.marked_length.
    destruct (TTS.enabled s); simpl; [reflexivity |].
    destruct (TTS.streaming doc) as [st |].
    + destruct (TTS.progressive st); reflexivity.
    + destruct (last (map Some (TTS.responses doc)) None); reflexivity.
  - unfold TTS.debounce_fired, TTS.speak.
    destruct (TTS.trim (TTS.pendingText s)); [reflexivity |].
    destruct (TTS.unlocked s); reflexivity.
  - reflexivity.
  - reflexivity.
Qed.

(* ================================================================== *)
(** * Properties of the content script: locators and injection *)
(* ================================================================== *)

Section Computations.

Import Content.

Lemma prepend_nil A (r : Async A) : prepend [] r = r.
Proof. destruct r; reflexivity. Qed.

Lemma prepend_prepend A (a b : list Op) (r : Async A) :
  prepend a (prepend b r) = prepend (a ++ b) r.
Proof. destruct r; simpl; now rewrite app_assoc. Qed.

Lemma bind_get_page A (f : Page -> M A) w :
  bind get_page f w = f (page w) w.
Proof. unfold bind, get_page. simpl. apply prepend_nil. Qed.

Lemma bind_emit A op (f : unit -> M A) w :
  bind (emit op) f w = prepend [op] (f tt w).
Proof. reflexivity. Qed.

Lemma bind_ret A B (a : A) (f : A -> M B) w : bind (ret a) f w = f a w.
Proof. unfold bind, ret. simpl. apply prepend_nil. Qed.

End Computations.

Section Locators.

Import Content.

Variable cfg : Config.

Lemma bind_debug_line A line (f : unit -> M A) w :
  bind (debug_line cfg line) f w = prepend (debug_ops cfg line) (f tt w).
Proof. reflexivity. Qed.

Lemma querySelector_plain p sel :
  uses_has sel = false ->
  querySelector p sel =
  match matches p sel with
  | [] => QNull
  | e :: _ => QFound e
  end.
Proof.
  intros H. unfold querySelector, querySelectorAll. now rewrite H.
Qed.

Lemma scan_plain p sels :
  plain sels = true -> scan p sels = Some (enumerate p sels).
Proof.
  unfold plain, enumerate. induction sels as [| sel rest IH]; simpl.
  - reflexivity.
  - intros H. apply andb_true_iff in H. destruct H as [Hs Hr].
    apply negb_true_iff in Hs.
    unfold querySelectorAll. rewrite Hs. simpl. rewrite (IH Hr).
    destruct (matches p sel); reflexivity.
Qed.

Lemma dump_plain t sels w :
  plain sels = true ->
  dump t sels w = Done w [Scan t (enumerate (page w) sels)] tt.
Proof.
  intros H. unfold dump. rewrite bind_get_page, (scan_plain _ _ H).
  reflexivity.
Qed.

Lemma getInputField_from_spec sels w :
  plain sels = true ->
  getInputField_from cfg sels w =
  match locate (page w) (fun _ => true) sels with
  | Some el => Done w [] (Some el)
  | None =>
      Done w (debug_ops cfg "ERROR: Could not find input field with any selector"
              ++ [Scan InputTarget
                       (enumerate (page w) input_debug_selectors)])
           None
  end.
Proof.
  induction sels as [| sel rest IH]; intros H.
  - simpl. rewrite bind_debug_line. unfold bind, dumpInputCandidates.
    rewrite dump_plain by reflexivity. reflexivity.
  - simpl in H. apply andb_true_iff in H. destruct H as [Hs Hr].
    apply negb_true_iff in Hs.
    cbn [getInputField_from locate]. rewrite bind_get_page.
    rewrite (querySelector_plain _ _ Hs).
    destruct (matches (page w) sel); [exact (IH Hr) | reflexivity].
Qed.

Lemma getDropZone_from_spec sels w :
  plain sels = true ->
  getDropZone_from cfg sels w =
  match locate (page w) (fun _ => true) sels with
  | Some el => Done w [] el
  | None =>
      Done w (debug_ops cfg
                "WARNING: No specific drop zone found, using document.body")
           (body (page w))
  end.
Proof.
  induction sels as [| sel rest IH]; intros H.
  - simpl. rewrite bind_debug_line, bind_get_page. unfold ret. simpl.
    now rewrite app_nil_r.
  - simpl in H. apply andb_true_iff in H. destruct H as [Hs Hr].
    apply negb_true_iff in Hs.
    cbn [getDropZone_from locate]. rewrite bind_get_page.
    rewrite (querySelector_plain _ _ Hs).
    destruct (matches (page w) sel); [exact (IH Hr) | reflexivity].
Qed.

Lemma getSendButton_from_spec sels w :
  exists ops,
    getSendButton_from cfg sels w =
      Done w ops
           (locate (page w) (fun el => negb (disabled (page w) el)) sels) /\
    match locate (page w) (fun el => negb (disabled (page w) el)) sels with
    | Some _ => forallb (fun op => negb (is_scan op)) ops = true
    | None =>
        exists pre,
          ops = pre ++ [Scan SendTarget
                             (enumerate (page w) button_debug_selectors)]
    end.
Proof.
  induction sels as [| sel rest IH].
  - eexists. split.
    + simpl. rewrite bind_debug_line. unfold bind, dumpButtonCandidates.
      rewrite dump_plain by reflexivity. reflexivity.
    + simpl. eexists. reflexivity.
  - destruct IH as (ops & Hrun & Hops).
    cbn [getSendButton_from locate]. rewrite bind_get_page.
    destruct (querySelector (page w) sel) as [el | |].
    + destruct (negb (disabled (page w) el)).
      * exists []. split; reflexivity.
      * exists ops. split; assumption.
    + exists ops. split; assumption.
    + exists (debug_ops cfg "Selector failed" ++ ops). split.
      * rewrite bind_debug_line, Hrun. reflexivity.
      * destruct (locate _ _ rest).
        -- rewrite forallb_app, Hops, andb_true_r.
           unfold debug_ops. destruct (debug cfg); reflexivity.
        -- destruct Hops as (pre & ->). eexists.
           rewrite app_assoc. reflexivity.
Qed.

Lemma getFileInput_spec w :
  getFileInput w =
  Done w []
       (match find (fun input => negb (disabled (page w) input))
                   (matches (page w) file_input_selector) with
        | Some input => Some input
        | None => hd_error (matches (page w) file_input_selector)
        end).
Proof.
  unfold getFileInput. rewrite bind_get_page.
  unfold querySelectorAll. simpl.
  destruct (find _ _); reflexivity.
Qed.

End Locators.

(** C8, as amended.  The text input and the send control are located as
    the contract says: the first element matched along the ordered
    selector list (for the send control, the first match that is not
    disabled, a query that throws being skipped), and [null] with a
    diagnostic enumeration when nothing qualifies.  The drop target is
    located the same way but falls back to [document.body]: it is never
    [null] and enumerates nothing.  The hidden file input is the first file
    input that is not disabled, else the first file input, else [null], and
    enumerates nothing. *)
Theorem locators_first_match (cfg : Content.Config) (w : Content.World) :
  let p := Content.page w in
  let enabled := fun el => negb (Content.disabled p el) in
  Content.getInputField cfg w =
    match Content.locate p (fun _ => true) Content.input_selectors with
    | Some el => Content.Done w [] (Some el)
    | None =>
        Content.Done w
          (Content.debug_ops cfg
             "ERROR: Could not find input field with any selector"
           ++ [Content.Scan Content.InputTarget
                 (Content.enumerate p Content.input_debug_selectors)])
          None
    end /\
  (exists ops,
      Content.getSendButton cfg w =
        Content.Done w ops (Content.locate p enabled Content.send_selectors) /\
      match Content.locate p enabled Content.send_selectors with
      | Some _ => forallb (fun op => negb (Content.is_scan op)) ops = true
      | None =>
          exists pre,
            ops = pre ++ [Content.Scan Content.SendTarget
                            (Content.enumerate p Content.button_debug_selectors)]
      end) /\
  Content.getDropZone cfg w =
    match Content.locate p (fun _ => true) Content.drop_selectors with
    | Some el => Content.Done w [] el
    | None =>
        Content.Done w
          (Content.debug_ops cfg
             "WARNING: No specific drop zone found, using document.body")
          (Content.body p)
    end /\
  Content.getFileInput w =
    Content.Done w []
      (match find enabled
                  (Content.matches p Content.file_input_selector) with
       | Some input => Some input
       | None => hd_error (Content.matches p Content.file_input_selector)
       end).
Proof.
  intros p enabled. split; [| split; [| split]].
  - apply getInputField_from_spec. reflexivity.
  - apply getSendButton_from_spec.
  - apply getDropZone_from_spec. reflexivity.
  - apply getFileInput_spec.
Qed.

(** C8 as stated fails for the drop target and the file input: on a page
    where no drop selector matches, [getDropZone] gives [document.body],
    not [null], and neither it nor [getFileInput] enumerates anything. *)
Lemma drop_zone_falls_back_to_body :
  let w := Examples.world_of Examples.blank_page in
  Content.locate (Content.page w) (fun _ => true) Content.drop_selectors = None /\
  Content.getDropZone Content.CONFIG w =
    Content.Done w
      [Content.ConsoleDebug
         "WARNING: No specific drop zone found, using document.body"]
      (Content.body Examples.blank_page) /\
  Content.getFileInput w = Content.Done w [] None.
Proof.
  repeat split.
Qed.

Section Injection.

Import Content.

Variable cfg : Config.

Lemma injectText_found w t el :
  locate (page w) (fun _ => true) input_selectors = Some el ->
  injectText cfg (Some t) w =
  Done (with_page
          (set_textContent el (injected (textContent (page w) el) t) (page w))
          w)
       [ Enter injectText_fn;
         Focus el;
         SetTextContent el (injected (textContent (page w) el) t);
         CaretToEnd el;
         DispatchEvent el (InputEvent_insertText t);
         DispatchEvent el Event_input;
         DispatchEvent el Event_change;
         DispatchEvent el (KeyboardEvent_keydown "a");
         DispatchEvent el (KeyboardEvent_keyup "a") ]
       tt.
Proof.
  intros Hloc.
  assert (Hget : getInputField cfg w = Done w [] (Some el)).
  { unfold getInputField. rewrite getInputField_from_spec by reflexivity.
    now rewrite Hloc. }
  unfold injectText. rewrite bind_emit. unfold bind at 1. rewrite Hget.
  reflexivity.
Qed.

Lemma injectText_not_found w t :
  locate (page w) (fun _ => true) input_selectors = None ->
  exists ops,
    injectText cfg (Some t) w = Thrown w ops (lit "Input field not found").
Proof.
  intros Hloc.
  assert (Hget : getInputField cfg w =
                 Done w (debug_ops cfg
                           "ERROR: Could not find input field with any selector"
                         ++ [Scan InputTarget
                               (enumerate (page w) input_debug_selectors)])
                      None).
  { unfold getInputField. rewrite getInputField_from_spec by reflexivity.
    now rewrite Hloc. }
  unfold injectText. rewrite bind_emit. unfold bind at 1. rewrite Hget.
  eexists. reflexivity.
Qed.

End Injection.

(** C9.  When the locator finds the input field, [injectText(t)] leaves
    in it the old content, a newline and [t] -- or [t] alone when the field
    was empty -- and it does so by focusing the field, setting its content,
    moving the caret to the end and then dispatching the [input] events,
    the [change] event and the two keyboard events, in this order. *)
Theorem injectText_contract
    (cfg : Content.Config) (w : Content.World) (t : jsstring)
    (el : Content.Elem) :
  Content.locate (Content.page w) (fun _ => true) Content.input_selectors
    = Some el ->
  let E := Content.textContent (Content.page w) el in
  exists w' content,
    Content.injectText cfg (Some t) w =
      Content.Done w'
        [ Content.Enter Content.injectText_fn;
          Content.Focus el;
          Content.SetTextContent el content;
          Content.CaretToEnd el;
          Content.DispatchEvent el (Content.InputEvent_insertText t);
          Content.DispatchEvent el Content.Event_input;
          Content.DispatchEvent el Content.Event_change;
          Content.DispatchEvent el (Content.KeyboardEvent_keydown "a");
          Content.DispatchEvent el (Content.KeyboardEvent_keyup "a") ]
        tt /\
    Content.textContent (Content.page w') el = content /\
    (E = [] -> content = t) /\
    (E <> [] -> content = E ++ Content.newline ++ t).
Proof.
  intros Hloc E.
  exists (Content.with_page
            (Content.set_textContent el (Content.injected E t) (Content.page w))
            w),
         (Content.injected E t).
  split; [| split; [| split]].
  - now apply injectText_found.
  - simpl. now rewrite Nat.eqb_refl.
  - intros ->. reflexivity.
  - intros HE. unfold Content.injected. destruct E; [congruence | reflexivity].
Qed.

(** On the chat page with a draft in the composer, injecting "hi" leaves
    the draft, a newline and "hi". *)
Lemma injectText_contract_witness :
  exists w',
    fst (fst (Content.finish
                (Content.injectText Content.CONFIG (Some (lit "hi"))
                   (Examples.world_of Examples.draft_page)))) = w' /\
    Content.textContent (Content.page w') 1 = lit "draft" ++ [10%N] ++ lit "hi".
Proof.
  destruct (@injectText_contract Content.CONFIG
              (Examples.world_of Examples.draft_page) (lit "hi") 1)
    as (w' & content & Hrun & Htext & _ & Hne).
  - reflexivity.
  - exists w'. split.
    + rewrite Hrun. reflexivity.
    + rewrite Htext. apply Hne. discriminate.
Defined.

(* ================================================================== *)
(** * Footprints of the content script *)
(* ================================================================== *)

Section FootprintRules.

Import Content.

Lemma same_globals_refl w : same_globals w w.
Proof. repeat split. Qed.

Lemma same_globals_trans w0 w1 w2 :
  same_globals w0 w1 -> same_globals w1 w2 -> same_globals w0 w2.
Proof.
  intros (A1 & B1 & C1) (A2 & B2 & C2). repeat split; congruence.
Qed.

Lemma Safe_rebase P A w0 w1 (r : Async A) :
  same_globals w0 w1 -> Safe P w1 r -> Safe P w0 r.
Proof.
  intros H01 Hr.
  destruct Hr; constructor; eauto using same_globals_trans.
Qed.

Lemma Safe_prepend P A o w0 (r : Async A) :
  forallb P o = true -> Safe P w0 r -> Safe P w0 (prepend o r).
Proof.
  intros Ho Hr.
  destruct Hr; simpl; constructor; auto;
    rewrite forallb_app, Ho; assumption.
Qed.

Lemma Safe_weaken (P Q : Op -> bool) A w0 (r : Async A) :
  (forall op, P op = true -> Q op = true) ->
  Safe P w0 r -> Safe Q w0 r.
Proof.
  intros HPQ Hr.
  assert (HF : forall o, forallb P o = true -> forallb Q o = true).
  { intros o Ho. rewrite forallb_forall in *. auto. }
  induction Hr; constructor; auto.
Qed.

Lemma Safe_bindA P A B w0 (r : Async A) (f : A -> M B) :
  Safe P w0 r -> (forall a, MSafe P (f a)) -> Safe P w0 (bindA r f).
Proof.
  intros Hr Hf. induction Hr as [w0 w o a Hg Ho | w0 w o e Hg Ho
                                | w0 w o ms k Hg Ho Hk IH]; simpl.
  - apply Safe_prepend; [exact Ho |].
    apply Safe_rebase with (w1 := w); [exact Hg | apply Hf].
  - now constructor.
  - constructor; auto.
Qed.

Lemma Safe_catchA P A w0 (r : Async A) (h : jsstring -> M A) :
  Safe P w0 r -> (forall e, MSafe P (h e)) -> Safe P w0 (catchA r h).
Proof.
  intros Hr Hh. induction Hr as [w0 w o a Hg Ho | w0 w o e Hg Ho
                                | w0 w o ms k Hg Ho Hk IH]; simpl.
  - now constructor.
  - apply Safe_prepend; [exact Ho |].
    apply Safe_rebase with (w1 := w); [exact Hg | apply Hh].
  - constructor; auto.
Qed.

Lemma MSafe_weaken (P Q : Op -> bool) A (m : M A) :
  (forall op, P op = true -> Q op = true) -> MSafe P m -> MSafe Q m.
Proof. intros HPQ Hm w. eapply Safe_weaken; eauto. Qed.

Lemma MSafe_bind P A B (m : M A) (f : A -> M B) :
  MSafe P m -> (forall a, MSafe P (f a)) -> MSafe P (bind m f).
Proof. intros Hm Hf w. apply Safe_bindA; auto. Qed.

Lemma MSafe_try_catch P A (m : M A) (h : jsstring -> M A) :
  MSafe P m -> (forall e, MSafe P (h e)) -> MSafe P (try_catch m h).
Proof. intros Hm Hh w. apply Safe_catchA; auto. Qed.

Lemma MSafe_ret P A (a : A) : MSafe P (ret a).
Proof. intros w. constructor; [apply same_globals_refl | reflexivity]. Qed.

Lemma MSafe_throw P A e : MSafe P (@throw A e).
Proof. intros w. constructor; [apply same_globals_refl | reflexivity]. Qed.

Lemma MSafe_emit (P : Op -> bool) op : P op = true -> MSafe P (emit op).
Proof.
  intros H w. constructor; [apply same_globals_refl |].
  simpl. now rewrite H.
Qed.

Lemma MSafe_sleep (P : Op -> bool) ms :
  P (Sleep ms) = true -> MSafe P (sleep ms).
Proof.
  intros H w. constructor; [apply same_globals_refl | simpl; now rewrite H |].
  intros w'. constructor; [apply same_globals_refl | reflexivity].
Qed.

Lemma MSafe_get_page P : MSafe P get_page.
Proof. intros w. constructor; [apply same_globals_refl | reflexivity]. Qed.

Lemma MSafe_modify_page P f : MSafe P (modify_page f).
Proof. intros w. constructor; [repeat split | reflexivity]. Qed.

Lemma MSafe_showToast cfg (P : Op -> bool) msg kind :
  P (Toast msg kind) = true -> MSafe P (showToast cfg msg kind).
Proof.
  intros H w. constructor; [apply same_globals_refl |].
  unfold toast_ops. destruct (showNotifications cfg); simpl;
    [now rewrite H | reflexivity].
Qed.

Lemma MSafe_debug_line cfg (P : Op -> bool) line :
  P (ConsoleDebug line) = true -> MSafe P (debug_line cfg line).
Proof.
  intros H w. constructor; [apply same_globals_refl |].
  unfold debug_ops. destruct (debug cfg); simpl;
    [now rewrite H | reflexivity].
Qed.

End FootprintRules.

(** Footprint goals for straight-line code are closed rule by rule. *)
Ltac msafe :=
  repeat
    match goal with
    | |- Content.MSafe _ (Content.bind _ _) =>
        apply MSafe_bind; [| intros ?]
    | |- Content.MSafe _ (Content.try_catch _ _) =>
        apply MSafe_try_catch; [| intros ?]
    | |- Content.MSafe _ (Content.ret _) => apply MSafe_ret
    | |- Content.MSafe _ (Content.throw _) => apply MSafe_throw
    | |- Content.MSafe _ (Content.emit _) => apply MSafe_emit; reflexivity
    | |- Content.MSafe _ (Content.sleep _) => apply MSafe_sleep; reflexivity
    | |- Content.MSafe _ Content.get_page => apply MSafe_get_page
    | |- Content.MSafe _ (Content.modify_page _) => apply MSafe_modify_page
    | |- Content.MSafe _ (Content.showToast _ _ _) =>
        apply MSafe_showToast; reflexivity
    | |- Content.MSafe _ (Content.debug_line _ _) =>
        apply MSafe_debug_line; reflexivity
    | |- Content.MSafe _ (match ?x with _ => _ end) => destruct x
    end.

(** An inclusion of footprints is decided constructor by constructor. *)
Ltac by_cases_on_op :=
  let op := fresh "op" in
  let f := fresh "f" in
  intros op; destruct op as [f | | | | | | | | | |]; try destruct f;
  simpl; intros; try discriminate; reflexivity.

(** One footprint inside another. *)
Ltac within lemma :=
  eapply MSafe_weaken; [| apply lemma]; by_cases_on_op.

Section Footprints.

Import Content.

Variable cfg : Config.

Lemma dump_safe t sels : MSafe locator_op (dump t sels).
Proof. unfold dump. msafe. Qed.

Lemma getInputField_safe : MSafe locator_op (getInputField cfg).
Proof.
  unfold getInputField. induction input_selectors as [| sel rest IH];
    simpl; msafe; try apply dump_safe; exact IH.
Qed.

Lemma getSendButton_safe : MSafe locator_op (getSendButton cfg).
Proof.
  unfold getSendButton. induction send_selectors as [| sel rest IH];
    simpl; msafe; try apply dump_safe; exact IH.
Qed.

Lemma getDropZone_safe : MSafe locator_op (getDropZone cfg).
Proof.
  unfold getDropZone. induction drop_selectors as [| sel rest IH];
    simpl; msafe; exact IH.
Qed.

Lemma getFileInput_safe : MSafe locator_op getFileInput.
Proof. unfold getFileInput. msafe. Qed.

Lemma injectText_safe text : MSafe inject_op (injectText cfg text).
Proof.
  unfold injectText. msafe.
  eapply MSafe_weaken; [| apply getInputField_safe]. by_cases_on_op.
Qed.

Lemma attachFile_safe data name mime :
  MSafe attach_op (attachFile cfg data name mime).
Proof.
  unfold attachFile. msafe.
  - eapply MSafe_weaken; [| apply getDropZone_safe]. by_cases_on_op.
  - eapply MSafe_weaken; [| apply getFileInput_safe]. by_cases_on_op.
Qed.

Lemma clickSend_safe : MSafe click_op (clickSend cfg).
Proof.
  unfold clickSend. msafe.
  eapply MSafe_weaken; [| apply getSendButton_safe]. by_cases_on_op.
Qed.

Lemma toast_preview_safe sender_ body_ :
  MSafe toast_op (toast_preview cfg sender_ body_).
Proof. unfold toast_preview. msafe. Qed.

(** Nothing in the processing of a message enters the accumulator or
    touches the queue, the flag or the pending attachments. *)
Lemma processMessage_safe m : MSafe pipeline_op (processMessage cfg m).
Proof.
  unfold processMessage.
  destruct (truthy (file_data m) && is_file_type (content_type m));
    [| destruct (is_text_type (content_type m))].
  - apply MSafe_bind;
      [eapply MSafe_weaken; [| apply attachFile_safe]; by_cases_on_op |].
    intros _. apply MSafe_bind; [msafe |]. intros _.
    destruct (truthy (caption m)); [| apply MSafe_ret].
    apply MSafe_bind;
      [eapply MSafe_weaken; [| apply injectText_safe]; by_cases_on_op |].
    intros _. apply MSafe_bind;
      [eapply MSafe_weaken; [| apply toast_preview_safe]; by_cases_on_op |].
    intros _. destruct (autoSend cfg); [| apply MSafe_ret].
    apply MSafe_bind; [msafe |]. intros _.
    apply MSafe_bind;
      [eapply MSafe_weaken; [| apply clickSend_safe]; by_cases_on_op |].
    intros _. apply MSafe_ret.
  - apply MSafe_bind;
      [eapply MSafe_weaken; [| apply injectText_safe]; by_cases_on_op |].
    intros _. apply MSafe_bind;
      [eapply MSafe_weaken; [| apply toast_preview_safe]; by_cases_on_op |].
    intros _. destruct (autoSend cfg); [| apply MSafe_ret].
    apply MSafe_bind; [msafe |]. intros _.
    apply MSafe_bind;
      [eapply MSafe_weaken; [| apply clickSend_safe]; by_cases_on_op |].
    intros _. apply MSafe_ret.
  - apply MSafe_ret.
Qed.

End Footprints.

(* ================================================================== *)
(** * The event loop: one message in flight, in arrival order *)
(* ================================================================== *)

Section EventLoop.

Import Content.

Variable cfg : Config.

(** *** Reading histories piecewise *)

Lemma dequeued_app h h' : dequeued (h ++ h') = dequeued h ++ dequeued h'.
Proof. apply flat_map_app. Qed.

Lemma enqueued_app h h' : enqueued (h ++ h') = enqueued h ++ enqueued h'.
Proof. apply flat_map_app. Qed.

Lemma ops_of_app h h' : ops_of (h ++ h') = ops_of h ++ ops_of h'.
Proof. apply flat_map_app. Qed.

Lemma owners_app h h' : owners (h ++ h') = owners h ++ owners h'.
Proof. apply flat_map_app. Qed.

Lemma dequeued_Did id o : dequeued (map (Did id) o) = [].
Proof. induction o; simpl; auto. Qed.

Lemma enqueued_Did id o : enqueued (map (Did id) o) = [].
Proof. induction o; simpl; auto. Qed.

Lemma ops_of_Did id o : ops_of (map (Did id) o) = o.
Proof. induction o; simpl; congruence. Qed.

Lemma dequeued_Logged o : dequeued (map Logged o) = [].
Proof. induction o; simpl; auto. Qed.

Lemma enqueued_Logged o : enqueued (map Logged o) = [].
Proof. induction o; simpl; auto. Qed.

Lemma ops_of_Logged o : ops_of (map Logged o) = [].
Proof. induction o; simpl; auto. Qed.

Lemma serial_app cur h h' :
  serial cur (h ++ h') = serial cur h && serial (cur_after cur h) h'.
Proof.
  revert cur. induction h as [| e h IH]; intros cur; simpl; [reflexivity |].
  destruct e; auto.
  destruct cur as [c |]; [| reflexivity].
  rewrite IH. now rewrite andb_assoc.
Qed.

Lemma cur_after_app cur h h' :
  cur_after cur (h ++ h') = cur_after (cur_after cur h) h'.
Proof.
  revert cur. induction h as [| e h IH]; intros cur; simpl; [reflexivity |].
  destruct e; auto.
Qed.

Lemma serial_Did id o : serial (Some id) (map (Did id) o) = true.
Proof. induction o; simpl; [| rewrite Nat.eqb_refl]; auto. Qed.

Lemma cur_after_Did cur id o : cur_after cur (map (Did id) o) = cur.
Proof. induction o; simpl; auto. Qed.

Lemma serial_Logged cur o : serial cur (map Logged o) = true.
Proof. induction o; simpl; auto. Qed.

Lemma cur_after_Logged cur o : cur_after cur (map Logged o) = cur.
Proof. induction o; simpl; auto. Qed.

(** *** One turn of the worker *)

Lemma toast_ops_pipeline msg kind :
  forallb pipeline_op (toast_ops cfg msg kind) = true.
Proof. unfold toast_ops. destruct (showNotifications cfg); reflexivity. Qed.

Lemma settle_safe w0 r w' o st :
  Safe pipeline_op w0 r ->
  settle cfg r = (w', o, st) ->
  same_globals w0 w' /\ forallb pipeline_op o = true /\
  match st with
  | InTry k => forall w, Safe pipeline_op w (k w)
  | InPause => True
  end.
Proof.
  intros Hr Hs.
  destruct Hr as [w0 w o1 a Hg Ho | w0 w o1 e Hg Ho | w0 w o1 ms k Hg Ho Hk];
    simpl in Hs; inversion Hs; subst; clear Hs.
  - split; [exact Hg | split; [| exact I]].
    rewrite forallb_app, Ho. reflexivity.
  - split; [exact Hg | split; [| exact I]].
    rewrite !forallb_app, Ho, toast_ops_pipeline. reflexivity.
  - split; [exact Hg | split; [exact Ho | exact Hk]].
Qed.

(** The outcome of the loop head on a busy world. *)
Lemma loop_head_cases w w' ev o :
  loop_head cfg w = (w', ev, o) ->
  (messageQueue w = [] /\ w' = with_processing false w /\ ev = [] /\
   o = None) \/
  (exists id m q ops wk,
      messageQueue w = (id, m) :: q /\
      messageQueue w' = q /\
      isProcessing w' = isProcessing w /\
      pendingAttachments w' = pendingAttachments w /\
      ev = Dequeued id m :: map (Did id) ops /\
      forallb pipeline_op ops = true /\
      o = Some wk /\ current wk = id /\ worker_ok wk).
Proof.
  unfold loop_head. destruct (messageQueue w) as [| [id m] q] eqn:Hq.
  - intros H. inversion H. left. auto.
  - destruct (settle cfg (processMessage cfg m (with_queue q w)))
      as [[w1 ops] st] eqn:Hs.
    intros H. inversion H; subst; clear H. right.
    destruct (settle_safe (processMessage_safe cfg m (with_queue q w)) Hs)
      as ((Gq & Gp & Ga) & Hops & Hst).
    exists id, m, q, ops, {| current := id; wstate := st |}.
    repeat split; auto.
Qed.

Lemma resume_cases wk w w' ev o :
  worker_ok wk ->
  resume cfg wk w = (w', ev, o) ->
  (exists ops wk',
      same_globals w w' /\ ev = map (Did (current wk)) ops /\
      forallb pipeline_op ops = true /\
      o = Some wk' /\ current wk' = current wk /\ worker_ok wk') \/
  (wstate wk = InPause /\ loop_head cfg w = (w', ev, o)).
Proof.
  unfold resume, worker_ok. intros Hok.
  destruct (wstate wk) as [k |].
  - destruct (settle cfg (k w)) as [[w1 ops] st] eqn:Hs.
    intros H. inversion H; subst; clear H. left.
    destruct (settle_safe (Hok w) Hs) as (Hg & Hops & Hst).
    exists ops, {| current := current wk; wstate := st |}.
    split; [exact Hg |]. repeat split; auto.
  - intros H. right. auto.
Qed.

(** *** The invariant *)

Lemma Inv_boot p : Inv (boot p).
Proof. constructor; simpl; auto. Qed.

Lemma Inv_after_loop_head w h n w' ev o :
  isProcessing w = true ->
  pendingAttachments w = [] ->
  dequeued h ++ messageQueue w = enqueued h ->
  serial None h = true ->
  forallb pipeline_op (ops_of h) = true ->
  loop_head cfg w = (w', ev, o) ->
  Inv {| world := w'; workers := option_list o; history := h ++ ev;
         arrivals := n |}.
Proof.
  intros Hp Ha Hf Hs Ho Hl.
  destruct (loop_head_cases _ Hl)
    as [(Hq & -> & -> & ->)
       | (id & m & q & ops & wk & Hq & Hq' & Hp' & Ha' & -> & Hops & ->
          & Hc & Hok)].
  - constructor; simpl; rewrite ?app_nil_r; auto.
  - constructor; simpl.
    + split; [congruence | split; [exact Hok |]].
      rewrite cur_after_app. simpl. rewrite cur_after_Did. congruence.
    + congruence.
    + rewrite dequeued_app, enqueued_app. simpl.
      rewrite dequeued_Did, enqueued_Did, app_nil_r, Hq', <- Hf, Hq.
      now rewrite <- app_assoc.
    + rewrite serial_app, Hs. simpl. apply serial_Did.
    + rewrite ops_of_app, forallb_app, Ho. simpl. now rewrite ops_of_Did.
Qed.

Lemma Inv_handleMessage m s : Inv s -> Inv (handleMessage cfg m s).
Proof.
  intros [Hfl Hpe Hfi Hse Hop]. unfold handleMessage.
  destruct (negb (is_lit (type m) "message")).
  - constructor; simpl; auto.
    + destruct (workers s) as [| wk [| ? ?]]; auto.
      destruct Hfl as (? & ? & Hc). repeat split; auto.
      now rewrite !cur_after_app, cur_after_Logged.
    + rewrite !dequeued_app, !enqueued_app, dequeued_Logged, enqueued_Logged.
      simpl. now rewrite !app_nil_r.
    + rewrite !serial_app, Hse, serial_Logged. reflexivity.
    + rewrite !ops_of_app, ops_of_Logged. simpl. now rewrite app_nil_r.
  - unfold processQueue. simpl.
    destruct (workers s) as [| wk [| ? ?]] eqn:Hw; [| | contradiction].
    + destruct Hfl as (Hp & Hq). rewrite Hp, Hq. simpl.
      destruct (loop_head cfg
                  (with_processing true
                     (with_queue [(arrivals s, m)] (world s))))
        as [[w' ev] o] eqn:Hl.
      apply (@Inv_after_loop_head _ (history s ++ [Enqueued (arrivals s) m])
                                  (S (arrivals s)) _ _ _) in Hl; auto.
      * rewrite dequeued_app, enqueued_app. simpl.
        rewrite app_nil_r, <- Hfi, Hq, app_nil_r. reflexivity.
      * rewrite serial_app, Hse. reflexivity.
      * rewrite ops_of_app. simpl. now rewrite app_nil_r.
    + destruct Hfl as (Hp & Hok & Hc). rewrite Hp. simpl.
      constructor; simpl; auto.
      * repeat split; auto. now rewrite cur_after_app.
      * rewrite dequeued_app, enqueued_app. simpl.
        rewrite app_nil_r, <- Hfi, <- app_assoc. reflexivity.
      * rewrite serial_app, Hse. reflexivity.
      * rewrite ops_of_app. simpl. now rewrite app_nil_r.
Qed.

Lemma Inv_fire i s : Inv s -> Inv (fire cfg i s).
Proof.
  intros HI. pose proof HI as [Hfl Hpe Hfi Hse Hop]. unfold fire.
  destruct (workers s) as [| wk [| ? ?]] eqn:Hw; [| | contradiction].
  - destruct i; exact HI.
  - destruct i as [| i]; simpl; [| destruct i; exact HI].
    destruct Hfl as (Hp & Hok & Hc).
    destruct (resume cfg wk (world s)) as [[w' ev] o] eqn:Hr.
    destruct (resume_cases _ _ Hok Hr)
      as [(ops & wk' & (Gq & Gp & Ga) & -> & Hops & -> & Hc' & Hok')
         | (_ & Hl)].
    + constructor; simpl.
      * repeat split; [congruence | exact Hok' |].
        rewrite cur_after_app, cur_after_Did. congruence.
      * congruence.
      * rewrite dequeued_app, enqueued_app, dequeued_Did, enqueued_Did.
        rewrite !app_nil_r, Gq. exact Hfi.
      * rewrite serial_app, Hse, Hc. apply serial_Did.
      * rewrite ops_of_app, forallb_app, Hop, ops_of_Did. exact Hops.
    + rewrite app_nil_r.
      apply (@Inv_after_loop_head (world s) (history s) (arrivals s));
        auto.
Qed.

Lemma Inv_step i s : Inv s -> Inv (step cfg s i).
Proof.
  intros HI. destruct i as [m | n | f]; simpl.
  - now apply Inv_handleMessage.
  - now apply Inv_fire.
  - destruct HI as [Hfl Hpe Hfi Hse Hop]. constructor; simpl; auto.
Qed.

Lemma Inv_run inputs s : Inv s -> Inv (run cfg s inputs).
Proof.
  revert s. induction inputs as [| i inputs IH]; intros s HI; simpl.
  - exact HI.
  - apply IH. now apply Inv_step.
Qed.

(** *** Arrivals and the queue *)

Lemma loop_head_enqueued w :
  enqueued (snd (fst (loop_head cfg w))) = [].
Proof.
  unfold loop_head. destruct (messageQueue w) as [| [id m] q]; simpl; auto.
  destruct (settle cfg _) as [[w1 ops] st]. simpl. apply enqueued_Did.
Qed.

Lemma resume_enqueued wk w :
  enqueued (snd (fst (resume cfg wk w))) = [].
Proof.
  unfold resume. destruct (wstate wk) as [k |].
  - destruct (settle cfg _) as [[w1 ops] st]. simpl. apply enqueued_Did.
  - apply loop_head_enqueued.
Qed.

Lemma step_enqueued s i :
  enqueued (history (step cfg s i)) =
    enqueued (history s) ++
    combine (seq (arrivals s) (List.length (admitted_by i))) (admitted_by i) /\
  arrivals (step cfg s i) = arrivals s + List.length (admitted_by i).
Proof.
  destruct i as [m | n | f]; simpl.
  - unfold handleMessage. destruct (is_lit (type m) "message"); simpl.
    + unfold processQueue. simpl.
      destruct (isProcessing (world s) || _); simpl.
      * rewrite enqueued_app. simpl. split; [reflexivity | lia].
      * pose proof (loop_head_enqueued
                      (with_processing true
                         (with_queue (messageQueue (world s)
                                      ++ [(arrivals s, m)]) (world s))))
          as He.
        destruct (loop_head cfg _) as [[w' ev] o]. simpl in *.
        rewrite !enqueued_app, He. simpl. rewrite app_nil_r.
        split; [reflexivity | lia].
    + rewrite !enqueued_app, enqueued_Logged. simpl.
      rewrite !app_nil_r. split; [reflexivity | lia].
  - unfold fire. destruct (nth_error (workers s) n) as [wk |].
    + pose proof (resume_enqueued wk (world s)) as He.
      destruct (resume cfg wk (world s)) as [[w' ev] o]. simpl in *.
      rewrite enqueued_app, He, !app_nil_r. split; [reflexivity | lia].
    + rewrite app_nil_r. split; [reflexivity | lia].
  - rewrite app_nil_r. split; [reflexivity | lia].
Qed.

Lemma run_enqueued inputs s :
  enqueued (history (run cfg s inputs)) =
  enqueued (history s) ++
  combine (seq (arrivals s) (List.length (accepted inputs)))
          (accepted inputs).
Proof.
  revert s. induction inputs as [| i inputs IH]; intros s.
  - simpl. now rewrite app_nil_r.
  - change (run cfg s (i :: inputs)) with (run cfg (step cfg s i) inputs).
    rewrite IH. destruct (step_enqueued s i) as [He Ha]. rewrite He, Ha.
    change (accepted (i :: inputs)) with (admitted_by i ++ accepted inputs).
    rewrite <- app_assoc. f_equal.
    destruct (admitted_by i) as [| m [| ? ?]] eqn:Hm.
    + simpl. now rewrite Nat.add_0_r.
    + simpl. now rewrite Nat.add_1_r.
    + exfalso. destruct i as [m' | |]; simpl in Hm; try discriminate.
      destruct (is_lit (type m') "message"); discriminate.
Qed.

(** *** From the invariant to the order of operations *)

Lemma prefix_of_seq (l1 l2 : list nat) a n :
  l1 ++ l2 = seq a n -> l1 = seq a (List.length l1).
Proof.
  revert a n. induction l1 as [| x l1 IH]; intros a n H; [reflexivity |].
  destruct n as [| n]; simpl in H; [discriminate |].
  injection H as -> H. simpl. f_equal. exact (IH _ _ H).
Qed.

Lemma fst_combine_seq A a (l : list A) :
  map fst (combine (seq a (List.length l)) l) = seq a (List.length l).
Proof.
  revert a. induction l as [| x l IH]; intros a; simpl; [reflexivity |].
  now rewrite IH.
Qed.

Lemma snd_combine_seq A a (l : list A) :
  map snd (combine (seq a (List.length l)) l) = l.
Proof.
  revert a. induction l as [| x l IH]; intros a; simpl; [reflexivity |].
  now rewrite IH.
Qed.

Lemma serial_sorted h :
  forall cur a k,
    serial cur h = true ->
    map fst (dequeued h) = seq a k ->
    (forall c, cur = Some c -> c < a) ->
    StronglySorted le (owners h) /\
    Forall (fun i => cur = Some i \/ a <= i) (owners h).
Proof.
  induction h as [| e h IH]; intros cur a k Hs Hd Hc.
  - split; constructor.
  - destruct e as [m | id m | id m | id op | op]; simpl in *.
    + eapply IH; eauto.
    + eapply IH; eauto.
    + destruct k as [| k]; simpl in Hd; [discriminate |].
      injection Hd as -> Hd.
      destruct (IH (Some a) (S a) k Hs Hd) as [Hsorted Hall].
      { intros c Hc'. injection Hc' as <-. lia. }
      split; [exact Hsorted |].
      eapply Forall_impl; [| exact Hall]. simpl.
      intros i [Hi | Hi]; right; [injection Hi as <- |]; lia.
    + destruct cur as [c |]; [| discriminate].
      apply andb_true_iff in Hs. destruct Hs as [Hid Hs].
      apply Nat.eqb_eq in Hid. subst id.
      destruct (IH (Some c) a k Hs Hd Hc) as [Hsorted Hall].
      split.
      * constructor; [exact Hsorted |].
        eapply Forall_impl; [| exact Hall]. simpl.
        intros i [Hi | Hi]; [injection Hi as <-; lia |].
        specialize (Hc c eq_refl). lia.
      * constructor; [now left | exact Hall].
    + eapply IH; eauto.
Qed.

End EventLoop.

(** C10.  Whatever arrives, the collection of pending attachments stays
    empty, and nothing done on behalf of a message enters
    [accumulateAttachment] or [flushAttachments]: a file without caption is
    attached at once, and no flush comes before the send of a text. *)
Theorem pending_attachments_stay_empty
    (cfg : Content.Config) (p : Content.Page) (inputs : list Content.Input) :
  let s := Content.run cfg (Content.boot p) inputs in
  Content.pendingAttachments (Content.world s) = [] /\
  ~ In Content.accumulateAttachment_fn
       (Content.calls (Content.ops_of (Content.history s))) /\
  ~ In Content.flushAttachments_fn
       (Content.calls (Content.ops_of (Content.history s))).
Proof.
  intros s.
  pose proof (Inv_run cfg inputs (Inv_boot p)) as HI.
  fold s in HI. destruct HI as [_ Hpe _ _ Hop].
  split; [exact Hpe |].
  assert (Hcalls : forall f,
             In f (Content.calls (Content.ops_of (Content.history s))) ->
             Content.pipeline_op (Content.Enter f) = true).
  { intros f Hf. unfold Content.calls in Hf. apply in_flat_map in Hf.
    destruct Hf as (op & Hop' & Hf).
    rewrite forallb_forall in Hop. specialize (Hop op Hop').
    destruct op; simpl in Hf; try contradiction.
    destruct Hf as [<- | []]. exact Hop. }
  split; intros Hin; apply Hcalls in Hin; discriminate.
Qed.

(* ================================================================== *)
(** * Runs of one computation *)
(* ================================================================== *)

Section Runs.

Import Content.

Lemma runs_prepend A o (r : Async A) d res :
  runs r d res -> runs (prepend o r) (o ++ d) res.
Proof.
  intros H. destruct H; simpl; try constructor.
  rewrite app_assoc. econstructor; eassumption.
Qed.

Lemma runs_prepend_inv A o (r : Async A) d res :
  runs (prepend o r) d res -> exists d', d = o ++ d' /\ runs r d' res.
Proof.
  destruct r as [w o' a | w o' e | w o' ms k]; simpl; intros H;
    inversion H; subst.
  - exists o'. split; [reflexivity | constructor].
  - exists o'. split; [reflexivity | constructor].
  - exists (o' ++ d0).
    split; [now rewrite app_assoc | econstructor; eassumption].
Qed.

Lemma runs_bind A B (r : Async A) (f : A -> M B) d1 w1 a d2 res :
  runs r d1 (w1, Returned a) -> runs (f a w1) d2 res ->
  runs (bindA r f) (d1 ++ d2) res.
Proof.
  intros Hr Hf. remember (w1, Returned a) as out eqn:Hout.
  induction Hr as [w o a' | w o e | w o ms k w' d res' Hk IH]; simpl.
  - injection Hout as -> ->. now apply runs_prepend.
  - discriminate.
  - rewrite <- app_assoc. constructor 3 with (w' := w'). now apply IH.
Qed.

Lemma runs_bind_inv A B (r : Async A) (f : A -> M B) d res :
  runs (bindA r f) d res ->
  (exists d1 w1 a d2,
      runs r d1 (w1, Returned a) /\ runs (f a w1) d2 res /\ d = d1 ++ d2) \/
  (exists w1 e, runs r d (w1, Raised e) /\ res = (w1, Raised e)).
Proof.
  revert d res.
  induction r as [w o a | w o e | w o ms k IH]; simpl; intros d res H.
  - apply runs_prepend_inv in H. destruct H as (d' & -> & H).
    left. exists o, w, a, d'. repeat split; [constructor | exact H].
  - inversion H; subst. right. exists w, e. split; [constructor | reflexivity].
  - inversion H; subst.
    match goal with Hk : runs (bindA (k _) f) _ res |- _ =>
      destruct (IH _ _ _ Hk)
        as [(d1 & w1 & a & d2 & Hr & Hf & ->) | (w1 & e & Hr & ->)]
    end.
    + left. exists (o ++ d1), w1, a, d2.
      repeat split;
        [econstructor; eassumption | exact Hf | now rewrite app_assoc].
    + right. exists w1, e.
      split; [econstructor; eassumption | reflexivity].
Qed.


Lemma runs_sleep ms w w' : runs (sleep ms w) [Sleep ms] (w', Returned tt).
Proof.
  unfold sleep. change [Sleep ms] with ([Sleep ms] ++ []).
  constructor 3 with (w' := w'). constructor.
Qed.

Lemma runs_sleep_inv ms w d res :
  runs (sleep ms w) d res -> d = [Sleep ms] /\ exists w', res = (w', Returned tt).
Proof.
  unfold sleep. intros H. inversion H; subst.
  match goal with Hk : runs (Done _ _ _) _ _ |- _ => inversion Hk; subst end.
  split; [reflexivity | eauto].
Qed.

Lemma Safe_runs (P : Op -> bool) A w0 (r : Async A) d res :
  Safe P w0 r -> runs r d res -> forallb P d = true.
Proof.
  intros Hs Hr. revert w0 Hs.
  induction Hr as [w o a | w o e | w o ms k w' d res Hk IH]; intros w0 Hs;
    inversion Hs; subst; auto.
  rewrite forallb_app. apply andb_true_iff. split; [assumption |].
  match goal with H : forall w, Safe P w (k w) |- _ => exact (IH _ (H w')) end.
Qed.

(** A bind whose first part stays within [P]: either the first part
    returns, having done only [P], or the whole run raises within [P]. *)
Lemma runs_bind_within (P : Op -> bool) A B (m : M A) (f : A -> M B)
      w d w' (res : Result B) :
  MSafe P m ->
  runs (bind m f w) d (w', res) ->
  (exists d1 w1 a d2,
      forallb P d1 = true /\ runs (f a w1) d2 (w', res) /\ d = d1 ++ d2) \/
  (exists e, res = Raised e /\ forallb P d = true).
Proof.
  intros Hm H. unfold bind in H.
  destruct (runs_bind_inv _ _ H)
    as [(d1 & w1 & a & d2 & Hr & Hf & ->) | (w1 & e & Hr & Hres)].
  - left. exists d1, w1, a, d2. repeat split; auto.
    exact (Safe_runs (Hm w) Hr).
  - right. exists e. split; [congruence |].
    exact (Safe_runs (Hm w) Hr).
Qed.

Lemma finish_runs A (r : Async A) :
  runs r (snd (fst (finish r))) (fst (fst (finish r)), snd (finish r)).
Proof.
  induction r as [w o a | w o e | w o ms k IH]; simpl; try constructor.
  specialize (IH w). destruct (finish (k w)) as [[w' d] res]. simpl in *.
  now constructor 3 with (w' := w).
Qed.

End Runs.

(* ================================================================== *)
(** * Ingestion and dispatch on the content type *)
(* ================================================================== *)

Section Dispatch.

Import Content.

Variable cfg : Config.

Lemma jsstring_eqb_eq a b : jsstring_eqb a b = true <-> a = b.
Proof.
  unfold jsstring_eqb. destruct (list_eq_dec N.eq_dec a b); split;
    intros; congruence.
Qed.

Lemma is_lit_eq v s : is_lit v s = true -> v = Some (lit s).
Proof.
  destruct v as [x |]; simpl; [| discriminate].
  intros H. apply jsstring_eqb_eq in H. now subst.
Qed.

Lemma text_type_not_file_type ct :
  is_text_type ct = true -> is_file_type ct = false.
Proof.
  unfold is_text_type. intros H. apply orb_true_iff in H.
  destruct H as [H | H]; apply is_lit_eq in H; subst; reflexivity.
Qed.

Lemma processMessage_unknown m w :
  is_file_type (content_type m) = false ->
  is_text_type (content_type m) = false ->
  processMessage cfg m w = Done w [] tt.
Proof.
  intros Hf Ht. unfold processMessage.
  now rewrite Hf, Ht, andb_false_r.
Qed.

Lemma processMessage_text_fields m m' w :
  sender m = sender m' -> content_type m = content_type m' ->
  is_text_type (content_type m) = true ->
  text m = text m' ->
  processMessage cfg m w = processMessage cfg m' w.
Proof.
  intros Hs Hc Ht Hx. unfold processMessage.
  rewrite <- Hc, <- Hs, <- Hx.
  now rewrite (text_type_not_file_type _ Ht), !andb_false_r.
Qed.

Lemma processMessage_file_fields m m' w :
  sender m = sender m' -> content_type m = content_type m' ->
  is_file_type (content_type m) = true ->
  file_data m = file_data m' -> file_name m = file_name m' ->
  mime_type m = mime_type m' -> caption m = caption m' ->
  processMessage cfg m w = processMessage cfg m' w.
Proof.
  intros Hs Hc Hf Hd Hn Hm Hp. unfold processMessage.
  rewrite <- Hc, <- Hs, <- Hd, <- Hn, <- Hm, <- Hp, Hf, andb_true_r.
  destruct (truthy (file_data m)); [reflexivity |].
  destruct (is_text_type (content_type m)) eqn:Ht; [| reflexivity].
  apply text_type_not_file_type in Ht. congruence.
Qed.

Lemma handleMessage_drops m s :
  is_lit (type m) "message" = false ->
  world (handleMessage cfg m s) = world s /\
  workers (handleMessage cfg m s) = workers s /\
  enqueued (history (handleMessage cfg m s)) = enqueued (history s) /\
  In (Ignored m) (history (handleMessage cfg m s)).
Proof.
  intros H. unfold handleMessage. rewrite H. simpl.
  repeat split.
  - rewrite !enqueued_app, enqueued_Logged. simpl. now rewrite !app_nil_r.
  - apply in_or_app. right. apply in_or_app. right. now left.
Qed.

Lemma handleMessage_enqueues m s :
  is_lit (type m) "message" = true ->
  In (Enqueued (arrivals s) m) (history (handleMessage cfg m s)).
Proof.
  intros H. unfold handleMessage, processQueue. rewrite H. simpl.
  destruct (isProcessing (world s) || _); simpl.
  - apply in_or_app. right. now left.
  - destruct (loop_head cfg _) as [[w' ev] o]. simpl.
    apply in_or_app. left. apply in_or_app. right. now left.
Qed.

End Dispatch.

(** C7, as amended.  The ingestion guard looks at [type] only: an object
    whose [type] is not ['message'] is dropped (logged, not enqueued), and
    every object of type ['message'] is enqueued, whatever its
    [content_type].  A message of an unrecognized content type is dequeued
    like any other and its processing does nothing.  The content type
    decides which fields are acted upon: for the text types the processing
    depends on [sender] and [text] only, for the file types on [sender],
    [file_data], [file_name], [mime_type] and [caption] only. *)
Theorem ingestion_and_dispatch (cfg : Content.Config) :
  (forall m s,
      Content.is_lit (Content.type m) "message" = false ->
      Content.world (Content.handleMessage cfg m s) = Content.world s /\
      Content.workers (Content.handleMessage cfg m s) = Content.workers s /\
      Content.enqueued (Content.history (Content.handleMessage cfg m s)) =
        Content.enqueued (Content.history s) /\
      In (Content.Ignored m)
         (Content.history (Content.handleMessage cfg m s))) /\
  (forall m s,
      Content.is_lit (Content.type m) "message" = true ->
      In (Content.Enqueued (Content.arrivals s) m)
         (Content.history (Content.handleMessage cfg m s))) /\
  (forall m w,
      Content.is_file_type (Content.content_type m) = false ->
      Content.is_text_type (Content.content_type m) = false ->
      Content.processMessage cfg m w = Content.Done w [] tt) /\
  (forall m m' w,
      Content.sender m = Content.sender m' ->
      Content.content_type m = Content.content_type m' ->
      Content.is_text_type (Content.content_type m) = true ->
      Content.text m = Content.text m' ->
      Content.processMessage cfg m w = Content.processMessage cfg m' w) /\
  (forall m m' w,
      Content.sender m = Content.sender m' ->
      Content.content_type m = Content.content_type m' ->
      Content.is_file_type (Content.content_type m) = true ->
      Content.file_data m = Content.file_data m' ->
      Content.file_name m = Content.file_name m' ->
      Content.mime_type m = Content.mime_type m' ->
      Content.caption m = Content.caption m' ->
      Content.processMessage cfg m w = Content.processMessage cfg m' w).
Proof.
  split; [| split; [| split; [| split]]].
  - apply handleMessage_drops.
  - apply handleMessage_enqueues.
  - apply processMessage_unknown.
  - apply processMessage_text_fields.
  - apply processMessage_file_fields.
Qed.

(** The sticker message is enqueued on arrival, and its processing does
    nothing. *)
Lemma ingestion_and_dispatch_witness :
  In (Content.Enqueued 0 Examples.sticker_message)
     (Content.history
        (Content.handleMessage Content.CONFIG Examples.sticker_message
           (Content.boot Examples.chat_page))) /\
  Content.processMessage Content.CONFIG Examples.sticker_message
    (Examples.world_of Examples.chat_page)
  = Content.Done (Examples.world_of Examples.chat_page) [] tt.
Proof.
  destruct (ingestion_and_dispatch Content.CONFIG) as (_ & Henq & Hnop & _).
  split.
  - apply (Henq Examples.sticker_message (Content.boot Examples.chat_page)).
    reflexivity.
  - apply Hnop; reflexivity.
Defined.

(** C7 as stated fails: a message whose content type is not recognized is
    enqueued (and dequeued) like any other; only its processing is empty. *)
Lemma unknown_content_type_is_enqueued :
  let m := Examples.sticker_message in
  Content.is_file_type (Content.content_type m) = false /\
  Content.is_text_type (Content.content_type m) = false /\
  Content.history
    (Content.step Content.CONFIG (Content.boot Examples.chat_page)
       (Content.Arrive m))
  = [ Content.Enqueued 0 m; Content.Dequeued 0 m;
      Content.Did 0 (Content.Sleep 300) ].
Proof.
  repeat split.
Qed.

(* ================================================================== *)
(** * Sending *)
(* ================================================================== *)

Section Sending.

Import Content.

Variable cfg : Config.

Lemma clickSend_done w :
  exists ops clicks b,
    clickSend cfg w = Done w (Enter clickSend_fn :: ops ++ clicks) b /\
    forallb locator_op ops = true /\
    (clicks = [] \/ exists el, clicks = [Click el]).
Proof.
  destruct (getSendButton_from_spec cfg send_selectors w)
    as (ops & Hrun & _).
  assert (Hops : forallb locator_op ops = true).
  { pose proof (getSendButton_safe cfg w) as Hs.
    unfold getSendButton in Hs. rewrite Hrun in Hs. now inversion Hs. }
  unfold clickSend. rewrite bind_emit. unfold bind, getSendButton.
  rewrite Hrun.
  destruct (locate (page w) _ send_selectors) as [el |]; simpl.
  - exists ops, [Click el], true. repeat split; eauto.
  - exists ops, [], false. rewrite !app_nil_r. repeat split; auto.
Qed.

Lemma attachFile_no_send data name mime :
  MSafe no_send (attachFile cfg data name mime).
Proof. within attachFile_safe. Qed.

Lemma injectText_no_send t : MSafe no_send (injectText cfg t).
Proof. within injectText_safe. Qed.

Lemma toast_preview_no_send s b : MSafe no_send (toast_preview cfg s b).
Proof. within toast_preview_safe. Qed.

Lemma showToast_no_send msg kind : MSafe no_send (showToast cfg msg kind).
Proof. msafe. Qed.

(** What follows the injection when auto-send is on: the settle delay,
    then one entry into [clickSend]. *)
Lemma send_after_delay ms w d w' (res : Result unit) :
  runs ((sleep ms ;; _ <- clickSend cfg ;; ret tt)%async w) d (w', res) ->
  res = Returned tt /\
  exists ops clicks,
    d = [Sleep ms; Enter clickSend_fn] ++ ops ++ clicks /\
    forallb locator_op ops = true /\
    (clicks = [] \/ exists el, clicks = [Click el]).
Proof.
  intros H. unfold bind at 1 in H.
  destruct (runs_bind_inv _ _ H)
    as [(d1 & w1 & [] & d2 & Hs & Hc & ->) | (w1 & e & Hs & _)].
  - apply runs_sleep_inv in Hs. destruct Hs as [-> _].
    unfold bind in Hc.
    destruct (clickSend_done w1) as (ops & clicks & b & Hrun & Hops & Hcl).
    rewrite Hrun in Hc. simpl in Hc. inversion Hc; subst.
    split; [reflexivity |]. exists ops, clicks.
    rewrite !app_nil_r. repeat split; auto.
  - apply runs_sleep_inv in Hs. destruct Hs as [_ [w2 Hs]]. discriminate.
Qed.

(** The same tail for both kinds of message: inject, notify, and, with
    auto-send on, wait and send. *)
Lemma inject_then_send ms body_ sender_ w d w' (res : Result unit) :
  autoSend cfg = true ->
  runs ((injectText cfg (attributed cfg sender_ body_) ;;
         toast_preview cfg sender_ body_ ;;
         if autoSend cfg
         then sleep ms ;; _ <- clickSend cfg ;; ret tt
         else ret tt)%async w) d (w', res) ->
  match res with
  | Returned _ =>
      exists pre ops clicks,
        d = pre ++ [Sleep ms; Enter clickSend_fn] ++ ops ++ clicks /\
        forallb no_send pre = true /\
        forallb locator_op ops = true /\
        (clicks = [] \/ exists el, clicks = [Click el])
  | Raised _ => forallb no_send d = true
  end.
Proof.
  intros Hauto H. rewrite Hauto in H.
  apply runs_bind_within with (P := no_send) in H;
    [| apply injectText_no_send].
  destruct H as [(d1 & w1 & [] & d2 & Hd1 & H & ->) | (e & -> & Hd)];
    [| exact Hd].
  apply runs_bind_within with (P := no_send) in H;
    [| apply toast_preview_no_send].
  destruct H as [(d3 & w3 & [] & d4 & Hd3 & H & ->) | (e & -> & Hd)].
  - apply send_after_delay in H.
    destruct H as (-> & ops & clicks & -> & Hops & Hcl).
    exists (d1 ++ d3), ops, clicks.
    rewrite forallb_app, Hd1, Hd3, <- app_assoc. repeat split; auto.
  - rewrite forallb_app, Hd1, Hd. reflexivity.
Qed.





End Sending.




(* ================================================================== *)
(** * A file without caption, then a text *)
(* ================================================================== *)

Section Scenario.

Import Content.

Variable cfg : Config.

Lemma calls_app a b : calls (a ++ b) = calls a ++ calls b.
Proof. apply flat_map_app. Qed.

Lemma calls_no_enter d : forallb no_enter d = true -> calls d = [].
Proof.
  induction d as [| op d IH]; simpl; [reflexivity |].
  intros H. apply andb_true_iff in H. destruct H as [Hop Hd].
  destruct op; try discriminate; simpl; auto.
Qed.

Lemma forallb_weaken (P Q : Op -> bool) d :
  (forall op, P op = true -> Q op = true) ->
  forallb P d = true -> forallb Q d = true.
Proof. intros HPQ H. rewrite forallb_forall in *. auto. Qed.

Lemma attachFile_calls data name mime w d res :
  runs (attachFile cfg data name mime w) d res ->
  calls d = [attachFile_fn].
Proof.
  unfold attachFile. rewrite bind_emit. intros H.
  apply runs_prepend_inv in H. destruct H as (d' & -> & H).
  rewrite calls_app. simpl. f_equal. apply calls_no_enter.
  destruct res as [w' res]. revert H. apply Safe_runs with (w0 := w).
  destruct (atob data) as [bytes |]; [| apply MSafe_throw].
  apply MSafe_bind; [| intros _; apply MSafe_bind; [| intros _]]; msafe.
  - within getDropZone_safe.
  - within getFileInput_safe.
Qed.

Lemma injectText_calls t w d res :
  runs (injectText cfg t w) d res -> calls d = [injectText_fn].
Proof.
  unfold injectText. rewrite bind_emit. intros H.
  apply runs_prepend_inv in H. destruct H as (d' & -> & H).
  rewrite calls_app. simpl. f_equal. apply calls_no_enter.
  destruct res as [w' res]. revert H. apply Safe_runs with (w0 := w).
  destruct t as [t |]; [| apply MSafe_throw].
  apply MSafe_bind; [within getInputField_safe | intros input]. msafe.
Qed.

Lemma toast_preview_no_enter s b : MSafe no_enter (toast_preview cfg s b).
Proof. within toast_preview_safe. Qed.

(** The calls of the tail shared by both kinds of message. *)
Lemma inject_then_send_calls ms body_ sender_ w d w' (res : Result unit) :
  autoSend cfg = true ->
  runs ((injectText cfg (attributed cfg sender_ body_) ;;
         toast_preview cfg sender_ body_ ;;
         if autoSend cfg
         then sleep ms ;; _ <- clickSend cfg ;; ret tt
         else ret tt)%async w) d (w', res) ->
  calls d = match res with
            | Returned _ => [injectText_fn; clickSend_fn]
            | Raised _ => [injectText_fn]
            end.
Proof.
  intros Hauto H. rewrite Hauto in H. unfold bind at 1 in H.
  destruct (runs_bind_inv _ _ H)
    as [(d1 & w1 & [] & d2 & Hinj & Hrest & ->) | (w1 & e & Hinj & Hres)].
  - rewrite calls_app, (injectText_calls _ _ Hinj).
    apply runs_bind_within with (P := no_enter) in Hrest;
      [| apply toast_preview_no_enter].
    destruct Hrest as [(d3 & w3 & [] & d4 & Hd3 & Hsend & ->)
                      | (e & -> & Hd)].
    + apply send_after_delay in Hsend.
      destruct Hsend as (-> & ops & clicks & -> & Hops & Hcl).
      rewrite !calls_app, (calls_no_enter _ Hd3). simpl.
      rewrite (calls_no_enter ops).
      * destruct Hcl as [-> | (el & ->)]; reflexivity.
      * revert Hops. apply forallb_weaken. by_cases_on_op.
    + now rewrite (calls_no_enter _ Hd).
  - injection Hres as -> ->. exact (injectText_calls _ _ Hinj).
Qed.

Lemma captionless_file_runs m w d w' (res : Result unit) :
  truthy (file_data m) = true ->
  is_file_type (content_type m) = true ->
  truthy (caption m) = false ->
  runs (processMessage cfg m w) d (w', res) ->
  calls d = [attachFile_fn] /\ forallb no_send d = true.
Proof.
  intros Hdata Htype Hcap H. unfold processMessage in H.
  rewrite Hdata, Htype, Hcap in H. simpl in H.
  assert (Hquiet : forallb quiet_op d = true).
  { revert H. apply Safe_runs with (w0 := w).
    apply MSafe_bind; [within attachFile_safe | intros _].
    apply MSafe_bind; [| intros _; apply MSafe_ret]. msafe. }
  split.
  - unfold bind at 1 in H.
    destruct (runs_bind_inv _ _ H)
      as [(d1 & w1 & [] & d2 & Hatt & Hrest & ->) | (w1 & e & Hatt & _)].
    + rewrite calls_app, (attachFile_calls _ _ _ _ Hatt).
      rewrite (calls_no_enter d2); [reflexivity |].
      revert Hrest. apply Safe_runs with (w0 := w1).
      apply MSafe_bind; [| intros _; apply MSafe_ret]. msafe.
    + exact (attachFile_calls _ _ _ _ Hatt).
  - revert Hquiet. apply forallb_weaken. by_cases_on_op.
Qed.

Lemma text_message_runs m w d w' (res : Result unit) :
  autoSend cfg = true ->
  is_text_type (content_type m) = true ->
  runs (processMessage cfg m w) d (w', res) ->
  calls d = match res with
            | Returned _ => [injectText_fn; clickSend_fn]
            | Raised _ => [injectText_fn]
            end /\
  match res with
  | Returned _ =>
      exists pre ops clicks,
        d = pre ++ [Sleep (messageDelay cfg); Enter clickSend_fn]
                ++ ops ++ clicks /\
        forallb no_send pre = true /\
        forallb locator_op ops = true /\
        (clicks = [] \/ exists el, clicks = [Click el])
  | Raised _ => forallb no_send d = true
  end.
Proof.
  intros Hauto Htype H. unfold processMessage in H.
  rewrite (text_type_not_file_type _ Htype), andb_false_r, Htype in H.
  split.
  - eapply inject_then_send_calls; eassumption.
  - eapply inject_then_send; eassumption.
Qed.

Lemma text_message_completes m w el t :
  autoSend cfg = true ->
  is_text_type (content_type m) = true ->
  text m = Some t ->
  locate (page w) (fun _ => true) input_selectors = Some el ->
  exists d w', runs (processMessage cfg m w) d (w', Returned tt).
Proof.
  intros Hauto Htype Htext Hloc. unfold processMessage.
  rewrite (text_type_not_file_type _ Htype), andb_false_r, Htype, Hauto.
  assert (Hbody : exists b, attributed cfg (sender m) (text m) = Some b).
  { unfold attributed. rewrite Htext. destruct (attributionPrefix cfg); eauto. }
  destruct Hbody as (b & Hbody).
  pose proof (injectText_found cfg _ b Hloc) as Hinj.
  set (w2 := with_page _ w) in Hinj.
  destruct (clickSend_done cfg w2) as (ops & clicks & sent & Hclick & _ & _).
  do 2 eexists.
  unfold bind at 1. eapply runs_bind;
    [rewrite Hbody, Hinj; apply runs_done |].
  unfold bind at 1. eapply runs_bind;
    [unfold toast_preview; rewrite Htext; apply runs_done |].
  unfold bind at 1. eapply runs_bind; [apply (runs_sleep _ w2 w2) |].
  unfold bind at 1. eapply runs_bind;
    [rewrite Hclick; apply runs_done | apply runs_done].
Qed.

Lemma no_flush_in_history p inputs :
  ~ flushes_before_send (ops_of (history (run cfg (boot p) inputs))).
Proof.
  pose proof (Inv_run cfg inputs (Inv_boot p)) as [_ _ _ _ Hop].
  intros (pre & mid & post & Heq). rewrite Heq in Hop.
  rewrite forallb_app in Hop. apply andb_true_iff in Hop.
  destruct Hop as [_ Hop]. discriminate.
Qed.

End Scenario.

(** C1, as amended.  A file message without caption enters [attachFile]
    once, at once, and sends nothing; a text message enters [injectText]
    once and then, after the text delay, [clickSend] once (a processing
    that ends with an exception stops after the injection).  In the
    pipeline that received just these two messages they are dequeued in
    this order, no attachment is ever pending and no flush comes before
    the send. *)
Theorem image_then_text
    (cfg : Content.Config) (image text : Content.Message) :
  Content.autoSend cfg = true ->
  truthy (Content.file_data image) = true ->
  Content.is_file_type (Content.content_type image) = true ->
  truthy (Content.caption image) = false ->
  Content.is_text_type (Content.content_type text) = true ->
  (forall w d w' (res : Content.Result unit),
      Content.runs (Content.processMessage cfg image w) d (w', res) ->
      Content.calls d = [Content.attachFile_fn] /\
      forallb Content.no_send d = true) /\
  (forall w d w' (res : Content.Result unit),
      Content.runs (Content.processMessage cfg text w) d (w', res) ->
      Content.calls d =
        match res with
        | Content.Returned _ => [Content.injectText_fn; Content.clickSend_fn]
        | Content.Raised _ => [Content.injectText_fn]
        end /\
      match res with
      | Content.Returned _ =>
          exists pre ops clicks,
            d = pre ++ [Content.Sleep (Content.messageDelay cfg);
                        Content.Enter Content.clickSend_fn]
                    ++ ops ++ clicks /\
            forallb Content.no_send pre = true /\
            forallb Content.locator_op ops = true /\
            (clicks = [] \/ exists el, clicks = [Content.Click el])
      | Content.Raised _ => forallb Content.no_send d = true
      end) /\
  (forall w el t,
      Content.text text = Some t ->
      Content.locate (Content.page w) (fun _ => true)
                     Content.input_selectors = Some el ->
      exists d w',
        Content.runs (Content.processMessage cfg text w) d
                     (w', Content.Returned tt)) /\
  (forall p inputs,
      Content.accepted inputs = [image; text] ->
      let s := Content.run cfg (Content.boot p) inputs in
      Content.dequeued (Content.history s)
        ++ Content.messageQueue (Content.world s) = [(0, image); (1, text)] /\
      Content.pendingAttachments (Content.world s) = [] /\
      ~ Content.flushes_before_send (Content.ops_of (Content.history s))).
Proof.
  intros Hauto Hdata Htype Hcap Htext.
  split; [| split; [| split]].
  - intros w d w' res H. eapply captionless_file_runs; eassumption.
  - intros w d w' res H. eapply text_message_runs; eassumption.
  - intros w el t Ht Hloc. eapply text_message_completes; eassumption.
  - intros p inputs Hacc s.
    pose proof (Inv_run cfg inputs (Inv_boot p)) as HI. fold s in HI.
    destruct HI as [_ Hpe Hfi _ _].
    split; [| split].
    + rewrite Hfi. unfold s. rewrite run_enqueued, Hacc. reflexivity.
    + exact Hpe.
    + apply no_flush_in_history.
Qed.

(** The scenario on the chat page. *)
Lemma image_then_text_witness :
  Content.calls
    (snd (fst (Content.finish
                 (Content.processMessage Content.CONFIG Examples.image_message
                    (Examples.world_of Examples.chat_page)))))
  = [Content.attachFile_fn] /\
  Content.calls
    (snd (fst (Content.finish
                 (Content.processMessage Content.CONFIG Examples.text_message
                    (Examples.world_of Examples.chat_page)))))
  = [Content.injectText_fn; Content.clickSend_fn].
Proof.
  destruct (@image_then_text Content.CONFIG Examples.image_message
              Examples.text_message eq_refl eq_refl eq_refl eq_refl eq_refl)
    as (Himage & Htext & _ & _).
  split.
  - exact (proj1 (Himage _ _ _ _
                    (finish_runs
                       (Content.processMessage Content.CONFIG
                          Examples.image_message
                          (Examples.world_of Examples.chat_page))))).
  - exact (proj1 (Htext _ _ _ _
                    (finish_runs
                       (Content.processMessage Content.CONFIG
                          Examples.text_message
                          (Examples.world_of Examples.chat_page))))).
Defined.

(** C1 as stated fails.  The pipeline of the chat page receives the
    captionless image and then the text, and runs until it is idle: the
    image is attached on its own turn, and on the turn of the text nothing
    is attached and no flush comes before the send -- there is nothing to
    flush, the collection of pending attachments is empty. *)
Lemma text_after_image_flushes_nothing :
  let s := Content.run Content.CONFIG (Content.boot Examples.chat_page)
             [ Content.Arrive Examples.image_message;
               Content.Arrive Examples.text_message;
               Content.Timer 0; Content.Timer 0; Content.Timer 0;
               Content.Timer 0; Content.Timer 0; Content.Timer 0 ] in
  Content.workers s = [] /\
  Content.calls (Content.ops_for 0 (Content.history s))
    = [Content.attachFile_fn] /\
  Content.calls (Content.ops_for 1 (Content.history s))
    = [Content.injectText_fn; Content.clickSend_fn] /\
  Content.pendingAttachments (Content.world s) = [] /\
  ~ Content.flushes_before_send (Content.ops_for 1 (Content.history s)).
Proof.
  intros s. split; [| split; [| split; [| split]]]; try reflexivity.
  intros (pre & mid & post & Heq).
  assert (Hin : In (Content.Enter Content.flushAttachments_fn)
                   (Content.ops_for 1 (Content.history s))).
  { rewrite Heq. apply in_or_app. right. now left. }
  vm_compute in Hin.
  repeat (destruct Hin as [Hin | Hin]; [discriminate |]).
  exact Hin.
Qed.

(** The cursor through one turn, and speech switched on in the middle of a
    stream of three characters. *)
Lemma transcript_cursor_witness :
  let p := {| TTS.innerText := lit "abc"; TTS.markdownBlocks := [];
              TTS.allBodies := [] |} in
  let doc := {| TTS.streaming :=
                  Some {| TTS.container := 7; TTS.progressive := Some p |};
                TTS.completed := []; TTS.responses := [] |} in
  let s := TTS.toggle doc TTS.initial in
  TTS.lastSpokenLength s = 3 /\
  TTS.lastSpokenLength s <=
    TTS.lastSpokenLength (TTS.observe_all [doc; doc] s).
Proof.
  intros p doc s.
  destruct (transcript_cursor doc TTS.initial) as (_ & _ & Hon & _).
  destruct (transcript_cursor doc s) as (_ & Hturn & _).
  split.
  - exact Hon.
  - apply (Hturn 7 [doc; doc]).
    + reflexivity.
    + reflexivity.
    + repeat constructor; exists {| TTS.container := 7;
                                    TTS.progressive := Some p |};
        split; reflexivity.
Defined.

(** C4 as stated fails: switching speech on from the disabled state while
    a response of three characters is streaming puts the cursor at 3, not
    at 0. *)
Lemma enabling_speech_marks_visible_text :
  let p := {| TTS.innerText := lit "abc"; TTS.markdownBlocks := [];
              TTS.allBodies := [] |} in
  let doc := {| TTS.streaming :=
                  Some {| TTS.container := 7; TTS.progressive := Some p |};
                TTS.completed := []; TTS.responses := [] |} in
  TTS.enabled TTS.initial = false /\
  TTS.enabled (TTS.toggle doc TTS.initial) = true /\
  TTS.lastSpokenLength (TTS.toggle doc TTS.initial) = 3 /\
  TTS.lastSpokenLength (TTS.toggle doc TTS.initial) <> 0.
Proof.
  repeat split. discriminate.
Qed.

(* ================================================================== *)
(** * Checks of the model on concrete inputs *)
(* ================================================================== *)

(** The accumulator, had it been called: one attachment is queued, the
    flush attaches it, empties the collection and returns the count. *)
Example accumulate_then_flush :
  let r := Content.finish
             (Content.bind
                (Content.accumulateAttachment Content.CONFIG (lit "aGk=")
                   (Some (lit "a.png")) (Some (lit "image/png"))
                   (Some (lit "Ana")))
                (fun _ => Content.flushAttachments Content.CONFIG 5)
                (Examples.world_of Examples.chat_page)) in
  snd r = Content.Returned 1 /\
  Content.pendingAttachments (fst (fst r)) = [] /\
  Content.calls (snd (fst r)) =
    [ Content.accumulateAttachment_fn; Content.flushAttachments_fn;
      Content.attachFile_fn ].
Proof. repeat split. Qed.

(** A text message from Ana: the composer receives the attributed text,
    and the send button is clicked after the 500 ms delay. *)
Example text_message_on_chat_page :
  let r := Content.finish
             (Content.processMessage Content.CONFIG Examples.text_message
                (Examples.world_of Examples.chat_page)) in
  let body := lit "[Ana]: hello" in
  Content.textContent (Content.page (fst (fst r))) 1 = body /\
  snd (fst r) =
    [ Content.Enter Content.injectText_fn;
      Content.Focus 1;
      Content.SetTextContent 1 body;
      Content.CaretToEnd 1;
      Content.DispatchEvent 1 (Content.InputEvent_insertText body);
      Content.DispatchEvent 1 Content.Event_input;
      Content.DispatchEvent 1 Content.Event_change;
      Content.DispatchEvent 1 (Content.KeyboardEvent_keydown "a");
      Content.DispatchEvent 1 (Content.KeyboardEvent_keyup "a");
      Content.Toast (Content.balloon ++ lit " Ana: hello...") Content.info;
      Content.Sleep 500;
      Content.Enter Content.clickSend_fn;
      Content.Click 2 ].
Proof. split; reflexivity. Qed.

(** [atob] on padded, unpadded and malformed input. *)
Example atob_samples :
  Content.atob (lit "aGk=") = Some [104; 105]%N /\
  Content.atob (lit "aGVsbG8") = Some [104; 101; 108; 108; 111]%N /\
  Content.atob (lit "a") = None /\
  Content.atob (lit "a*k=") = None.
Proof. repeat split. Qed.

(** A Russian sentence picks the Russian voice, a tie picks English. *)
Example voice_for_russian_text :
  let alex := {| TTS.voice_name := lit "Alex"; TTS.voice_lang := lit "en-US" |} in
  let milena := {| TTS.voice_name := lit "Milena"; TTS.voice_lang := lit "ru-RU" |} in
  TTS.pickVoiceForText TTS.TTS_LANGUAGES [alex; milena]
    [0x43f; 0x440; 0x438; 0x432; 0x435; 0x442; 32; 104; 105]%N
  = Some (Some milena) /\
  TTS.pickVoiceForText TTS.TTS_LANGUAGES [alex; milena]
    [0x43f; 0x440; 32; 104; 105]%N
  = Some (Some alex).
Proof. split; vm_compute; reflexivity. Qed.

(* ================================================================== *)
(** * Further properties of the relay *)
(* ================================================================== *)

Section Backoff.

Import Relay.

Variable cfg : Config.

Hypothesis base_nonneg : (0 <= reconnectDelay cfg)%Z.

Lemma reconnect_delay_bounded s :
  (0 <= reconnectAttempts s)%Z -> Bridge.within_ceiling cfg (reconnect_delay cfg s).
Proof.
  intros Ha. unfold Bridge.within_ceiling, reconnect_delay.
  assert (H1 : (1 <= 2 ^ reconnectAttempts s)%Z).
  { change 1%Z with (2 ^ 0)%Z at 1. apply Z.pow_le_mono_r; lia. }
  split; [| apply Z.le_min_r].
  apply Z.min_glb; [| apply Z.le_min_r].
  etransitivity; [apply Z.le_min_l |]. nia.
Qed.

Lemma scheduleReconnect_ok s : Bridge.backoff_ok cfg s -> Bridge.backoff_ok cfg (scheduleReconnect cfg s).
Proof.
  intros [Ha Ht]. split; simpl; [lia |].
  apply Forall_app. split; [exact Ht |].
  constructor; [now apply reconnect_delay_bounded | constructor].
Qed.

Lemma socket_step_ok s e : Bridge.backoff_ok cfg s -> Bridge.backoff_ok cfg (Bridge.socket_step cfg s e).
Proof.
  intros Hs. pose proof Hs as [Ha Ht]. destruct e as [ok | | | | ok]; simpl.
  - unfold connect. destruct (live s); [exact Hs |].
    destruct ok; [split; assumption |].
    apply scheduleReconnect_ok. split; assumption.
  - split; simpl; [lia | exact Ht].
  - split; assumption.
  - apply scheduleReconnect_ok. split; assumption.
  - unfold reconnect, connect. simpl.
    destruct ok; [split; simpl; [lia | exact Ht] |].
    apply scheduleReconnect_ok. split; simpl; [lia | exact Ht].
Qed.

Lemma socket_run_ok es s : Bridge.backoff_ok cfg s -> Bridge.backoff_ok cfg (Bridge.socket_run cfg s es).
Proof.
  revert s. induction es as [| e es IH]; intros s Hs; simpl; [exact Hs |].
  apply IH. now apply socket_step_ok.
Qed.

End Backoff.

(** X1.  Whatever happens to the socket -- connects, opens, errors,
    closes, explicit reconnects, in any order -- the attempt counter never
    goes below zero and every reconnect timer that is armed waits at least
    [min(base, max)] and at most [max]. *)
Theorem backoff_delays_bounded
    (cfg : Relay.Config) (es : list Bridge.SocketEvent) :
  (0 <= Relay.reconnectDelay cfg)%Z ->
  let s := Bridge.socket_run cfg Relay.initial es in
  (0 <= Relay.reconnectAttempts s)%Z /\
  Forall (fun d =>
            (Z.min (Relay.reconnectDelay cfg) (Relay.maxReconnectDelay cfg)
             <= d <= Relay.maxReconnectDelay cfg)%Z)
         (Relay.timers s).
Proof.
  intros Hbase s.
  apply (@socket_run_ok cfg Hbase es Relay.initial).
  split; [simpl; lia | constructor].
Qed.

Lemma backoff_delays_bounded_witness :
  Forall (fun d => (3000 <= d <= 30000)%Z)
         (Relay.timers
            (Bridge.socket_run Relay.CONFIG Relay.initial
               [ Bridge.Connect true; Bridge.Errored; Bridge.Closed;
                 Bridge.Connect false; Bridge.Connect true; Bridge.Closed;
                 Bridge.Reconnect true; Bridge.Opened; Bridge.Closed ])).
Proof.
  apply (@backoff_delays_bounded Relay.CONFIG
           [ Bridge.Connect true; Bridge.Errored; Bridge.Closed;
             Bridge.Connect false; Bridge.Connect true; Bridge.Closed;
             Bridge.Reconnect true; Bridge.Opened; Bridge.Closed ]).
  simpl. lia.
Defined.

(** X2.  The delay grows with the attempt counter and stops at the
    ceiling: more attempts never mean a shorter wait, and once
    [base * 2^attempts] has reached [max] the wait is [max] for good. *)
Theorem backoff_grows_to_ceiling
    (cfg : Relay.Config) (s s' : Relay.State) :
  (0 <= Relay.reconnectDelay cfg)%Z ->
  (0 <= Relay.reconnectAttempts s <= Relay.reconnectAttempts s')%Z ->
  (Relay.reconnect_delay cfg s <= Relay.reconnect_delay cfg s')%Z /\
  ((Relay.maxReconnectDelay cfg
    <= Relay.reconnectDelay cfg * 2 ^ Relay.reconnectAttempts s)%Z ->
   Relay.reconnect_delay cfg s' = Relay.maxReconnectDelay cfg).
Proof.
  intros Hbase [Ha Hab]. unfold Relay.reconnect_delay.
  assert (Hpow : (2 ^ Relay.reconnectAttempts s
                  <= 2 ^ Relay.reconnectAttempts s')%Z)
    by (apply Z.pow_le_mono_r; lia).
  assert (Hmul : (Relay.reconnectDelay cfg * 2 ^ Relay.reconnectAttempts s
                  <= Relay.reconnectDelay cfg
                     * 2 ^ Relay.reconnectAttempts s')%Z)
    by (apply Z.mul_le_mono_nonneg_l; assumption).
  split.
  - apply Z.min_le_compat_r. exact Hmul.
  - intros Hmax. apply Z.min_r. lia.
Qed.

(** With the shipped configuration the wait is 30 s from the fifth
    failure in a row on. *)
Lemma backoff_grows_to_ceiling_witness :
  let s4 := Relay.onclose Relay.CONFIG
              (Relay.onclose Relay.CONFIG
                 (Relay.onclose Relay.CONFIG
                    (Relay.onclose Relay.CONFIG (Relay.onopen Relay.initial)))) in
  let s7 := Relay.onclose Relay.CONFIG
              (Relay.onclose Relay.CONFIG (Relay.onclose Relay.CONFIG s4)) in
  Relay.reconnect_delay Relay.CONFIG s7 = 30000%Z.
Proof.
  intros s4 s7.
  apply (@backoff_grows_to_ceiling Relay.CONFIG s4 s7).
  - simpl. lia.
  - simpl. lia.
  - vm_compute. discriminate.
Defined.

Section Forwarding.

Import Bridge.

Variable cfg : Relay.Config.







End Forwarding.

(** X3.  A [ping] is answered and never handed on: the page side (port
    and tab) sees nothing of it, and the socket gets exactly one [pong]
    carrying the [ts] of the ping -- provided the socket is open; a ping
    that arrives while the socket cannot send is dropped without a
    pong. *)
Theorem ping_is_answered_not_forwarded
    (port_ok : bool) (tabs : list nat) (m : Bridge.Packet) (s : Bridge.State) :
  Bridge.is_ping m = true ->
  let s' := Bridge.onmessage port_ok tabs (Bridge.Parsed m) s in
  Bridge.posted s' = Bridge.posted s /\
  Bridge.tab_sent s' = Bridge.tab_sent s /\
  Bridge.contentScriptPort s' = Bridge.contentScriptPort s /\
  Bridge.wire s' =
    Bridge.wire s ++ (if Bridge.is_open s then [Bridge.OutPong (Bridge.pts m)]
                      else []).
Proof.
  intros Hp s'. unfold s', Bridge.onmessage.
  unfold Bridge.is_ping in Hp. rewrite Hp.
  destruct (Bridge.is_open s); simpl; rewrite ?app_nil_r; auto.
Qed.

Lemma ping_is_answered_not_forwarded_witness :
  let ping := {| Bridge.ptype := Some (lit "ping"); Bridge.pts := Some 17%Z;
                 Bridge.pbody := [] |} in
  let s := Bridge.run Relay.CONFIG Bridge.initial
             [ Bridge.Socket (Bridge.Connect true);
               Bridge.Socket Bridge.Opened;
               Bridge.PortConnect (lit "claude-bridge") 3 ] in
  Bridge.wire (Bridge.onmessage true [] (Bridge.Parsed ping) s)
  = [Bridge.OutPong (Some 17%Z)].
Proof.
  intros ping s.
  destruct (@ping_is_answered_not_forwarded true [] ping s eq_refl)
    as (_ & _ & _ & Hw).
  exact Hw.
Defined.


(** X5.  The global port is cleared by the disconnect of any bridge
    port: when a second page has attached after the first and the first
    one goes away, the relay is left without a port although the second is
    alive; the next message is not posted on it but goes to the tab
    fallback. *)
Theorem stale_disconnect_detaches_current
    (a b : nat) (s : Bridge.State) (ok : bool) (tabs : list nat)
    (m : Bridge.Packet) :
  Bridge.is_ping m = false ->
  let s1 := Bridge.port_onDisconnect
              (Bridge.onConnect (lit "claude-bridge") b
                 (Bridge.onConnect (lit "claude-bridge") a s)) in
  let s2 := Bridge.onmessage ok tabs (Bridge.Parsed m) s1 in
  Bridge.contentScriptPort s1 = None /\
  Bridge.posted s2 = Bridge.posted s1 /\
  Bridge.tab_sent s2 =
    Bridge.tab_sent s1 ++ match tabs with
                          | tab :: _ => [(tab, m)]
                          | [] => []
                          end.
Proof.
  intros Hp s1 s2. unfold s2, Bridge.onmessage.
  unfold Bridge.is_ping in Hp. rewrite Hp.
  unfold Bridge.handleServerMessage. simpl.
  destruct tabs; simpl; rewrite ?app_nil_r; auto.
Qed.

Lemma stale_disconnect_detaches_current_witness :
  let m := {| Bridge.ptype := Some (lit "message"); Bridge.pts := None;
              Bridge.pbody := lit "hello" |} in
  let s1 := Bridge.port_onDisconnect
              (Bridge.onConnect (lit "claude-bridge") 2
                 (Bridge.onConnect (lit "claude-bridge") 1 Bridge.initial)) in
  Bridge.tab_sent (Bridge.onmessage true [9] (Bridge.Parsed m) s1) = [(9, m)].
Proof.
  intros m s1.
  destruct (@stale_disconnect_detaches_current 1 2 Bridge.initial true [9] m
              eq_refl) as (_ & _ & Ht).
  exact Ht.
Defined.

(* ================================================================== *)
(** * Further properties of the queue worker *)
(* ================================================================== *)

Section Drain.

Import Content More.

Variable cfg : Config.

Lemma run_app s es es' : run cfg s (es ++ es') = run cfg (run cfg s es) es'.
Proof. unfold run. apply fold_left_app. Qed.

Lemma ticks_S n : ticks (S n) = Timer 0 :: ticks n.
Proof. reflexivity. Qed.

Lemma ticks_add a b : ticks (a + b) = ticks a ++ ticks b.
Proof. unfold ticks. apply repeat_app. Qed.

(** The [try] block comes to its end: a worker that has just been settled
    reaches the pause between two messages after finitely many timers,
    with the queue as it was. *)
Lemma settled_reaches_pause w0 (r : Async unit) :
  Safe pipeline_op w0 r ->
  forall id hist ar w' o st,
    settle cfg r = (w', o, st) ->
    exists n wk',
      let s1 := run cfg {| world := w';
                           workers := [{| current := id; wstate := st |}];
                           history := hist; arrivals := ar |} (ticks n) in
      workers s1 = [wk'] /\ wstate wk' = InPause /\
      messageQueue (world s1) = messageQueue w0.
Proof.
  induction 1 as [w0 w o a Hg Ho | w0 w o e Hg Ho | w0 w o ms k Hg Ho Hk IH];
    intros id hist ar w' o' st Hs; simpl in Hs; inversion Hs; subst; clear Hs.
  - exists 0, {| current := id; wstate := InPause |}. simpl.
    repeat split. apply Hg.
  - exists 0, {| current := id; wstate := InPause |}. simpl.
    repeat split. apply Hg.
  - destruct (settle cfg (k w')) as [[w1 o1] st1] eqn:Hs1.
    destruct (IH w' id (hist ++ map (Did id) o1) ar w1 o1 st1 Hs1)
      as (n & wk' & Hw & Hp & Hq).
    exists (S n), wk'. rewrite ticks_S.
    assert (Hfire : fire cfg 0
                      {| world := w';
                         workers := [{| current := id; wstate := InTry k |}];
                         history := hist; arrivals := ar |} =
                    {| world := w1;
                       workers := [{| current := id; wstate := st1 |}];
                       history := hist ++ map (Did id) o1; arrivals := ar |}).
    { unfold fire. simpl. unfold resume. simpl. now rewrite Hs1. }
    change (run cfg ?s (Timer 0 :: ?l)) with (run cfg (fire cfg 0 s) l).
    cbv zeta. rewrite Hfire.
    repeat split; [exact Hw | exact Hp |].
    transitivity (messageQueue w'); [exact Hq | apply Hg].
Qed.

Lemma worker_reaches_pause s wk :
  Inv s -> workers s = [wk] ->
  exists n wk',
    workers (run cfg s (ticks n)) = [wk'] /\ wstate wk' = InPause /\
    messageQueue (world (run cfg s (ticks n))) = messageQueue (world s).
Proof.
  intros HI Hw. destruct HI as [Hfl _ _ _ _]. rewrite Hw in Hfl.
  destruct Hfl as (_ & Hok & _). unfold worker_ok in Hok.
  destruct (wstate wk) as [k |] eqn:Hst.
  - destruct (settle cfg (k (world s))) as [[w1 o1] st1] eqn:Hs1.
    destruct (settled_reaches_pause (Hok (world s)) (current wk)
                (history s ++ map (Did (current wk)) o1) (arrivals s) Hs1)
      as (n & wk' & H1 & H2 & H3).
    exists (S n), wk'. rewrite ticks_S.
    assert (Hfire : fire cfg 0 s =
                    {| world := w1;
                       workers := [{| current := current wk; wstate := st1 |}];
                       history := history s ++ map (Did (current wk)) o1;
                       arrivals := arrivals s |}).
    { unfold fire. rewrite Hw. simpl. unfold resume. now rewrite Hst, Hs1. }
    change (run cfg s (Timer 0 :: ticks n)) with (run cfg (fire cfg 0 s) (ticks n)).
    rewrite Hfire. auto.
  - exists 0, wk. simpl. auto.
Qed.

Lemma drains q :
  forall s, Inv s -> messageQueue (world s) = q ->
            exists n, workers (run cfg s (ticks n)) = [].
Proof.
  induction q as [| x q IH]; intros s HI Hq.
  - destruct (workers s) as [| wk [| ? ?]] eqn:Hw.
    + exists 0. exact Hw.
    + destruct (worker_reaches_pause HI Hw) as (n & wk' & H1 & H2 & H3).
      exists (n + 1). rewrite ticks_add, run_app.
      set (s1 := run cfg s (ticks n)) in *. simpl.
      unfold fire. rewrite H1. simpl. unfold resume. rewrite H2.
      unfold loop_head. rewrite H3, Hq. reflexivity.
    + destruct HI as [Hfl _ _ _ _]. rewrite Hw in Hfl. contradiction.
  - destruct (workers s) as [| wk [| ? ?]] eqn:Hw.
    + exists 0. exact Hw.
    + destruct (worker_reaches_pause HI Hw) as (n & wk' & H1 & H2 & H3).
      set (s1 := run cfg s (ticks n)) in *.
      assert (HI1 : Inv s1) by (apply Inv_run; exact HI).
      assert (HI2 : Inv (step cfg s1 (Timer 0))) by (apply Inv_step; exact HI1).
      assert (Hq2 : messageQueue (world (step cfg s1 (Timer 0))) = q).
      { simpl. unfold fire. rewrite H1. simpl. unfold resume. rewrite H2.
        destruct (loop_head cfg (world s1)) as [[w' ev] o] eqn:Hl. simpl.
        destruct (loop_head_cases _ _ Hl)
          as [(Hq0 & _) | (id & m & q' & ops & wk2 & Hq0 & Hq' & _)].
        - rewrite H3, Hq in Hq0. discriminate.
        - rewrite H3, Hq in Hq0. injection Hq0 as _ <-. exact Hq'. }
      destruct (IH _ HI2 Hq2) as (n2 & Hn2).
      exists (n + (1 + n2)). rewrite ticks_add, run_app. fold s1.
      rewrite ticks_add, run_app. exact Hn2.
    + destruct HI as [Hfl _ _ _ _]. rewrite Hw in Hfl. contradiction.
Qed.

Lemma accepted_app es es' : accepted (es ++ es') = accepted es ++ accepted es'.
Proof. apply flat_map_app. Qed.

Lemma accepted_ticks n : accepted (ticks n) = [].
Proof. induction n; simpl; auto. Qed.

End Drain.

Section Completion.

Import Content More.

Variable cfg : Config.

Lemma ops_for_app id h h' :
  ops_for id (h ++ h') = ops_for id h ++ ops_for id h'.
Proof. apply flat_map_app. Qed.

Lemma ops_for_Did id id' o :
  ops_for id (map (Did id') o) = if Nat.eqb id' id then o else [].
Proof.
  induction o as [| op o IH]; simpl.
  - now destruct (Nat.eqb id' id).
  - fold (ops_for id (map (Did id') o)). rewrite IH.
    destruct (Nat.eqb id' id); reflexivity.
Qed.

Lemma ops_for_Logged id o : ops_for id (map Logged o) = [].
Proof. induction o; simpl; auto. Qed.

Lemma owners_dequeued h : forall cur,
  serial cur h = true ->
  Forall (fun i => cur = Some i \/ In i (map fst (dequeued h))) (owners h).
Proof.
  induction h as [| e h IH]; intros cur Hs; [constructor |].
  destruct e as [m | id m | id m | id op | op]; simpl in *.
  - now apply IH.
  - now apply IH.
  - eapply Forall_impl; [| exact (IH _ Hs)]. simpl.
    intros i [Hi | Hi]; right; [left | right; exact Hi].
    now injection Hi.
  - destruct cur as [c |]; [| discriminate].
    apply andb_true_iff in Hs. destruct Hs as [Hid Hs].
    apply Nat.eqb_eq in Hid. subst id.
    constructor; [now left | now apply IH].
  - now apply IH.
Qed.

Lemma ops_for_fresh id h : ~ In id (owners h) -> ops_for id h = [].
Proof.
  induction h as [| e h IH]; [reflexivity |].
  destruct e as [m | i m | i m | i op | op]; simpl; auto.
  intros Hn. destruct (Nat.eqb i id) eqn:E.
  - apply Nat.eqb_eq in E. exfalso. apply Hn. now left.
  - apply IH. intros Hin. apply Hn. now right.
Qed.

Lemma not_dequeued_fresh id h :
  serial None h = true -> ~ In id (map fst (dequeued h)) ->
  ops_for id h = [].
Proof.
  intros Hs Hn. apply ops_for_fresh. intros Hin.
  pose proof (owners_dequeued h None Hs) as Hall.
  rewrite Forall_forall in Hall.
  destruct (Hall _ Hin) as [H | H]; [discriminate | contradiction].
Qed.

Lemma processed_in_ext h h' l :
  (forall im, In im l -> ops_for (fst im) h' = ops_for (fst im) h) ->
  Forall (processed_in cfg h) l -> Forall (processed_in cfg h') l.
Proof.
  intros Hext H. rewrite Forall_forall in *. intros im Hin.
  unfold processed_in. rewrite (Hext im Hin). now apply H.
Qed.

Lemma toast_ops_report msg kind :
  forallb report_op (toast_ops cfg msg kind) = true.
Proof. unfold toast_ops. destruct (showNotifications cfg); reflexivity. Qed.

(** Settling a computation that is the rest of a run of [processMessage]
    either leaves a shorter rest or closes the turn. *)
Lemma settle_progress (r : Async unit) m d0 w' o st :
  (exists w0, forall d res,
       runs r d res -> runs (processMessage cfg m w0) (d0 ++ d) res) ->
  settle cfg r = (w', o, st) ->
  match st with
  | InTry k => in_progress cfg m (d0 ++ o) k
  | InPause => processed cfg m (d0 ++ o)
  end.
Proof.
  intros (w0 & Hr) Hs.
  destruct r as [w o1 a | w o1 e | w o1 ms k]; simpl in Hs;
    inversion Hs; subst; clear Hs.
  - exists w0, (d0 ++ o1), w', (Returned a), [].
    split; [apply Hr; constructor |].
    split; [now rewrite <- app_assoc |]. split; [reflexivity | auto].
  - exists w0, (d0 ++ o1), w', (Raised e),
           (toast_ops cfg (lit "Error: " ++ e) error).
    split; [apply Hr; constructor |].
    split; [now rewrite <- app_assoc |].
    split; [apply toast_ops_report | discriminate].
  - exists w0. intros w2 d' res H. rewrite <- app_assoc. apply Hr.
    econstructor. eassumption.
Qed.

Lemma ids_distinct h q n :
  dequeued h ++ q = enqueued h ->
  map fst (enqueued h) = seq 0 n ->
  NoDup (map fst (dequeued h) ++ map fst q).
Proof.
  intros Hf Hi. rewrite <- map_app, Hf, Hi. apply seq_NoDup.
Qed.

Lemma Completion_ext s s' :
  workers s' = workers s ->
  dequeued (history s') = dequeued (history s) ->
  (forall id, ops_for id (history s') = ops_for id (history s)) ->
  map fst (enqueued (history s')) = seq 0 (arrivals s') ->
  Completion cfg s -> Completion cfg s'.
Proof.
  intros Hw Hd Ho Hi [_ Hc]. constructor; [exact Hi |].
  rewrite Hw, Hd. destruct (workers s) as [| wk [| ? ?]]; [| | exact Hc].
  - eapply processed_in_ext; [| exact Hc]. intros. apply Ho.
  - destruct Hc as (pre & m & Hdq & Hpre & Hst).
    exists pre, m. split; [exact Hdq |]. split.
    + eapply processed_in_ext; [| exact Hpre]. intros. apply Ho.
    + rewrite Ho. exact Hst.
Qed.

Lemma Completion_boot p : Completion cfg (boot p).
Proof. constructor; simpl; constructor. Qed.

Lemma Completion_after_loop_head w h n w' ev o :
  map fst (enqueued h) = seq 0 n ->
  dequeued h ++ messageQueue w = enqueued h ->
  serial None h = true ->
  Forall (processed_in cfg h) (dequeued h) ->
  loop_head cfg w = (w', ev, o) ->
  Completion cfg {| world := w'; workers := option_list o;
                    history := h ++ ev; arrivals := n |}.
Proof.
  intros Hi Hf Hs Hall Hl. unfold loop_head in Hl.
  destruct (messageQueue w) as [| [id m] q] eqn:Hq.
  - inversion Hl; subst. constructor; simpl; rewrite app_nil_r; auto.
  - destruct (settle cfg (processMessage cfg m (with_queue q w)))
      as [[w1 ops] st] eqn:Hst.
    inversion Hl; subst; clear Hl.
    pose proof (@ids_distinct _ _ _ Hf Hi) as Hnd. simpl in Hnd.
    apply NoDup_remove_2 in Hnd.
    assert (Hfresh : ~ In id (map fst (dequeued h))).
    { intros Hin. apply Hnd. apply in_or_app. now left. }
    assert (Hid : ops_for id h = []) by now apply not_dequeued_fresh.
    assert (Hev : forall i,
               ops_for i (h ++ Dequeued id m :: map (Did id) ops)
               = ops_for i h ++ if Nat.eqb id i then ops else []).
    { intros i. rewrite ops_for_app. f_equal.
      change (Dequeued id m :: map (Did id) ops)
        with ([Dequeued id m] ++ map (Did id) ops).
      rewrite ops_for_app. apply ops_for_Did. }
    constructor; simpl.
    + rewrite enqueued_app. simpl. rewrite enqueued_Did, app_nil_r.
      exact Hi.
    + exists (dequeued h), m. split; [| split].
      * rewrite dequeued_app. simpl. now rewrite dequeued_Did.
      * eapply processed_in_ext; [| exact Hall]. intros im Hin.
        rewrite Hev. destruct (Nat.eqb id (fst im)) eqn:E;
          [| apply app_nil_r].
        apply Nat.eqb_eq in E. exfalso. apply Hfresh. rewrite E.
        now apply in_map.
      * rewrite Hev, Hid, Nat.eqb_refl.
        apply settle_progress
          with (r := processMessage cfg m (with_queue q w)) (w' := w');
          [| exact Hst].
        exists (with_queue q w). intros d res H. exact H.
Qed.

Lemma Completion_handleMessage m s :
  Inv s -> Completion cfg s -> Completion cfg (handleMessage cfg m s).
Proof.
  intros [Hfl Hpe Hfi Hse Hop] HC. pose proof HC as [Hi Hc].
  unfold handleMessage. destruct (negb (is_lit (type m) "message")).
  - apply Completion_ext with (s := s); simpl; auto.
    + rewrite !dequeued_app, dequeued_Logged. simpl. now rewrite !app_nil_r.
    + intros id. rewrite !ops_for_app, ops_for_Logged. simpl.
      now rewrite !app_nil_r.
    + rewrite !enqueued_app, enqueued_Logged. simpl.
      now rewrite !app_nil_r.
  - assert (Hi' : map fst (enqueued (history s ++ [Enqueued (arrivals s) m]))
                  = seq 0 (S (arrivals s))).
    { rewrite enqueued_app, map_app, Hi, seq_S. reflexivity. }
    assert (Hd' : dequeued (history s ++ [Enqueued (arrivals s) m])
                  = dequeued (history s)).
    { rewrite dequeued_app. simpl. now rewrite app_nil_r. }
    assert (Ho' : forall id,
               ops_for id (history s ++ [Enqueued (arrivals s) m])
               = ops_for id (history s)).
    { intros id. rewrite ops_for_app. simpl. now rewrite app_nil_r. }
    unfold processQueue. simpl.
    destruct (workers s) as [| wk [| ? ?]] eqn:Hw; [| | contradiction].
    + destruct Hfl as (Hp & Hq). rewrite Hp, Hq. simpl.
      destruct (loop_head cfg
                  (with_processing true
                     (with_queue [(arrivals s, m)] (world s))))
        as [[w' ev] o] eqn:Hl.
      apply (@Completion_after_loop_head _
               (history s ++ [Enqueued (arrivals s) m])
               (S (arrivals s)) _ _ _) in Hl; auto.
      * rewrite Hd', enqueued_app. simpl. rewrite <- Hfi, Hq, app_nil_r.
        reflexivity.
      * rewrite serial_app, Hse. reflexivity.
      * rewrite Hd'. eapply processed_in_ext; [| exact Hc].
        intros. apply Ho'.
    + destruct Hfl as (Hp & Hok & Hcur). rewrite Hp. simpl.
      apply Completion_ext with (s := s); simpl; auto.
Qed.

Lemma Completion_fire i s :
  Inv s -> Completion cfg s -> Completion cfg (fire cfg i s).
Proof.
  intros [Hfl Hpe Hfi Hse Hop] HC. pose proof HC as [Hi Hc]. unfold fire.
  destruct (workers s) as [| wk [| ? ?]] eqn:Hw; [| | contradiction].
  - destruct i; exact HC.
  - destruct i as [| i]; simpl; [| destruct i; exact HC].
    destruct Hc as (pre & m & Hdq & Hpre & Hst).
    unfold resume. destruct (wstate wk) as [k |] eqn:Hws.
    + destruct (settle cfg (k (world s))) as [[w1 ops] st] eqn:Hs1.
      assert (Hev : forall id,
                 ops_for id (history s ++ map (Did (current wk)) ops)
                 = ops_for id (history s)
                   ++ if Nat.eqb (current wk) id then ops else []).
      { intros id. rewrite ops_for_app. f_equal. apply ops_for_Did. }
      assert (Hnd : ~ In (current wk) (map fst pre)).
      { pose proof (@ids_distinct _ _ _ Hfi Hi) as Hnd.
        apply NoDup_app_remove_r in Hnd.
        rewrite Hdq, map_app in Hnd. simpl in Hnd.
        apply NoDup_remove_2 in Hnd. now rewrite app_nil_r in Hnd. }
      constructor; simpl.
      * rewrite enqueued_app, enqueued_Did, app_nil_r. exact Hi.
      * exists pre, m. split; [| split].
        -- rewrite dequeued_app, dequeued_Did, app_nil_r. exact Hdq.
        -- eapply processed_in_ext; [| exact Hpre]. intros im Hin.
           rewrite Hev. destruct (Nat.eqb (current wk) (fst im)) eqn:E;
             [| apply app_nil_r].
           apply Nat.eqb_eq in E. exfalso. apply Hnd. rewrite E.
           now apply in_map.
        -- rewrite Hev, Nat.eqb_refl.
           apply settle_progress with (r := k (world s)) (w' := w1);
             [| exact Hs1].
           destruct Hst as (w0 & Hk). exists w0. intros d res H.
           now apply Hk with (w := world s).
    + destruct (loop_head cfg (world s)) as [[w' ev] o] eqn:Hl.
      simpl. rewrite app_nil_r.
      apply (@Completion_after_loop_head (world s) (history s) (arrivals s));
        auto.
      rewrite Hdq. apply Forall_app. split; [exact Hpre |].
      constructor; [exact Hst | constructor].
Qed.

Lemma Completion_step i s :
  Inv s -> Completion cfg s -> Completion cfg (step cfg s i).
Proof.
  intros HI HC. destruct i as [m | n | f]; simpl.
  - now apply Completion_handleMessage.
  - now apply Completion_fire.
  - apply Completion_ext with (s := s); simpl; auto. apply HC.
Qed.

Lemma Completion_run inputs : forall s,
  Inv s -> Completion cfg s -> Completion cfg (run cfg s inputs).
Proof.
  induction inputs as [| i inputs IH]; intros s HI HC; simpl.
  - exact HC.
  - apply IH; [now apply Inv_step | now apply Completion_step].
Qed.

End Completion.

(** C2.  Whatever the order in which messages arrive, timers fire and the
    host page changes, the script has at most one invocation of
    [processQueue] alive; messages leave the queue in the order in which
    they were accepted; every operation on the page is done on behalf of
    the message dequeued last, so the operations of one message are over
    -- delays included -- before the next message is dequeued, and the
    operations of two messages never interleave.  Every message dequeued
    before the last one has had its whole turn: a run of [processMessage]
    to its end, the report of the error if it threw, and the pause of
    300 ms.
    And the worker gets there: once its timers have fired often enough,
    it is idle, the queue is empty, and every accepted message has been
    dequeued, in arrival order, and has had its whole turn. *)
Theorem pipeline_single_flight_fifo
    (cfg : Content.Config) (p : Content.Page) (inputs : list Content.Input) :
  let s := Content.run cfg (Content.boot p) inputs in
  let h := Content.history s in
  List.length (Content.workers s) <= 1 /\
  (Content.isProcessing (Content.world s) = true <->
   List.length (Content.workers s) = 1) /\
  Content.dequeued h ++ Content.messageQueue (Content.world s) =
    combine (seq 0 (List.length (Content.accepted inputs)))
            (Content.accepted inputs) /\
  Content.serial None h = true /\
  StronglySorted le (Content.owners h) /\
  Forall (More.processed_in cfg h) (removelast (Content.dequeued h)) /\
  exists n,
    let s' := Content.run cfg s (More.ticks n) in
    Content.workers s' = [] /\
    Content.isProcessing (Content.world s') = false /\
    Content.messageQueue (Content.world s') = [] /\
    Content.dequeued (Content.history s') =
      combine (seq 0 (List.length (Content.accepted inputs)))
              (Content.accepted inputs) /\
    Forall (More.processed_in cfg (Content.history s'))
           (Content.dequeued (Content.history s')).
Proof.
  intros s h.
  pose proof (Inv_run cfg inputs (Inv_boot p)) as HI.
  pose proof (Completion_run inputs (Inv_boot p) (Completion_boot cfg p))
    as HC.
  fold s in HI, HC.
  assert (Hq : Content.dequeued h ++ Content.messageQueue (Content.world s) =
               combine (seq 0 (List.length (Content.accepted inputs)))
                       (Content.accepted inputs)).
  { unfold h. rewrite (Content.inv_fifo HI). unfold s.
    rewrite run_enqueued. reflexivity. }
  split; [| split; [| split; [| split; [| split; [| split]]]]].
  - pose proof (Content.inv_flight HI) as Hfl.
    destruct (Content.workers s) as [| wk [| ? ?]]; simpl;
      [lia | lia | contradiction].
  - pose proof (Content.inv_flight HI) as Hfl.
    destruct (Content.workers s) as [| wk [| ? ?]]; simpl;
      [| | contradiction].
    + destruct Hfl as [Hp _]. rewrite Hp. split; discriminate.
    + destruct Hfl as [Hp _]. rewrite Hp. split; reflexivity.
  - exact Hq.
  - exact (Content.inv_serial HI).
  - apply (f_equal (map fst)) in Hq.
    rewrite map_app, fst_combine_seq in Hq.
    apply prefix_of_seq in Hq.
    destruct (@serial_sorted h None 0 _ (Content.inv_serial HI) Hq)
      as [Hsorted _]; [discriminate | exact Hsorted].
  - pose proof (More.comp_work HC) as Hc. fold h in Hc.
    destruct (Content.workers s) as [| wk [| ? ?]]; [| | contradiction].
    + rewrite Forall_forall in *. intros im Hin. apply Hc.
      destruct (Content.dequeued h) as [| x l]; [contradiction |].
      assert (Hne : x :: l <> []) by discriminate.
      rewrite (app_removelast_last x Hne). apply in_or_app. now left.
    + destruct Hc as (pre & m & -> & Hpre & _).
      now rewrite removelast_last.
  - destruct (@drains cfg _ _ HI eq_refl) as (n & Hn).
    exists n. intros s'.
    pose proof (Inv_run cfg (More.ticks n) HI) as HI'.
    pose proof (Completion_run (More.ticks n) HI HC) as HC'.
    fold s' in HI', HC'.
    assert (Hw : Content.workers s' = []) by exact Hn.
    pose proof (Content.inv_flight HI') as Hfl.
    pose proof (More.comp_work HC') as Hc.
    rewrite Hw in Hfl, Hc. destruct Hfl as [Hp Hq'].
    split; [exact Hw |]. split; [exact Hp |]. split; [exact Hq' |].
    split; [| exact Hc].
    pose proof (Content.inv_fifo HI') as Hfi.
    rewrite Hq', app_nil_r in Hfi. rewrite Hfi.
    unfold s', s. rewrite <- run_app, run_enqueued.
    now rewrite accepted_app, accepted_ticks, app_nil_r.
Qed.


(** X6.  The queue always drains.  After any sequence of arrivals, timer
    firings and page changes, a finite number of further timer firings
    brings the worker back to idle with the queue empty and every accepted
    message dequeued, in arrival order -- whatever the page looks like and
    whichever messages failed on the way: a message that throws does not
    stop the ones behind it. *)
Theorem queue_always_drains
    (cfg : Content.Config) (p : Content.Page) (inputs : list Content.Input) :
  exists n,
    let s := Content.run cfg (Content.boot p) (inputs ++ More.ticks n) in
    Content.workers s = [] /\
    Content.isProcessing (Content.world s) = false /\
    Content.messageQueue (Content.world s) = [] /\
    Content.dequeued (Content.history s) =
      combine (seq 0 (List.length (Content.accepted inputs)))
              (Content.accepted inputs).
Proof.
  pose proof (Inv_run cfg inputs (Inv_boot p)) as HI.
  destruct (@drains cfg _ _ HI eq_refl) as (n & Hn).
  exists n. intros s.
  assert (Hs : s = Content.run cfg
                     (Content.run cfg (Content.boot p) inputs)
                     (More.ticks n))
    by (unfold s; apply run_app).
  pose proof (Inv_run cfg (inputs ++ More.ticks n) (Inv_boot p)) as HI'.
  fold s in HI'. destruct HI' as [Hfl _ Hfi _ _].
  assert (Hw : Content.workers s = []) by (rewrite Hs; exact Hn).
  rewrite Hw in Hfl. destruct Hfl as [Hp Hq].
  rewrite Hq, app_nil_r in Hfi.
  repeat split; [exact Hw | exact Hp | exact Hq |].
  rewrite Hfi. unfold s. rewrite run_enqueued.
  now rewrite accepted_app, accepted_ticks, app_nil_r.
Qed.

(* ================================================================== *)
(** * Further properties of message processing *)
(* ================================================================== *)

Section Processing.

Import Content More.

Variable cfg : Config.

Lemma processMessage_no_send_when_off m :
  autoSend cfg = false -> MSafe no_send (processMessage cfg m).
Proof.
  intros Hoff. unfold processMessage. rewrite Hoff.
  destruct (truthy (file_data m) && is_file_type (content_type m));
    [| destruct (is_text_type (content_type m))].
  - apply MSafe_bind; [apply attachFile_no_send | intros _].
    apply MSafe_bind; [apply showToast_no_send | intros _].
    destruct (truthy (caption m)); [| apply MSafe_ret].
    apply MSafe_bind; [apply injectText_no_send | intros _].
    apply MSafe_bind; [apply toast_preview_no_send | intros _].
    apply MSafe_ret.
  - apply MSafe_bind; [apply injectText_no_send | intros _].
    apply MSafe_bind; [apply toast_preview_no_send | intros _].
    apply MSafe_ret.
  - apply MSafe_ret.
Qed.

Lemma locate_usable p usable sels e :
  locate p usable sels = Some e ->
  usable e = true /\ exists sel, In sel sels /\ querySelector p sel = QFound e.
Proof.
  induction sels as [| sel rest IH]; simpl; [discriminate |].
  destruct (querySelector p sel) as [el | |] eqn:Hq.
  - destruct (usable el) eqn:Hu.
    + intros H. injection H as <-. split; [exact Hu |]. exists sel. auto.
    + intros H. destruct (IH H) as (? & sel' & ? & ?). split; eauto.
  - intros H. destruct (IH H) as (? & sel' & ? & ?). split; eauto.
  - intros H. destruct (IH H) as (? & sel' & ? & ?). split; eauto.
Qed.

Lemma locate_set_textContent p e s usable sels :
  locate (set_textContent e s p) usable sels = locate p usable sels.
Proof.
  induction sels as [| sel rest IH]; simpl; [reflexivity |].
  unfold querySelector, querySelectorAll in *. simpl.
  destruct (uses_has sel && negb (supports_has p)); [exact IH |].
  destruct (matches p sel) as [| el ?]; [exact IH |].
  now rewrite IH.
Qed.

Lemma textContent_injected w e s :
  textContent (page (with_page (set_textContent e s (page w)) w)) e = s.
Proof. simpl. now rewrite Nat.eqb_refl. Qed.

Lemma clicked_locator_ops ops :
  forallb locator_op ops = true -> clicked ops = [].
Proof.
  induction ops as [| op ops IH]; simpl; [reflexivity |].
  intros H. apply andb_true_iff in H. destruct H as [Hop Hops].
  destruct op; try discriminate; simpl; auto.
Qed.

End Processing.

(** X7.  With auto-send off nothing is ever sent: no run of the
    processing of any message, on any page, enters [clickSend] or clicks
    an element. *)
Theorem auto_send_off_never_sends
    (cfg : Content.Config) (m : Content.Message) (w : Content.World)
    (d : list Content.Op) (w' : Content.World) (res : Content.Result unit) :
  Content.autoSend cfg = false ->
  Content.runs (Content.processMessage cfg m w) d (w', res) ->
  forallb Content.no_send d = true /\ More.clicked d = [].
Proof.
  intros Hoff Hrun.
  assert (H : forallb Content.no_send d = true).
  { revert Hrun. apply Safe_runs with (w0 := w).
    now apply processMessage_no_send_when_off. }
  split; [exact H |].
  clear Hrun. induction d as [| op d IH]; simpl; [reflexivity |].
  simpl in H. apply andb_true_iff in H. destruct H as [Hop Hd].
  destruct op; simpl; auto. discriminate.
Qed.

Lemma auto_send_off_never_sends_witness :
  More.clicked
    (snd (fst (Content.finish
                 (Content.processMessage
                    {| Content.attributionPrefix := true;
                       Content.autoSend := false;
                       Content.messageDelay := 500;
                       Content.attachmentDelay := 2000;
                       Content.showNotifications := true;
                       Content.debug := true |}
                    Examples.text_message
                    (Examples.world_of Examples.chat_page))))) = [].
Proof.
  refine (proj2 _).
  eapply auto_send_off_never_sends; [| apply finish_runs]. reflexivity.
Defined.

(** X8.  A text message that has no [text] is never sent.  With the
    attribution prefix on, ["[sender]: undefined"] is put into the input
    field and the processing then throws a [TypeError] before the send;
    with the prefix off it throws before it touches the page. *)
Theorem text_message_without_text
    (cfg : Content.Config) (m : Content.Message) (w : Content.World)
    (el : Content.Elem) :
  Content.is_text_type (Content.content_type m) = true ->
  Content.text m = None ->
  Content.locate (Content.page w) (fun _ => true) Content.input_selectors
    = Some el ->
  if Content.attributionPrefix cfg then
    exists w' ops,
      Content.processMessage cfg m w = Content.Thrown w' ops (lit "TypeError") /\
      Content.textContent (Content.page w') el =
        Content.injected (Content.textContent (Content.page w) el)
          (lit "[" ++ to_str (Content.sender m) ++ lit "]: undefined") /\
      forallb Content.no_send ops = true
  else
    Content.processMessage cfg m w =
      Content.Thrown w [Content.Enter Content.injectText_fn] (lit "TypeError").
Proof.
  intros Htype Htext Hloc. unfold Content.processMessage.
  rewrite (text_type_not_file_type _ Htype), andb_false_r, Htype.
  unfold Content.attributed, Content.toast_preview. rewrite Htext.
  destruct (Content.attributionPrefix cfg).
  - eexists _, _. unfold Content.bind at 1.
    rewrite (injectText_found cfg _ _ Hloc).
    split; [reflexivity |]. split; [| reflexivity].
    apply textContent_injected.
  - reflexivity.
Qed.

Lemma text_message_without_text_witness :
  exists w' ops,
    Content.processMessage Content.CONFIG
      (Examples.message_of "text" None None None)
      (Examples.world_of Examples.chat_page)
    = Content.Thrown w' ops (lit "TypeError") /\
    Content.textContent (Content.page w') 1 = lit "[Ana]: undefined".
Proof.
  destruct (@text_message_without_text Content.CONFIG
              (Examples.message_of "text" None None None)
              (Examples.world_of Examples.chat_page) 1
              eq_refl eq_refl eq_refl) as (w' & ops & Hrun & Htext & _).
  exists w', ops. split; [exact Hrun | exact Htext].
Defined.

(** X9.  A message of a file type whose payload is missing or empty is
    ignored whole: nothing is attached, and its caption is not injected
    either. *)
Theorem file_message_without_payload
    (cfg : Content.Config) (m : Content.Message) (w : Content.World) :
  Content.is_file_type (Content.content_type m) = true ->
  truthy (Content.file_data m) = false ->
  Content.processMessage cfg m w = Content.Done w [] tt.
Proof.
  intros Htype Hdata. unfold Content.processMessage.
  rewrite Hdata. simpl.
  destruct (Content.is_text_type (Content.content_type m)) eqn:Ht;
    [| reflexivity].
  apply text_type_not_file_type in Ht. congruence.
Qed.

Lemma file_message_without_payload_witness :
  Content.processMessage Content.CONFIG
    (Examples.message_of "image" None (Some (lit "look")) (Some []))
    (Examples.world_of Examples.chat_page)
  = Content.Done (Examples.world_of Examples.chat_page) [] tt.
Proof.
  apply file_message_without_payload; reflexivity.
Defined.

(** X10.  Injections compose: a second injection finds the field the
    first one found and appends to what the first one left, so two texts
    in a row end up on two lines of the same draft. *)
Theorem injections_compose
    (cfg : Content.Config) (w : Content.World) (t1 t2 : jsstring)
    (el : Content.Elem) :
  Content.locate (Content.page w) (fun _ => true) Content.input_selectors
    = Some el ->
  exists w2 ops,
    Content.bind (Content.injectText cfg (Some t1))
                 (fun _ => Content.injectText cfg (Some t2)) w
      = Content.Done w2 ops tt /\
    Content.textContent (Content.page w2) el =
      Content.injected
        (Content.injected (Content.textContent (Content.page w) el) t1) t2 /\
    (Content.textContent (Content.page w) el = [] -> t1 <> [] ->
     Content.textContent (Content.page w2) el = t1 ++ Content.newline ++ t2).
Proof.
  intros Hloc.
  pose proof (injectText_found cfg _ t1 Hloc) as H1.
  set (E := Content.textContent (Content.page w) el) in *.
  set (w1 := Content.with_page _ w) in H1.
  assert (Hloc1 : Content.locate (Content.page w1) (fun _ => true)
                                 Content.input_selectors = Some el).
  { unfold w1. cbn [Content.page Content.with_page].
    now rewrite locate_set_textContent. }
  pose proof (injectText_found cfg _ t2 Hloc1) as H2.
  assert (HE1 : Content.textContent (Content.page w1) el
                = Content.injected E t1).
  { unfold w1. apply textContent_injected. }
  rewrite HE1 in H2.
  eexists _, _. unfold Content.bind. rewrite H1. cbn [Content.bindA].
  rewrite H2. unfold Content.prepend.
  split; [reflexivity |]. split.
  - apply textContent_injected.
  - intros HE Ht1. rewrite textContent_injected, HE.
    destruct t1; [congruence | reflexivity].
Qed.

Lemma injections_compose_witness :
  exists w2 ops,
    Content.bind (Content.injectText Content.CONFIG (Some (lit "one")))
                 (fun _ => Content.injectText Content.CONFIG (Some (lit "two")))
                 (Examples.world_of Examples.chat_page)
      = Content.Done w2 ops tt /\
    Content.textContent (Content.page w2) 1 = lit "one" ++ [10%N] ++ lit "two".
Proof.
  destruct (@injections_compose Content.CONFIG
              (Examples.world_of Examples.chat_page) (lit "one") (lit "two") 1
              eq_refl) as (w2 & ops & Hrun & _ & Htext).
  exists w2, ops. split; [exact Hrun |].
  apply Htext; [reflexivity | discriminate].
Defined.

(** X11.  When no selector finds the input field, [injectText] throws
    ['Input field not found'] and leaves the page as it was: it has only
    logged the miss and enumerated the candidates. *)
Theorem injectText_without_field
    (cfg : Content.Config) (w : Content.World) (t : jsstring) :
  Content.locate (Content.page w) (fun _ => true) Content.input_selectors
    = None ->
  Content.injectText cfg (Some t) w =
    Content.Thrown w
      ([Content.Enter Content.injectText_fn]
       ++ Content.debug_ops cfg
            "ERROR: Could not find input field with any selector"
       ++ [Content.Scan Content.InputTarget
             (Content.enumerate (Content.page w)
                Content.input_debug_selectors)])
      (lit "Input field not found").
Proof.
  intros Hloc.
  assert (Hget : Content.getInputField cfg w =
                 Content.Done w
                   (Content.debug_ops cfg
                      "ERROR: Could not find input field with any selector"
                    ++ [Content.Scan Content.InputTarget
                          (Content.enumerate (Content.page w)
                             Content.input_debug_selectors)])
                   None).
  { unfold Content.getInputField.
    rewrite getInputField_from_spec by reflexivity. now rewrite Hloc. }
  unfold Content.injectText. rewrite bind_emit. unfold Content.bind at 1.
  rewrite Hget. simpl. now rewrite app_nil_r.
Qed.

Lemma injectText_without_field_witness :
  exists ops,
    Content.injectText Content.CONFIG (Some (lit "hi"))
      (Examples.world_of Examples.blank_page)
    = Content.Thrown (Examples.world_of Examples.blank_page) ops
        (lit "Input field not found").
Proof.
  eexists.
  apply (@injectText_without_field Content.CONFIG
           (Examples.world_of Examples.blank_page) (lit "hi")).
  reflexivity.
Defined.

(* ================================================================== *)
(** * Further properties of the attachment and send steps *)
(* ================================================================== *)

Section Attaching.

Import Content More.

Variable cfg : Config.

Lemma getDropZone_done w :
  exists pre,
    getDropZone cfg w = Done w pre (drop_target (page w)) /\
    forallb locator_op pre = true.
Proof.
  unfold getDropZone, drop_target.
  rewrite (getDropZone_from_spec cfg drop_selectors w eq_refl).
  destruct (locate _ _ _).
  - exists []. split; reflexivity.
  - eexists. split; [reflexivity |].
    unfold debug_ops. destruct (debug cfg); reflexivity.
Qed.

End Attaching.

Lemma attachFile_runs_inv
    (cfg : Content.Config) (data : jsstring) (name mime : jsval)
    (w : Content.World) (d : list Content.Op) (w' : Content.World)
    (res : Content.Result unit) :
  Content.runs (Content.attachFile cfg data name mime w) d (w', res) ->
  match Content.atob data with
  | None =>
      d = [Content.Enter Content.attachFile_fn] /\
      res = Content.Raised (lit "InvalidCharacterError") /\ w' = w
  | Some bytes =>
      let f := {| Content.fileName := to_usv (to_str name);
                  Content.fileType := Content.file_type mime;
                  Content.fileBytes := bytes |} in
      let dz := More.drop_target (Content.page w) in
      res = Content.Returned tt /\
      exists pre mid,
        d = Content.Enter Content.attachFile_fn
            :: pre
            ++ [ Content.DispatchEvent dz (Content.DragEvent_dragenter f);
                 Content.Sleep 50;
                 Content.DispatchEvent dz (Content.DragEvent_dragover f);
                 Content.Sleep 50;
                 Content.DispatchEvent dz (Content.DragEvent_drop f) ]
            ++ mid ++ [Content.Sleep 200] /\
        forallb Content.locator_op pre = true /\
        (mid = [] \/
         exists fi,
           mid = [ Content.SetFiles fi f;
                   Content.DispatchEvent fi Content.Event_change;
                   Content.DispatchEvent fi Content.Event_input ])
  end.
Proof.
  intros H. unfold Content.attachFile in H. rewrite bind_emit in H.
  apply runs_prepend_inv in H. destruct H as (d' & -> & H).
  destruct (Content.atob data) as [bytes |].
  2: { inversion H; subst. auto. }
  destruct (getDropZone_done cfg w) as (pre & Hdz & Hpre).
  unfold Content.bind at 1 in H. apply runs_bind_inv in H.
  set (dz := More.drop_target (Content.page w)) in *.
  destruct H as [(d1 & w1 & a & d2 & H1 & H2 & ->) | (w1 & e & H1 & Hres)].
  - unfold Content.try_catch, Content.bind at 1 in H1. rewrite Hdz in H1.
    simpl in H1.
    inversion H1 as [| | ? ? ? ? wa da ? Ha]; subst; clear H1.
    inversion Ha as [| | ? ? ? ? wb db ? Hb]; subst; clear Ha.
    inversion Hb; subst; clear Hb.
    unfold Content.bind at 1 in H2. apply runs_bind_inv in H2.
    destruct H2 as [(d3 & w3 & a3 & d4 & H3 & H4 & ->) | (w3 & e & H3 & Hres)].
    + apply runs_sleep_inv in H4. destruct H4 as (-> & w4 & Hw4).
      injection Hw4 as -> ->. intros f. split; [reflexivity |].
      exists pre, d3. split; [| split; [exact Hpre |]].
      * simpl. rewrite <- !app_assoc. reflexivity.
      * unfold Content.try_catch, Content.bind at 1 in H3.
        rewrite getFileInput_spec in H3.
        destruct (match find _ _ with Some i => Some i | None => _ end)
          as [fi |]; simpl in H3; inversion H3; subst; eauto.
    + exfalso. unfold Content.try_catch, Content.bind at 1 in H3.
      rewrite getFileInput_spec in H3.
      destruct (match find _ _ with Some i => Some i | None => _ end)
        as [fi |]; simpl in H3; inversion H3.
  - exfalso. unfold Content.try_catch, Content.bind at 1 in H1.
    rewrite Hdz in H1. simpl in H1.
    inversion H1 as [| | ? ? ? ? wa da ? Ha]; subst; clear H1.
    inversion Ha as [| | ? ? ? ? wb db ? Hb]; subst; clear Ha.
    inversion Hb.
Qed.




(** The file that run drops: the type [Image/PNG] has become
    [image/png]. *)
Example attachFile_lowers_the_type :
  More.dropped
    (snd (fst (Content.finish
                 (Content.attachFile Content.CONFIG (lit "aGk=")
                    (Some (lit "a.png")) (Some (lit "Image/PNG"))
                    (Examples.world_of Examples.chat_page)))))
  = [ {| Content.fileName := lit "a.png";
         Content.fileType := lit "image/png";
         Content.fileBytes := [104%N; 105%N] |} ].
Proof. reflexivity. Qed.

Section SendButton.

Import Content More.

Variable cfg : Config.

Lemma locate_none p usable sels :
  locate p usable sels = None ->
  forall sel el, In sel sels -> querySelector p sel = QFound el ->
                 usable el = false.
Proof.
  induction sels as [| s rest IH]; simpl; [intros _ ? ? [] |].
  intros H sel el [<- | Hin] Hq.
  - rewrite Hq in H. destruct (usable el); [discriminate | reflexivity].
  - apply (IH) with (sel := sel); [| assumption | assumption].
    destruct (querySelector p s) as [e | |]; [| exact H | exact H].
    destruct (usable e); [discriminate | exact H].
Qed.

End SendButton.

(** X13.  [clickSend] clicks at most once, and only an element that one
    of the send selectors matched first and that is not disabled; it
    answers [true] exactly when it clicked.  When it answers [false],
    every first match of a send selector is disabled. *)
Theorem clickSend_clicks_enabled_only
    (cfg : Content.Config) (w : Content.World) :
  exists ops b,
    Content.clickSend cfg w = Content.Done w ops b /\
    if b then
      exists el sel,
        More.clicked ops = [el] /\
        Content.disabled (Content.page w) el = false /\
        In sel Content.send_selectors /\
        Content.querySelector (Content.page w) sel = Content.QFound el
    else
      More.clicked ops = [] /\
      forall sel el,
        In sel Content.send_selectors ->
        Content.querySelector (Content.page w) sel = Content.QFound el ->
        Content.disabled (Content.page w) el = true.
Proof.
  destruct (getSendButton_from_spec cfg Content.send_selectors w)
    as (ops & Hrun & _).
  assert (Hops : forallb Content.locator_op ops = true).
  { pose proof (getSendButton_safe cfg w) as Hs.
    unfold Content.getSendButton in Hs. rewrite Hrun in Hs.
    now inversion Hs. }
  apply clicked_locator_ops in Hops.
  unfold Content.clickSend. rewrite bind_emit.
  unfold Content.bind, Content.getSendButton. rewrite Hrun.
  destruct (Content.locate (Content.page w) _ Content.send_selectors)
    as [el |] eqn:Hloc; cbn [Content.bindA].
  - exists ([Content.Enter Content.clickSend_fn]
            ++ ops ++ [Content.Click el]), true.
    split; [reflexivity |].
    apply locate_usable in Hloc. destruct Hloc as (Hen & sel & Hin & Hq).
    apply negb_true_iff in Hen.
    exists el, sel. repeat split; try assumption.
    unfold More.clicked in *. rewrite !flat_map_app, Hops. reflexivity.
  - exists ([Content.Enter Content.clickSend_fn] ++ ops ++ []), false.
    split; [reflexivity |]. split.
    + unfold More.clicked in *. rewrite !flat_map_app, Hops. reflexivity.
    + intros sel el Hin Hq.
      pose proof (@locate_none _ _ _ Hloc sel el Hin Hq) as H.
      now apply negb_false_iff in H.
Qed.

(** X14.  [getFileInput] never throws and prefers an enabled input: it
    answers [null] exactly when the page has no file input; what it
    answers is a file input of the page; and it answers a disabled one
    only when all of them are disabled. *)
Theorem getFileInput_prefers_enabled (w : Content.World) :
  exists r,
    Content.getFileInput w = Content.Done w [] r /\
    let inputs :=
      Content.matches (Content.page w) Content.file_input_selector in
    match r with
    | None => inputs = []
    | Some e =>
        In e inputs /\
        (Content.disabled (Content.page w) e = true ->
         hd_error inputs = Some e /\
         forall x, In x inputs ->
                   Content.disabled (Content.page w) x = true)
    end.
Proof.
  eexists. split; [apply getFileInput_spec |]. cbv zeta.
  destruct (find _ _) as [e |] eqn:Hf.
  - apply find_some in Hf. destruct Hf as [Hin Hen].
    apply negb_true_iff in Hen. split; [exact Hin | congruence].
  - destruct (Content.matches _ _) as [| e rest] eqn:Hm; [reflexivity |].
    simpl. split; [now left |]. intros _. split; [reflexivity |].
    intros x Hx. pose proof (find_none _ _ Hf x Hx) as H.
    now apply negb_false_iff in H.
Qed.

Section Flushing.

Import Content More.

Variable cfg : Config.

Lemma finish_prepend A o (r : Async A) :
  finish (prepend o r) =
  (fst (fst (finish r)), o ++ snd (fst (finish r)), snd (finish r)).
Proof.
  destruct r as [w o' a | w o' e | w o' ms k]; simpl; try reflexivity.
  destruct (finish (k w)) as [[w' d] res]. simpl. now rewrite app_assoc.
Qed.

Lemma finish_bindA A B (r : Async A) (f : A -> M B) :
  finish (bindA r f) =
  match snd (finish r) with
  | Returned a =>
      let out := finish (f a (fst (fst (finish r)))) in
      (fst (fst out), snd (fst (finish r)) ++ snd (fst out), snd out)
  | Raised e => (fst (fst (finish r)), snd (fst (finish r)), Raised e)
  end.
Proof.
  induction r as [w o a | w o e | w o ms k IH]; simpl.
  - apply finish_prepend.
  - reflexivity.
  - rewrite IH. destruct (finish (k w)) as [[w' d] res]. simpl.
    destruct res as [a | e]; simpl; [| reflexivity].
    destruct (finish (f a w')) as [[w2 d2] res2]. simpl.
    now rewrite app_assoc.
Qed.

Lemma finish_globals P A w0 (r : Async A) :
  Safe P w0 r -> same_globals w0 (fst (fst (finish r))).
Proof.
  intros H.
  induction H as [w0 w o a Hg Ho | w0 w o e Hg Ho | w0 w o ms k Hg Ho Hk IH];
    simpl; try exact Hg.
  specialize (IH w). destruct (finish (k w)) as [[w' d] res]. simpl in *.
  destruct Hg as (Hq & Hp & Ha). destruct IH as (Hq' & Hp' & Ha').
  repeat split; congruence.
Qed.

Lemma dropped_app a b : dropped (a ++ b) = dropped a ++ dropped b.
Proof. unfold dropped. apply flat_map_app. Qed.

Lemma dropped_locator_ops ops :
  forallb locator_op ops = true -> dropped ops = [].
Proof.
  induction ops as [| op ops IH]; simpl; [reflexivity |].
  intros H. apply andb_true_iff in H. destruct H as [Hop Hops].
  destruct op; try discriminate; simpl; auto.
Qed.

(** One attachment, the page left alone while it sleeps. *)
Lemma attachFile_finish a w :
  let out := finish (attachFile cfg (base64Data a) (filename a) (mimeType a) w)
  in
  pendingAttachments (fst (fst out)) = pendingAttachments w /\
  match file_of a with
  | Some f => dropped (snd (fst out)) = [f] /\ snd out = Returned tt
  | None =>
      dropped (snd (fst out)) = [] /\
      snd out = Raised (lit "InvalidCharacterError")
  end.
Proof.
  intros out. split.
  - pose proof (finish_globals
                  (attachFile_safe cfg (base64Data a) (filename a)
                     (mimeType a) w)) as (_ & _ & H).
    exact H.
  - pose proof (@attachFile_runs_inv _ _ _ _ _ _ _ _ (finish_runs
                  (attachFile cfg (base64Data a) (filename a) (mimeType a) w)))
      as H.
    fold out in H. unfold file_of. destruct (atob (base64Data a)).
    + destruct H as (Hres & pre & mid & Hd & Hpre & Hmid).
      split; [| exact Hres]. rewrite Hd.
      change (Enter attachFile_fn :: ?l) with ([Enter attachFile_fn] ++ l).
      rewrite !dropped_app, (dropped_locator_ops _ Hpre).
      destruct Hmid as [-> | (fi & ->)]; reflexivity.
    + destruct H as (Hd & Hres & _). rewrite Hd. split; [reflexivity | exact Hres].
Qed.

Lemma skipn_nth_error A (l : list A) i x :
  nth_error l i = Some x -> skipn i l = x :: skipn (S i) l.
Proof.
  revert i. induction l as [| y l IH]; intros [| i]; simpl; try discriminate.
  - now intros [= ->].
  - intros H. now rewrite (IH _ H).
Qed.

Lemma flush_from_finish fuel : forall i w,
  List.length (pendingAttachments w) - i <= fuel ->
  let out := finish (flush_from cfg fuel i w) in
  let rest := skipn i (pendingAttachments w) in
  pendingAttachments (fst (fst out)) = pendingAttachments w /\
  dropped (snd (fst out)) = files_until_failure rest /\
  snd out = if forallb decodable rest then Returned tt
            else Raised (lit "InvalidCharacterError").
Proof.
  induction fuel as [| fuel IH]; intros i w Hlen; cbv zeta.
  - assert (Hs : skipn i (pendingAttachments w) = []).
    { apply skipn_all2. lia. }
    rewrite Hs. simpl. auto.
  - cbn [flush_from].
    destruct (nth_error (pendingAttachments w) i) as [att |] eqn:Hnth.
    + rewrite (skipn_nth_error _ _ Hnth).
      destruct (attachFile_finish att w) as (Hpend & Hatt).
      match goal with
      | |- context [finish ?r] => remember (finish r) as out eqn:Hout
      end.
      unfold bind at 1 in Hout. rewrite finish_bindA in Hout.
      set (o1 := finish (attachFile cfg _ _ _ w)) in *.
      cbn [files_until_failure forallb]. unfold decodable at 1.
      destruct (file_of att) as [f |]; destruct Hatt as (Hdrop & Hres);
        rewrite Hres in Hout.
      * cbv zeta in Hout. unfold bind, sleep in Hout.
        cbn [bindA finish prepend] in Hout. rewrite prepend_nil in Hout.
        assert (Hlen' : List.length (pendingAttachments (fst (fst o1)))
                        - S i <= fuel) by (rewrite Hpend; lia).
        specialize (IH (S i) (fst (fst o1)) Hlen'). cbv zeta in IH.
        rewrite Hpend in IH. destruct IH as (IH1 & IH2 & IH3).
        destruct (finish (flush_from cfg fuel (S i) (fst (fst o1))))
          as [[w2 d2] res2]. cbn [fst snd] in *. subst out. cbn [fst snd].
        split; [exact IH1 |]. split; [| exact IH3].
        change (Sleep 200 :: d2) with ([Sleep 200] ++ d2).
        rewrite !dropped_app, Hdrop, IH2. reflexivity.
      * subst out. cbn [fst snd]. auto.
    + assert (Hs : skipn i (pendingAttachments w) = []).
      { apply skipn_all2. now apply nth_error_None. }
      rewrite Hs. simpl. auto.
Qed.

End Flushing.

(** X15.  [flushAttachments], the page left alone meanwhile.  It drops
    the pending files in the order they were queued.  When every payload
    decodes it answers their number and empties the collection.  When one
    does not, it stops there with the exception of [atob], the files
    before it already dropped and the collection left whole.  The files
    are those [new File] makes of the queued entries: the type in lower
    case, or empty when it is missing or not printable ASCII. *)
Theorem flushAttachments_in_order
    (cfg : Content.Config) (fuel : nat) (w : Content.World) :
  List.length (Content.pendingAttachments w) <= fuel ->
  let pend := Content.pendingAttachments w in
  let out := Content.finish (Content.flushAttachments cfg fuel w) in
  More.dropped (snd (fst out)) = More.files_until_failure pend /\
  if forallb More.decodable pend then
    snd out = Content.Returned (List.length pend) /\
    Content.pendingAttachments (fst (fst out)) = []
  else
    snd out = Content.Raised (lit "InvalidCharacterError") /\
    Content.pendingAttachments (fst (fst out)) = pend.
Proof.
  intros Hlen pend out.
  assert (Hout : out =
    let o1 := Content.finish
                (match pend with
                 | [] => Content.Done w [] 0
                 | _ :: _ =>
                     Content.bind (Content.flush_from cfg fuel 0)
                       (fun _ w' =>
                          Content.Done (Content.with_pending [] w') []
                            (List.length (Content.pendingAttachments w'))) w
                 end) in
    (fst (fst o1),
     [Content.Enter Content.flushAttachments_fn] ++ snd (fst o1), snd o1)).
  { unfold out, Content.flushAttachments. rewrite bind_emit.
    apply finish_prepend. }
  clearbody out. subst out. cbv zeta. cbn [fst snd].
  assert (Hlen' : List.length (Content.pendingAttachments w) - 0 <= fuel)
    by lia.
  pose proof (@flush_from_finish cfg fuel 0 w Hlen') as H. cbv zeta in H.
  cbn [skipn] in H. fold pend in H. destruct H as (H1 & H2 & H3).
  destruct pend as [| a rest] eqn:Hp.
  - simpl. auto.
  - unfold Content.bind. rewrite finish_bindA.
    destruct (Content.finish (Content.flush_from cfg fuel 0 w))
      as [[w1 d1] res1]. cbn [fst snd] in *. subst res1.
    change (Content.Enter Content.flushAttachments_fn :: ?l)
      with ([Content.Enter Content.flushAttachments_fn] ++ l).
    destruct (forallb More.decodable (a :: rest)); cbn [fst snd Content.finish];
      cbn [fst snd].
    + rewrite dropped_app, (app_nil_r d1). cbn [More.dropped flat_map app].
      split; [exact H2 |]. rewrite H1. split; reflexivity.
    + rewrite dropped_app. cbn [More.dropped flat_map app].
      split; [exact H2 |]. split; [reflexivity | exact H1].
Qed.

Lemma flushAttachments_in_order_witness :
  let w :=
    Content.with_pending
      [ {| Content.base64Data := lit "aGk=";
           Content.filename := Some (lit "a.txt");
           Content.mimeType := Some (lit "Text/Plain");
           Content.pending_sender := Some (lit "Ana") |};
        {| Content.base64Data := lit "eW8=";
           Content.filename := Some (lit "b.txt");
           Content.mimeType := None;
           Content.pending_sender := Some (lit "Ana") |} ]
      (Examples.world_of Examples.chat_page) in
  let out := Content.finish (Content.flushAttachments Content.CONFIG 2 w) in
  More.dropped (snd (fst out))
  = [ {| Content.fileName := lit "a.txt";
         Content.fileType := lit "text/plain";
         Content.fileBytes := [104%N; 105%N] |};
      {| Content.fileName := lit "b.txt";
         Content.fileType := [];
         Content.fileBytes := [121%N; 111%N] |} ] /\
  snd out = Content.Returned 2.
Proof.
  intros w out.
  destruct (@flushAttachments_in_order Content.CONFIG 2 w (le_n 2))
    as (Hdrop & Hres & _).
  split; [exact Hdrop | exact Hres].
Defined.

(* ================================================================== *)
(** * Further properties of the speech engine *)
(* ================================================================== *)

Section Speech.

Import TTS More.

Lemma observe_keeps_lock doc s :
  unlocked (observe doc s) = unlocked s /\
  utterances (observe doc s) = utterances s /\
  enabled (observe doc s) = enabled s.
Proof.
  unfold observe, processResponseElement, new_stream, clear_stream.
  destruct (enabled s) eqn:He; simpl; [| now rewrite He].
  destruct (streaming doc) as [st |].
  - destruct (same_elem _ _); destruct (progressive st); simpl;
      try destruct (_ <? _); simpl; auto.
  - destruct (last _ _); simpl; repeat (destruct (_ <? _); simpl); auto.
Qed.

Lemma debounce_locked s :
  unlocked s = false ->
  unlocked (debounce_fired s) = false /\
  utterances (debounce_fired s) = utterances s.
Proof.
  intros H. unfold debounce_fired, speak.
  destruct (trim (pendingText s)); [auto |]. rewrite H. simpl. auto.
Qed.

Lemma debounce_leaves_blank s : trim (pendingText (debounce_fired s)) = [].
Proof.
  unfold debounce_fired.
  destruct (trim (pendingText s)) eqn:E; [exact E | reflexivity].
Qed.

Lemma single_spaced_cons a t :
  single_spaced (a :: t) =
  negb (is_space a && starts_with_space t) && single_spaced t.
Proof.
  destruct t as [| b t]; [| reflexivity].
  simpl. now rewrite andb_false_r.
Qed.

Lemma single_spaced_app a b :
  single_spaced (a ++ b) = true ->
  single_spaced a = true /\ single_spaced b = true.
Proof.
  induction a as [| x a IH]; [auto |].
  rewrite <- app_comm_cons, !single_spaced_cons. intros H.
  apply andb_true_iff in H. destruct H as [Hx Ht].
  destruct (IH Ht) as [Ha Hb]. split; [| exact Hb].
  rewrite Ha, andb_true_r. destruct a as [| y a]; [| exact Hx].
  simpl. now rewrite andb_false_r.
Qed.

Lemma collapse_spec s : forall b,
  Forall (fun c => is_space c = true -> c = 32%N) (collapse b s) /\
  single_spaced (collapse b s) = true /\
  (b = true -> starts_with_space (collapse b s) = false).
Proof.
  induction s as [| c s IH]; intros b; [simpl; auto |].
  cbn [collapse]. destruct (is_space c) eqn:Hc.
  - destruct b; [apply IH |].
    destruct (IH true) as (Hall & Hss & Hst). split; [| split].
    + constructor; auto.
    + rewrite single_spaced_cons, (Hst eq_refl), andb_false_r. exact Hss.
    + discriminate.
  - destruct (IH false) as (Hall & Hss & _). split; [| split].
    + constructor; [congruence | exact Hall].
    + rewrite single_spaced_cons, Hc. exact Hss.
    + intros _. exact Hc.
Qed.

Lemma trim_start_suffix s : exists p, s = p ++ trim_start s.
Proof.
  induction s as [| c s (p & IH)]; [now exists [] |].
  simpl. destruct (is_space c).
  - exists (c :: p). simpl. now f_equal.
  - now exists [].
Qed.

Lemma trim_start_clean s : starts_with_space (trim_start s) = false.
Proof.
  induction s as [| c s IH]; [reflexivity |].
  simpl. destruct (is_space c) eqn:Hc; [exact IH | exact Hc].
Qed.

Lemma trim_infix s :
  exists p q, s = p ++ trim s ++ q /\ trim_start s = trim s ++ q.
Proof.
  destruct (trim_start_suffix s) as (p & Hp).
  destruct (trim_start_suffix (rev (trim_start s))) as (q & Hq).
  exists p, (rev q). unfold trim.
  assert (H : trim_start s
              = rev (trim_start (rev (trim_start s))) ++ rev q).
  { rewrite <- rev_app_distr, <- Hq. now rewrite rev_involutive. }
  split; [| exact H]. now rewrite <- H.
Qed.

Lemma filter_nonempty A (f : A -> bool) l :
  filter f l = [] <-> existsb f l = false.
Proof.
  induction l as [| x l IH]; simpl; [tauto |].
  destruct (f x); simpl; [split; discriminate | exact IH].
Qed.

Lemma preferGoogle_member v l :
  exists r, preferGoogle (v :: l) = Some r /\ In r (v :: l) /\
            (existsb google (v :: l) = true -> google r = true).
Proof.
  unfold preferGoogle. fold google.
  destruct (find google (v :: l)) as [g |] eqn:Hf.
  - apply find_some in Hf. destruct Hf as [Hin Hg]. exists g. auto.
  - exists v. split; [reflexivity |]. split; [now left |].
    intros Hex. apply existsb_exists in Hex. destruct Hex as (x & Hx & Hg).
    pose proof (find_none _ _ Hf x Hx). congruence.
Qed.

Lemma detect_configured text :
  exists d, detect TTS_LANGUAGES text = Some d.
Proof.
  unfold detect.
  destruct (filter _ (counts_of TTS_LANGUAGES text)) as [| a rest].
  - eexists. reflexivity.
  - cbn [counts_of TTS_LANGUAGES map find lang isDefault].
    destruct (_ <? _); eexists; reflexivity.
Qed.

Lemma startsWith_app s p :
  startsWith s p = true -> s = p ++ skipn (List.length p) s.
Proof.
  revert s. induction p as [| c p IH]; intros s; [reflexivity |].
  destruct s as [| d s]; simpl; [discriminate |].
  intros H. apply andb_true_iff in H. destruct H as [Hc Hp].
  apply N.eqb_eq in Hc. subst d. f_equal. now apply IH.
Qed.

Lemma turn_text_extends e es : forall t t',
  turn_text e t es = Some t' -> exists d, t' = t ++ d.
Proof.
  induction es as [| ev es IH]; intros t t'; simpl.
  - intros [= <-]. exists []. now rewrite app_nil_r.
  - destruct ev as [doc | | | |]; try discriminate.
    + destruct (streamed e doc) as [t1 |]; [| discriminate].
      destruct (startsWith t1 t) eqn:Hp; [| discriminate].
      intros H. destruct (IH _ _ H) as (d & ->).
      apply startsWith_app in Hp. rewrite Hp.
      eexists. now rewrite <- app_assoc.
    + apply IH.
Qed.

Lemma skipn_app_exact A (a b : list A) : skipn (List.length a) (a ++ b) = b.
Proof. induction a; simpl; auto. Qed.

Lemma observe_streamed e doc t1 s :
  enabled s = true -> lastStreamingElement s = Some e ->
  streamed e doc = Some t1 ->
  observe doc s =
  if lastSpokenLength s <? List.length t1 then
    {| enabled := enabled s; speaking := speaking s;
       lastSpokenLength := List.length t1;
       pendingText := pendingText s ++ slice_from (lastSpokenLength s) t1;
       speakTimeout := true;
       lastStreamingElement := lastStreamingElement s;
       unlocked := unlocked s; utterances := utterances s |}
  else s.
Proof.
  intros He Hl Hs. unfold streamed in Hs. unfold observe. rewrite He, Hl.
  simpl. destruct (streaming doc) as [st |]; [| discriminate].
  rewrite Nat.eqb_sym. destruct (Nat.eqb (container st) e); [| discriminate].
  destruct (progressive st) as [p |]; [| discriminate].
  injection Hs as <-. unfold processResponseElement.
  rewrite ?He, ?Hl. reflexivity.
Qed.

Lemma stream_invariant e es : forall s t t',
  enabled s = true -> unlocked s = true ->
  lastStreamingElement s = Some e ->
  lastSpokenLength s = List.length t ->
  turn_text e t es = Some t' ->
  exists us,
    utterances (speech_run s es) = utterances s ++ us /\
    concat us ++ pendingText (speech_run s es)
      = pendingText s ++ skipn (List.length t) t' /\
    lastSpokenLength (speech_run s es) = List.length t'.
Proof.
  induction es as [| ev es IH]; intros s t t' He Hu Hl Hc Ht.
  - simpl in Ht. injection Ht as <-. exists []. simpl.
    rewrite skipn_all, !app_nil_r. auto.
  - destruct ev as [doc | | | |]; try discriminate; simpl in Ht.
    + destruct (streamed e doc) as [t1 |] eqn:Hs; [| discriminate].
      destruct (startsWith t1 t) eqn:Hp; [| discriminate].
      apply startsWith_app in Hp.
      destruct (turn_text_extends _ _ _ Ht) as (d2 & Hd2).
      change (speech_run s (Mutation doc :: es))
        with (speech_run (observe doc s) es).
      rewrite (observe_streamed _ s He Hl Hs), Hc.
      destruct (List.length t <? List.length t1) eqn:Hlt.
      * match goal with |- context [speech_run ?s1 es] =>
          destruct (IH s1 t1 t' He Hu Hl eq_refl Ht) as (us & H1 & H2 & H3)
        end.
        exists us. split; [exact H1 |]. split; [| exact H3].
        rewrite H2. cbn [pendingText]. rewrite <- app_assoc. f_equal.
        unfold slice_from. subst t'. rewrite skipn_app_exact.
        remember (skipn (List.length t) t1) as d1 eqn:Hd1.
        rewrite Hp, <- app_assoc, skipn_app_exact. reflexivity.
      * apply Nat.ltb_ge in Hlt.
        assert (Heq : t1 = t).
        { rewrite Hp in Hlt. rewrite length_app in Hlt.
          destruct (skipn (List.length t) t1) as [| x r];
            [now rewrite app_nil_r in Hp | simpl in Hlt; lia]. }
        subst t1. exact (IH s t t' He Hu Hl Hc Ht).
    + change (speech_run s (DebounceFired :: es))
        with (speech_run (debounce_fired s) es).
      unfold debounce_fired, speak.
      destruct (trim (pendingText s)) eqn:Htrim;
        [exact (IH s t t' He Hu Hl Hc Ht) |].
      rewrite Hu.
      match goal with |- context [speech_run ?s1 es] =>
        destruct (IH s1 t t' He eq_refl Hl Hc Ht) as (us & H1 & H2 & H3)
      end.
      exists (pendingText s :: us). split; [| split; [| exact H3]].
      * rewrite H1. cbn [utterances]. now rewrite <- app_assoc.
      * cbn [concat]. rewrite <- app_assoc, H2. cbn [pendingText].
        reflexivity.
Qed.

End Speech.

(** X16.  Speech needs the toggle.  Whatever the page does, whatever
    timers fire and however often [voice(true)] is given or the user
    navigates: until the first toggle the engine is locked and has said
    nothing, and a debounce timer that fires then leaves no buffered text
    behind to be said later. *)
Theorem nothing_is_said_before_the_first_toggle (es : list More.SpeechEvent) :
  forallb (fun e => negb (More.is_toggle e)) es = true ->
  let s := More.speech_run TTS.initial es in
  TTS.unlocked s = false /\ TTS.utterances s = [] /\
  TTS.utterances (TTS.debounce_fired s) = [] /\
  TTS.trim (TTS.pendingText (TTS.debounce_fired s)) = [].
Proof.
  intros Hes s.
  assert (H : TTS.unlocked s = false /\ TTS.utterances s = []).
  { unfold s. clear s.
    assert (Hgen : forall s0, TTS.unlocked s0 = false ->
                              TTS.utterances s0 = [] ->
              TTS.unlocked (More.speech_run s0 es) = false /\
              TTS.utterances (More.speech_run s0 es) = []).
    { induction es as [| e es IH]; intros s0 Hu Hs; [auto |].
      simpl in Hes. apply andb_true_iff in Hes. destruct Hes as [He Hes].
      change (More.speech_run s0 (e :: es))
        with (More.speech_run (More.speech_step s0 e) es).
      destruct e as [doc | | doc | on |]; try discriminate;
        apply (IH Hes); simpl; auto.
      - destruct (observe_keeps_lock doc s0) as (-> & _ & _). exact Hu.
      - destruct (observe_keeps_lock doc s0) as (_ & -> & _). exact Hs.
      - now apply debounce_locked.
      - destruct (debounce_locked s0 Hu) as (_ & ->). exact Hs. }
    now apply Hgen. }
  destruct H as [Hu Hs]. split; [exact Hu |]. split; [exact Hs |].
  split; [| apply debounce_leaves_blank].
  destruct (debounce_locked s Hu) as (_ & ->). exact Hs.
Qed.

Lemma nothing_is_said_before_the_first_toggle_witness :
  TTS.utterances
    (More.speech_run TTS.initial
       [More.Voice true; More.Popstate; More.DebounceFired]) = [].
Proof.
  exact (proj1 (proj2 (@nothing_is_said_before_the_first_toggle
                         [More.Voice true; More.Popstate; More.DebounceFired]
                         eq_refl))).
Defined.

(** X17.  The text the engine reads from a response is normalised: its
    only white space is the plain space, never two in a row, none at
    either end. *)
Theorem response_text_is_normalised (element : TTS.ResponseEl) :
  let t := TTS.response_text element in
  Forall (fun c => TTS.is_space c = true -> c = 32%N) t /\
  More.single_spaced t = true /\
  More.starts_with_space t = false /\
  More.starts_with_space (rev t) = false.
Proof.
  unfold TTS.response_text.
  set (raw := match TTS.markdownBlocks element with
              | [] => _
              | _ :: _ => _
              end).
  cbv zeta.
  destruct (collapse_spec raw false) as (Hall & Hss & _).
  destruct (trim_infix (TTS.collapse false raw)) as (p & q & Hpq & Hts).
  rewrite Hpq in Hall, Hss.
  apply Forall_app in Hall. destruct Hall as [_ Hall].
  apply Forall_app in Hall. destruct Hall as [Hall _].
  apply single_spaced_app in Hss. destruct Hss as [_ Hss].
  apply single_spaced_app in Hss. destruct Hss as [Hss _].
  split; [exact Hall |]. split; [exact Hss |]. split.
  - pose proof (trim_start_clean (TTS.collapse false raw)) as Hc.
    rewrite Hts in Hc.
    destruct (TTS.trim (TTS.collapse false raw)); [reflexivity | exact Hc].
  - unfold TTS.trim. rewrite rev_involutive. apply trim_start_clean.
Qed.

(** X18.  Within one streaming turn every piece of text is said once.
    While the block of the tracked element only grows at its end, what
    the engine has handed to the synthesiser since, followed by what it
    still buffers, is what it buffered at the start followed by the text
    that has arrived: nothing is repeated and nothing is left out,
    wherever the debounce timer falls. *)
Theorem streamed_text_is_said_once
    (e : Content.Elem) (s : TTS.State) (t t' : jsstring)
    (es : list More.SpeechEvent) :
  TTS.enabled s = true -> TTS.unlocked s = true ->
  TTS.lastStreamingElement s = Some e ->
  TTS.lastSpokenLength s = List.length t ->
  More.turn_text e t es = Some t' ->
  let s' := More.speech_run s es in
  exists us,
    TTS.utterances s' = TTS.utterances s ++ us /\
    concat us ++ TTS.pendingText s'
      = TTS.pendingText s ++ skipn (List.length t) t' /\
    TTS.lastSpokenLength s' = List.length t'.
Proof. intros. now apply stream_invariant with (e := e). Qed.

Lemma streamed_text_is_said_once_witness :
  let block t :=
    {| TTS.streaming :=
         Some {| TTS.container := 7;
                 TTS.progressive :=
                   Some {| TTS.innerText := t;
                           TTS.markdownBlocks :=
                             [ {| TTS.body_innerText := t;
                                  TTS.body_textContent := t;
                                  TTS.ancestors := [] |} ];
                           TTS.allBodies := [] |} |};
       TTS.completed := []; TTS.responses := [] |} in
  let idle := {| TTS.streaming := None; TTS.completed := [];
                 TTS.responses := [] |} in
  let s := TTS.observe (block []) (TTS.toggle idle TTS.initial) in
  let es := [ More.Mutation (block (lit "Hello")); More.DebounceFired;
              More.Mutation (block (lit "Hello  there ")) ] in
  exists us,
    TTS.utterances (More.speech_run s es) = TTS.utterances s ++ us /\
    concat us ++ TTS.pendingText (More.speech_run s es) = lit "Hello there".
Proof.
  intros block idle s es.
  destruct (@streamed_text_is_said_once 7 s [] (lit "Hello there") es
              eq_refl eq_refl eq_refl eq_refl eq_refl)
    as (us & H1 & H2 & _).
  exists us. split; [exact H1 | exact H2].
Defined.

Section Voices.

Import TTS More.

Lemma filter_subset A (f : A -> bool) l a rest :
  filter f l = a :: rest ->
  existsb f l = true /\
  forall x, In x (a :: rest) <-> In x l /\ f x = true.
Proof.
  intros H. split.
  - destruct (existsb f l) eqn:E; [reflexivity |].
    apply filter_nonempty in E. congruence.
  - intros x. rewrite <- H. apply filter_In.
Qed.

Lemma preferGoogle_among (own : TTS.Voice -> bool) voices a rest :
  filter own voices = a :: rest ->
  exists v,
    preferGoogle (a :: rest) = Some v /\ In v voices /\ own v = true /\
    (existsb (fun x => own x && google x) voices = true -> google v = true).
Proof.
  intros Hf. destruct (filter_subset _ _ Hf) as [_ Hin].
  destruct (preferGoogle_member a rest) as (v & Hv & Hmem & Hg).
  exists v. split; [exact Hv |].
  apply Hin in Hmem. destruct Hmem as [Hvin Hown].
  split; [exact Hvin |]. split; [exact Hown |].
  intros Hex. apply Hg. apply existsb_exists in Hex.
  destruct Hex as (x & Hx & Hxg). apply andb_true_iff in Hxg.
  destruct Hxg as [Hxo Hxg]. apply existsb_exists. exists x.
  split; [| exact Hxg]. apply Hin. auto.
Qed.

Lemma idle_page_invariant doc (es : list SpeechEvent) : forall s latest,
  streaming doc = None ->
  last (map Some (completed doc)) None = latest ->
  match latest with
  | Some r => List.length (innerText r) <= lastSpokenLength s
  | None => True
  end ->
  pendingText s = [] ->
  Forall (fun e => e = Mutation doc \/ e = DebounceFired) es ->
  utterances (speech_run s es) = utterances s /\
  pendingText (speech_run s es) = [] /\
  lastSpokenLength (speech_run s es) = lastSpokenLength s.
Proof.
  induction es as [| e es IH]; intros s latest Hst Hlast Hlen Hp Hes;
    [auto |].
  inversion Hes as [| ? ? He Hes']; subst.
  change (speech_run s (e :: es)) with (speech_run (speech_step s e) es).
  assert (Hstep : utterances (speech_step s e) = utterances s /\
                  pendingText (speech_step s e) = [] /\
                  lastSpokenLength (speech_step s e) = lastSpokenLength s).
  { destruct He as [-> | ->]; simpl.
    - unfold observe. destruct (enabled s); simpl; [| auto].
      rewrite Hst. simpl.
      destruct (last (map Some (completed doc)) None) as [r |]; simpl;
        [| auto].
      apply Nat.ltb_ge in Hlen. rewrite Hlen. simpl. auto.
    - unfold debounce_fired. rewrite Hp. simpl. auto. }
  destruct Hstep as (Hu & Hp' & Hl').
  destruct (IH (speech_step s e) _ Hst eq_refl) as (H1 & H2 & H3);
    try assumption.
  - rewrite Hl'. exact Hlen.
  - rewrite H1, H2, H3, Hu, Hl'. auto.
Qed.

End Voices.

(** X19.  The voice chosen for a text, over the configured languages.
    The choice never fails, and is [null] only when the browser offers no
    voice.  Otherwise it is one of the offered voices: one of the detected
    language when there is one, else an English one when there is one,
    else the first voice; and among the voices of the language used, a
    Google voice when there is one. *)
Theorem pickVoiceForText_fallback (voices : list TTS.Voice) (text : jsstring) :
  exists d,
    TTS.detect TTS.TTS_LANGUAGES text = Some d /\
    match voices with
    | [] => TTS.pickVoiceForText TTS.TTS_LANGUAGES voices text = Some None
    | _ :: _ =>
        exists v,
          TTS.pickVoiceForText TTS.TTS_LANGUAGES voices text = Some (Some v) /\
          In v voices /\
          let own := More.speaks (TTS.langPrefix (TTS.lang d)) in
          let en := More.speaks "en" in
          if existsb own voices then
            own v = true /\
            (existsb (fun x => own x && More.google x) voices = true ->
             More.google v = true)
          else if existsb en voices then
            en v = true /\
            (existsb (fun x => en x && More.google x) voices = true ->
             More.google v = true)
          else hd_error voices = Some v
    end.
Proof.
  destruct (detect_configured text) as (d & Hd). exists d.
  split; [exact Hd |].
  destruct voices as [| v0 vs]; [reflexivity |].
  unfold TTS.pickVoiceForText. rewrite Hd. unfold TTS.voices_for.
  cbv zeta.
  change (fun v => startsWith (TTS.voice_lang v)
                              (lit (TTS.langPrefix (TTS.lang d))))
    with (More.speaks (TTS.langPrefix (TTS.lang d))).
  change (fun v => startsWith (TTS.voice_lang v) (lit "en"))
    with (More.speaks "en").
  set (own := More.speaks (TTS.langPrefix (TTS.lang d))).
  set (en := More.speaks "en").
  destruct (filter own (v0 :: vs)) as [| a rest] eqn:Hown.
  - apply filter_nonempty in Hown. rewrite Hown.
    destruct (filter en (v0 :: vs)) as [| b rest] eqn:Hen.
    + apply filter_nonempty in Hen. rewrite Hen.
      exists v0. split; [reflexivity |]. split; [now left | reflexivity].
    + destruct (filter_subset _ _ Hen) as [-> _].
      destruct (preferGoogle_among _ _ Hen) as (v & Hv & Hin & Ho & Hg).
      exists v. rewrite Hv. auto.
  - destruct (filter_subset _ _ Hown) as [-> _].
    destruct (preferGoogle_among _ _ Hown) as (v & Hv & Hin & Ho & Hg).
    exists v. rewrite Hv. auto.
Qed.

(** X20.  Switching speech on over an idle page marks what is there as
    read.  When no response is streaming and the latest finished response
    is the latest response of the page, then after the toggle no callback
    of the observer on that page and no timer makes the engine say more
    than its confirmation. *)
Theorem toggle_marks_idle_page_as_read
    (doc : TTS.Doc) (s : TTS.State) (es : list More.SpeechEvent) :
  TTS.enabled s = false ->
  TTS.streaming doc = None ->
  last (map Some (TTS.completed doc)) None
    = last (map Some (TTS.responses doc)) None ->
  Forall (fun e => e = More.Mutation doc \/ e = More.DebounceFired) es ->
  let s' := More.speech_run (TTS.toggle doc s) es in
  TTS.utterances s' = TTS.utterances s ++ [lit "Voice enabled"] /\
  TTS.pendingText s' = [].
Proof.
  intros Hoff Hst Hlast Hes s'.
  assert (Hon : TTS.utterances (TTS.toggle doc s)
                = TTS.utterances s ++ [lit "Voice enabled"] /\
                TTS.pendingText (TTS.toggle doc s) = [] /\
                match last (map Some (TTS.completed doc)) None with
                | Some r => List.length (TTS.innerText r)
                            <= TTS.lastSpokenLength (TTS.toggle doc s)
                | None => True
                end).
  { unfold TTS.toggle. rewrite Hoff, Hst, Hlast. simpl.
    destruct (last (map Some (TTS.responses doc)) None); simpl; auto. }
  destruct Hon as (Hu & Hp & Hlen).
  destruct (@idle_page_invariant doc es (TTS.toggle doc s) _ Hst eq_refl
              Hlen Hp Hes) as (H1 & H2 & _).
  unfold s'. rewrite H1, H2, Hu. auto.
Qed.

Lemma toggle_marks_idle_page_as_read_witness :
  let r := {| TTS.innerText := lit "Hi"; TTS.markdownBlocks := [];
              TTS.allBodies :=
                [ {| TTS.body_innerText := lit "Hi";
                     TTS.body_textContent := lit "Hi";
                     TTS.ancestors := [] |} ] |} in
  let doc := {| TTS.streaming := None; TTS.completed := [r];
                TTS.responses := [r] |} in
  TTS.utterances
    (More.speech_run (TTS.toggle doc TTS.initial)
       [More.Mutation doc; More.DebounceFired])
  = [lit "Voice enabled"].
Proof.
  intros r doc.
  refine (proj1 (@toggle_marks_idle_page_as_read doc TTS.initial
                   [More.Mutation doc; More.DebounceFired]
                   eq_refl eq_refl eq_refl _)).
  constructor; [left; reflexivity |].
  constructor; [right; reflexivity | constructor].
Defined.
